(** * Kconfiglib: the expression and value engine, the .config reader and
      writer, symbol-reference expansion and [eval_string]

    A shallow embedding of [kconfiglib.py].  Python strings are [string],
    [None] is [option], a dict keyed by name is a [gmap string _], and the
    objects that Python shares by reference (Symbol, Choice) live in the
    tables of [Config] and are referred to by name or index.

    A property ([Symbol.value], [visibility], ...) that Python caches in a
    [_cached_*] slot is modelled by the computation that fills the slot.
    Values depend on each other through expressions, and Python recurses
    without a bound, so the value of a symbol is defined from an oracle that
    gives the values of the symbols it reads, and closed by recursion on a
    fuel: [None] stands for a recursion that does not end (or for an
    exception, where the source raises one). *)

From Stdlib Require Import ZArith Ascii String DecimalString HexadecimalString.
From stdpp Require Import base option list strings gmap.

Local Open Scope string_scope.
Set Warnings "-register-all".

(** ** Tristate values *)

Module Tri.

Inductive tri := N | M | Y.

Definition eqb (a b : tri) : bool :=
  match a, b with
  | N, N | M, M | Y, Y => true
  | _, _ => false
  end.

(** [_TRI_TO_INT] *)
Definition _TRI_TO_INT (v : tri) : Z :=
  match v with N => 0 | M => 1 | Y => 2 end.

Definition tri_less (v1 v2 : tri) : bool := (_TRI_TO_INT v1 <? _TRI_TO_INT v2)%Z.
Definition tri_less_eq (v1 v2 : tri) : bool := (_TRI_TO_INT v1 <=? _TRI_TO_INT v2)%Z.
Definition tri_greater (v1 v2 : tri) : bool := (_TRI_TO_INT v1 >? _TRI_TO_INT v2)%Z.
Definition tri_greater_eq (v1 v2 : tri) : bool := (_TRI_TO_INT v1 >=? _TRI_TO_INT v2)%Z.

(** The order n < m < y, and its minimum and maximum. *)
Definition le (a b : tri) : Prop := (_TRI_TO_INT a <= _TRI_TO_INT b)%Z.

Definition min (a b : tri) : tri :=
  match a, b with
  | N, _ | _, N => N
  | M, _ | _, M => M
  | Y, Y => Y
  end.

Definition max (a b : tri) : tri :=
  match a, b with
  | Y, _ | _, Y => Y
  | M, _ | _, M => M
  | N, N => N
  end.

(** The strings "n", "m" and "y" that Python uses for the three values. *)
Definition to_str (v : tri) : string :=
  match v with N => "n" | M => "m" | Y => "y" end.

Definition of_str (s : string) : option tri :=
  if String.eqb s "n" then Some N
  else if String.eqb s "m" then Some M
  else if String.eqb s "y" then Some Y
  else None.

End Tri.
Export Tri(tri, N, M, Y).

(** ** Python built-ins on strings and integers *)

Module Py.

Definition code (a : ascii) : nat := nat_of_ascii a.

Definition in_range (lo hi : nat) (a : ascii) : bool :=
  (lo <=? code a)%nat && (code a <=? hi)%nat.

(** [str.isspace] and the regex class [\s], on ASCII. *)
Definition isspace (a : ascii) : bool :=
  in_range 9 13 a || in_range 28 32 a.

(** The regex class [\w], on ASCII: [[A-Za-z0-9_]]. *)
Definition is_word (a : ascii) : bool :=
  in_range 48 57 a || in_range 65 90 a || in_range 97 122 a
  || (code a =? 95)%nat.

Fixpoint lstrip (s : string) : string :=
  match s with
  | String a r => if isspace a then lstrip r else s
  | EmptyString => EmptyString
  end.

Fixpoint all_space (s : string) : bool :=
  match s with
  | String a r => isspace a && all_space r
  | EmptyString => true
  end.

(** [str.rstrip()] *)
Fixpoint rstrip (s : string) : string :=
  match s with
  | String a r => if all_space s then EmptyString else String a (rstrip r)
  | EmptyString => EmptyString
  end.

(** The value of a digit in [int(s, base)]: 0-9, then a-z or A-Z as
    10..35. *)
Definition digit_val (a : ascii) : option Z :=
  if in_range 48 57 a then Some (Z.of_nat (code a) - 48)%Z
  else if in_range 97 122 a then Some (Z.of_nat (code a) - 87)%Z
  else if in_range 65 90 a then Some (Z.of_nat (code a) - 55)%Z
  else None.

(** The digits of an integer literal: at least one digit, single
    underscores allowed between digits; what follows the digits is
    returned. *)
Fixpoint digits (base : Z) (started prev_us : bool) (acc : Z) (s : string)
  : option (Z * string) :=
  let stop := if prev_us || negb started then None else Some (acc, s) in
  match s with
  | EmptyString => stop
  | String a r =>
      if (code a =? 95)%nat then
        if prev_us || negb started then None
        else digits base started true acc r
      else
        match digit_val a with
        | Some d =>
            if (d <? base)%Z then digits base true false (acc * base + d)%Z r
            else stop
        | None => stop
        end
  end.

Definition is_x (a : ascii) : bool := (code a =? 120)%nat || (code a =? 88)%nat.
Definition is_o (a : ascii) : bool := (code a =? 111)%nat || (code a =? 79)%nat.
Definition is_b (a : ascii) : bool := (code a =? 98)%nat || (code a =? 66)%nat.

Definition skip_us (s : string) : string :=
  match s with
  | String a r => if (code a =? 95)%nat then r else s
  | EmptyString => s
  end.

(** The base prefix: the base to use, whether a non-zero result is an
    error (a decimal literal with a leading zero, base 0), and the text
    after the prefix. *)
Definition prefix (base : Z) (s : string) : Z * bool * string :=
  match s with
  | String z (String p r) =>
      if (code z =? 48)%nat then
        if (base =? 0)%Z then
          if is_x p then (16%Z, false, skip_us r)
          else if is_o p then (8%Z, false, skip_us r)
          else if is_b p then (2%Z, false, skip_us r)
          else (10%Z, true, s)
        else if ((base =? 16)%Z && is_x p) || ((base =? 8)%Z && is_o p)
                || ((base =? 2)%Z && is_b p)
        then (base, false, skip_us r)
        else (base, false, s)
      else ((if (base =? 0)%Z then 10%Z else base), false, s)
  | _ => ((if (base =? 0)%Z then 10%Z else base), false, s)
  end.

(** [int(s, base)]; [None] is ValueError. *)
Definition int (s : string) (base : Z) : option Z :=
  let s1 := lstrip s in
  let '(neg, s2) :=
    match s1 with
    | String a r =>
        if (code a =? 45)%nat then (true, r)
        else if (code a =? 43)%nat then (false, r)
        else (false, s1)
    | EmptyString => (false, s1)
    end in
  let '(b, zero_only, s3) := prefix base s2 in
  match digits b false false 0%Z s3 with
  | Some (v, rest) =>
      if all_space rest && negb (zero_only && negb (v =? 0)%Z)
      then Some (if neg then (- v)%Z else v)
      else None
  | None => None
  end.

(** [str(n)] for an integer. *)
Definition str (n : Z) : string :=
  DecimalString.NilZero.string_of_int (Z.to_int n).

(** [hex(n)] for an integer. *)
Definition hex (n : Z) : string :=
  if (n <? 0)%Z
  then "-0x" ++ HexadecimalString.NilZero.string_of_uint (N.to_hex_uint (Z.to_N (- n)))
  else "0x" ++ HexadecimalString.NilZero.string_of_uint (N.to_hex_uint (Z.to_N n)).

(** [s.startswith(p)] *)
Definition startswith (p s : string) : bool := String.prefix p s.

(** [s.replace(old, new)] for a two-character [old]: the occurrences are
    found from the left and do not overlap. *)
Fixpoint replace2 (o1 o2 : ascii) (new : string) (s : string) : string :=
  match s with
  | String a r =>
      match r with
      | String b r' =>
          if Ascii.eqb a o1 && Ascii.eqb b o2
          then new ++ replace2 o1 o2 new r'
          else String a (replace2 o1 o2 new r)
      | EmptyString => s
      end
  | EmptyString => EmptyString
  end.

(** [s.replace(old, new)] for a one-character [old]. *)
Fixpoint replace1 (o : ascii) (new : string) (s : string) : string :=
  match s with
  | String a r =>
      if Ascii.eqb a o then new ++ replace1 o new r
      else String a (replace1 o new r)
  | EmptyString => EmptyString
  end.

End Py.

(** ** Data model *)

(** Symbol types: [BOOL], [HEX], [INT], [STRING], [TRISTATE], [UNKNOWN]. *)
Inductive sym_type := BOOL | HEX | INT | STRING | TRISTATE | UNKNOWN.

Definition sym_type_eqb (a b : sym_type) : bool :=
  match a, b with
  | BOOL, BOOL | HEX, HEX | INT, INT | STRING, STRING
  | TRISTATE, TRISTATE | UNKNOWN, UNKNOWN => true
  | _, _ => false
  end.

(** [_TYPE_TO_BASE] *)
Definition _TYPE_TO_BASE (t : sym_type) : Z :=
  match t with
  | HEX => 16
  | INT => 10
  | BOOL | STRING | TRISTATE | UNKNOWN => 0
  end.

(** [_DEFAULT_VALUE]; the table has no entry for [UNKNOWN]. *)
Definition _DEFAULT_VALUE (t : sym_type) : option string :=
  match t with
  | BOOL | TRISTATE => Some "n"
  | HEX | INT | STRING => Some ""
  | UNKNOWN => None
  end.

(** The relations [_EQUAL] ... [_GREATER_EQUAL]. *)
Inductive relation :=
  _EQUAL | _UNEQUAL | _LESS | _LESS_EQUAL | _GREATER | _GREATER_EQUAL.

(** Expressions.  A leaf is a Symbol, kept by name, or a constant string;
    the tuples [(_AND, e1, e2)], [(_OR, e1, e2)], [(_NOT, e)] and
    [(rel, e1, e2)] are the inner nodes.  A name that [Config.syms] does not
    hold denotes the fresh, undefined Symbol that [_lookup_sym] makes for
    [eval_string]. *)
Inductive expr :=
| ESym (name : string)
| EStr (s : string)
| EAnd (e1 e2 : expr)
| EOr (e1 e2 : expr)
| ENot (e : expr)
| ERel (rel : relation) (e1 e2 : expr).

(** A prompt is the pair (text, condition). *)
Definition prompt_t : Type := string * option expr.

Inductive node_item :=
| ItemSymbol (name : string)
| ItemChoice (idx : nat)
| MENU
| COMMENT.

(** The fields of a [MenuNode] that do not point into the tree. *)
Record MenuNode := mkMenuNode {
  item : node_item;
  prompt : option prompt_t;
  dep : option expr;
  visibility : option expr;
}.

(** The menu tree: a node and the nodes under it ([MenuNode.list], linked
    by [next]). *)
Inductive menu_tree :=
| Menu (node : MenuNode) (list : list menu_tree).

Record Symbol := mkSymbol {
  name : string;
  _type : sym_type;
  defaults : list (expr * option expr);
  ranges : list (expr * expr * option expr);
  rev_dep : expr;
  weak_rev_dep : expr;
  direct_deps : expr;
  nodes : list MenuNode;
  user_value : option string;
  choice : option nat;
  env_var : option string;
}.

Record Choice := mkChoice {
  ch_name : option string;
  ch_type : sym_type;
  ch_syms : list string;
  ch_defaults : list (string * option expr);
  ch_nodes : list MenuNode;
  ch_user_selection : option string;
  ch_user_value : option string;
  is_optional : bool;
}.

Record Config := mkConfig {
  syms : gmap string Symbol;
  defined_syms : list string;
  _choices : list Choice;
  top_menu_list : list menu_tree;
  top_menu_prompt : string;
  defconfig_list : option string;
  config_prefix : string;
  srctree : option string;
  _print_warnings : bool;
  _print_undef_assign : bool;
}.

(** [Symbol()] as [Symbol.__init__] leaves it, with its name set. *)
Definition new_Symbol (nm : string) : Symbol :=
  {| name := nm; _type := UNKNOWN; defaults := []; ranges := [];
     rev_dep := EStr "n"; weak_rev_dep := EStr "n"; direct_deps := EStr "n";
     nodes := []; user_value := None; choice := None; env_var := None |}.

(** The Symbol object a name stands for. *)
Definition sym_of (c : Config) (nm : string) : Symbol :=
  default (new_Symbol nm) (syms c !! nm).

(** ** Expression evaluation *)

Definition oracle : Type := string -> option string.

Definition is_tri_type (t : sym_type) : bool :=
  match t with BOOL | TRISTATE => true | _ => false end.

Section Eval.

Variable c : Config.
(** [value nm] is [Symbol.value] of the symbol named [nm]. *)
Variable value : oracle.

(** [_strcmp] *)
Definition _strcmp (s1 s2 : string) : Z :=
  match String.compare s1 s2 with
  | Lt => (-1)%Z
  | Eq => 0%Z
  | Gt => 1%Z
  end.

(** [_type_and_val]; a tuple has neither [_type] nor [value]. *)
Definition _type_and_val (obj : expr) : option (sym_type * string) :=
  match obj with
  | EStr s => Some (STRING, s)
  | ESym nm => v ← value nm; Some (_type (sym_of c nm), v)
  | _ => None
  end.

(** [_str_val] *)
Definition _str_val (obj : expr) : option string :=
  match obj with
  | EStr s => Some s
  | ESym nm => value nm
  | _ => None
  end.

Definition apply_relation (oper : relation) (comp : Z) : bool :=
  match oper with
  | _EQUAL => (comp =? 0)%Z
  | _UNEQUAL => negb (comp =? 0)%Z
  | _LESS => (comp <? 0)%Z
  | _LESS_EQUAL => (comp <=? 0)%Z
  | _GREATER => (comp >? 0)%Z
  | _GREATER_EQUAL => (comp >=? 0)%Z
  end.

Definition eval_relation (oper : relation) (op1 op2 : expr) : option tri :=
  '(op1_type, op1_str) ← _type_and_val op1;
  '(op2_type, op2_str) ← _type_and_val op2;
  let res (comp : Z) : option tri :=
    Some (if apply_relation oper comp then Y else N) in
  if sym_type_eqb op1_type STRING && sym_type_eqb op2_type STRING
  then res (_strcmp op1_str op2_str)
  else
    match Py.int op1_str (_TYPE_TO_BASE op1_type),
          Py.int op2_str (_TYPE_TO_BASE op2_type) with
    | Some n1, Some n2 => res (n1 - n2)%Z
    | _, _ =>
        match oper with
        | _EQUAL | _UNEQUAL => res (_strcmp op1_str op2_str)
        | _ => Some N
        end
    end.

(** [_eval_expr_rec].  The value of a bool or tristate symbol is one of
    "n", "m", "y" (see [Symbol_value_tri] below); anything else is
    rejected here. *)
Fixpoint _eval_expr_rec (e : expr) : option tri :=
  match e with
  | ESym nm =>
      if is_tri_type (_type (sym_of c nm))
      then v ← value nm; Tri.of_str v
      else Some N
  | EStr s =>
      Some (if String.eqb s "m" then M else if String.eqb s "y" then Y else N)
  | EAnd e1 e2 =>
      ev1 ← _eval_expr_rec e1;
      match ev1 with
      | N => Some N
      | _ =>
          ev2 ← _eval_expr_rec e2;
          Some (match ev1 with
                | Y => ev2
                | _ => match ev2 with N => N | _ => M end
                end)
      end
  | EOr e1 e2 =>
      ev1 ← _eval_expr_rec e1;
      match ev1 with
      | Y => Some Y
      | _ =>
          ev2 ← _eval_expr_rec e2;
          Some (match ev1 with
                | N => ev2
                | _ => match ev2 with Y => Y | _ => M end
                end)
      end
  | ENot e1 =>
      ev ← _eval_expr_rec e1;
      Some (match ev with Y => N | N => Y | M => M end)
  | ERel oper op1 op2 => eval_relation oper op1 op2
  end.

(** [eval_expr]: [None] is a missing expression. *)
Definition eval_expr (e : option expr) : option tri :=
  match e with
  | None => Some Y
  | Some e => _eval_expr_rec e
  end.

(** A tristate value passed where Python passes its string. *)
Definition tri_expr (v : tri) : option expr := Some (EStr (Tri.to_str v)).

(** [_eval_min], [_eval_max] *)
Definition _eval_min (e1 e2 : option expr) : option tri :=
  e1_eval ← eval_expr e1;
  e2_eval ← eval_expr e2;
  Some (if Tri.tri_less e1_eval e2_eval then e1_eval else e2_eval).

Definition _eval_max (e1 e2 : option expr) : option tri :=
  e1_eval ← eval_expr e1;
  e2_eval ← eval_expr e2;
  Some (if Tri.tri_greater e1_eval e2_eval then e1_eval else e2_eval).

End Eval.

(** ** Visibility, type, mode and selection *)

Section Engine.

Variable c : Config.
Variable value : oracle.

Local Abbreviation eval_expr := (eval_expr c value).
Local Abbreviation _eval_min := (_eval_min c value).
Local Abbreviation _eval_max := (_eval_max c value).
Local Abbreviation _str_val := (_str_val value).

(** [config.modules.value == "n"]; [config.modules] is the symbol that
    [_lookup_sym("MODULES")] returned in [__init__]. *)
Definition modules_is_n : option bool :=
  v ← value "MODULES"; Some (String.eqb v "n").

(** The loop of [_get_visibility] over [sc.nodes]. *)
Fixpoint prompts_vis (vis : tri) (nds : list MenuNode) : option tri :=
  match nds with
  | [] => Some vis
  | node :: rest =>
      match prompt node with
      | Some p => vis' ← _eval_max (tri_expr vis) (snd p); prompts_vis vis' rest
      | None => prompts_vis vis rest
      end
  end.

(** The end of [_get_visibility]: "m" is promoted to "y" for a
    non-tristate, and when modules are off. *)
Definition promote_vis (t : sym_type) (vis : tri) : option tri :=
  match vis with
  | M =>
      if negb (sym_type_eqb t TRISTATE) then Some Y
      else mn ← modules_is_n; Some (if mn : bool then Y else M)
  | _ => Some vis
  end.

(** [Choice.visibility]: [_get_visibility] of a Choice. *)
Definition Choice_visibility (ch : Choice) : option tri :=
  vis ← prompts_vis N (ch_nodes ch);
  promote_vis (ch_type ch) vis.

(** [Choice.type] *)
Definition Choice_type (ch : Choice) : option sym_type :=
  if sym_type_eqb (ch_type ch) TRISTATE
  then mn ← modules_is_n; Some (if mn : bool then BOOL else ch_type ch)
  else Some (ch_type ch).

(** [Choice.value], the mode of the choice. *)
Definition Choice_value (ch : Choice) : option tri :=
  val ← match ch_user_value ch with
        | Some uv =>
            vis ← Choice_visibility ch;
            _eval_min (Some (EStr uv)) (tri_expr vis)
        | None => Some N
        end;
  let val := match val with
             | N => if negb (is_optional ch) then M else N
             | _ => val
             end in
  match val with
  | M => t ← Choice_type ch; Some (if sym_type_eqb t BOOL then Y else M)
  | _ => Some val
  end.

(** [Symbol.visibility]: [_get_visibility] of a Symbol. *)
Definition Symbol_visibility (s : Symbol) : option tri :=
  vis ← prompts_vis N (nodes s);
  match choice s with
  | None => promote_vis (_type s) vis
  | Some ci =>
      ch ← _choices c !! ci;
      hidden1 ←
        (if sym_type_eqb (ch_type ch) TRISTATE
            && negb (sym_type_eqb (_type s) TRISTATE)
         then mode ← Choice_value ch; Some (negb (Tri.eqb mode Y))
         else Some false);
      if hidden1 : bool then Some N
      else
        hidden2 ←
          (if sym_type_eqb (_type s) TRISTATE && Tri.eqb vis M
           then mode ← Choice_value ch; Some (Tri.eqb mode Y)
           else Some false);
        if hidden2 : bool then Some N
        else
          chvis ← Choice_visibility ch;
          vis' ← _eval_min (tri_expr vis) (tri_expr chvis);
          promote_vis (_type s) vis'
  end.

(** [Symbol.type] *)
Definition Symbol_type (s : Symbol) : option sym_type :=
  if sym_type_eqb (_type s) TRISTATE then
    in_y ← match choice s with
           | Some ci =>
               ch ← _choices c !! ci;
               mode ← Choice_value ch; Some (Tri.eqb mode Y)
           | None => Some false
           end;
    if in_y : bool then Some BOOL
    else mn ← modules_is_n; Some (if mn : bool then BOOL else _type s)
  else Some (_type s).

(** The two loops of [Choice.default_selection]. *)
Fixpoint default_from_defaults (ds : list (string * option expr))
  : option (option string) :=
  match ds with
  | [] => Some None
  | (nm, cond_expr) :: rest =>
      cv ← eval_expr cond_expr;
      match cv with
      | N => default_from_defaults rest
      | _ =>
          vis ← Symbol_visibility (sym_of c nm);
          match vis with
          | N => default_from_defaults rest
          | _ => Some (Some nm)
          end
      end
  end.

Fixpoint first_visible (ss : list string) : option (option string) :=
  match ss with
  | [] => Some None
  | nm :: rest =>
      vis ← Symbol_visibility (sym_of c nm);
      match vis with
      | N => first_visible rest
      | _ => Some (Some nm)
      end
  end.

(** [Choice.default_selection] *)
Definition default_selection (ch : Choice) : option (option string) :=
  d ← default_from_defaults (ch_defaults ch);
  match d with
  | Some nm => Some (Some nm)
  | None => first_visible (ch_syms ch)
  end.

(** [Choice.selection]: the name of the selected symbol, if any. *)
Definition selection (ch : Choice) : option (option string) :=
  mode ← Choice_value ch;
  match mode with
  | Y =>
      user ← match ch_user_selection ch with
             | Some nm =>
                 vis ← Symbol_visibility (sym_of c nm);
                 Some (if Tri.eqb vis Y then Some nm else None)
             | None => Some None
             end;
      match user with
      | Some nm => Some (Some nm)
      | None => default_selection ch
      end
  | _ => Some None
  end.

(** ** [Symbol.value] *)

(** "m" to "y" at the end of the bool/tristate case. *)
Definition promote_val (s : Symbol) (val : tri) : option tri :=
  match val with
  | M =>
      t ← Symbol_type s;
      if sym_type_eqb t BOOL then Some Y
      else w ← eval_expr (Some (weak_rev_dep s));
           Some (if Tri.eqb w Y then Y else M)
  | _ => Some val
  end.

(** The loop over the defaults of a bool/tristate symbol: the first
    default whose condition is not "n". *)
Fixpoint tri_defaults (ds : list (expr * option expr)) : option (option tri) :=
  match ds with
  | [] => Some None
  | (default, cond) :: rest =>
      cond_val ← eval_expr cond;
      match cond_val with
      | N => tri_defaults rest
      | _ => v ← _eval_min (Some default) (tri_expr cond_val); Some (Some v)
      end
  end.

(** A bool/tristate symbol outside a choice: value and [_write_to_conf]. *)
Definition value_tri_plain (s : Symbol) (vis : tri) : option (tri * bool) :=
  '(val, w) ←
    match vis, user_value s with
    | (M | Y), Some uv =>
        v ← _eval_min (Some (EStr uv)) (tri_expr vis); Some (v, true)
    | _, _ =>
        d ← tri_defaults (defaults s);
        let '(val, w) := match d with
                         | Some v => (v, true)
                         | None => (N, negb (Tri.eqb vis N))
                         end in
        dd ← eval_expr (Some (direct_deps s));
        match dd with
        | N => Some (val, w)
        | _ =>
            weak_rev_dep_val ← eval_expr (Some (weak_rev_dep s));
            match weak_rev_dep_val with
            | N => Some (val, w)
            | _ =>
                v ← _eval_max (tri_expr val) (tri_expr weak_rev_dep_val);
                Some (v, true)
            end
        end
    end;
  rev_dep_val ← eval_expr (Some (rev_dep s));
  match rev_dep_val with
  | N => Some (val, w)
  | _ => v ← _eval_max (tri_expr val) (tri_expr rev_dep_val); Some (v, true)
  end.

(** A bool/tristate symbol in the choice [ch]. *)
Definition value_tri_choice (s : Symbol) (ch : Choice) (vis : tri)
  : option (tri * bool) :=
  match vis with
  | N => Some (N, false)
  | _ =>
      mode ← Choice_value ch;
      match mode with
      | N => Some (N, false)
      | Y =>
          sel ← selection ch;
          Some (match sel with
                | Some nm => if String.eqb nm (name s) then Y else N
                | None => N
                end, true)
      | M =>
          Some (match user_value s with
                | Some uv =>
                    if String.eqb uv "m" || String.eqb uv "y" then M else N
                | None => N
                end, true)
      end
  end.

(** The active range of an int/hex symbol: the first range whose
    condition is not "n". *)
Fixpoint active_range (base : Z) (rs : list (expr * expr * option expr))
  : option (option (Z * Z)) :=
  match rs with
  | [] => Some None
  | (low_expr, high_expr, cond_expr) :: rest =>
      cv ← eval_expr cond_expr;
      match cv with
      | N => active_range base rest
      | _ =>
          low_str ← _str_val low_expr;
          high_str ← _str_val high_expr;
          Some (Some (default 0%Z (Py.int low_str base),
                      default 0%Z (Py.int high_str base)))
      end
  end.

(** [hex(n) if self._type == HEX else str(n)] *)
Definition canonical (t : sym_type) (n : Z) : string :=
  if sym_type_eqb t HEX then Py.hex n else Py.str n.

Definition clamp (t : sym_type) (range : option (Z * Z)) (val : string)
  (val_num : Z) : string :=
  match range with
  | Some (low, high) =>
      if (val_num <? low)%Z then canonical t low
      else if (val_num >? high)%Z then canonical t high
      else val
  | None => val
  end.

(** The loop over the defaults of an int/hex symbol, with its [else]. *)
Fixpoint int_defaults (t : sym_type) (base : Z) (range : option (Z * Z))
  (val : string) (w : bool) (ds : list (expr * option expr))
  : option (string * bool) :=
  match ds with
  | [] =>
      Some (match range with
            | Some (low, _) => if (low >? 0)%Z then canonical t low else val
            | None => val
            end, w)
  | (val_expr, cond_expr) :: rest =>
      cv ← eval_expr cond_expr;
      match cv with
      | N => int_defaults t base range val w rest
      | _ =>
          v ← _str_val val_expr;
          match Py.int v base with
          | Some val_num => Some (clamp t range v val_num, true)
          | None => int_defaults t base range v true rest
          end
      end
  end.

Definition user_value_ok (base : Z) (range : option (Z * Z)) (uv : string)
  : bool :=
  match Py.int uv base with
  | Some n =>
      match range with
      | Some (low, high) => (low <=? n)%Z && (n <=? high)%Z
      | None => true
      end
  | None => false
  end.

Definition value_int (s : Symbol) (vis : tri) : option (string * bool) :=
  let base := _TYPE_TO_BASE (_type s) in
  range ← active_range base (ranges s);
  let w := negb (Tri.eqb vis N) in
  match user_value s with
  | Some uv =>
      if w && user_value_ok base range uv then Some (uv, w)
      else int_defaults (_type s) base range "" w (defaults s)
  | None => int_defaults (_type s) base range "" w (defaults s)
  end.

(** The loop over the defaults of a string symbol. *)
Fixpoint string_defaults (val : string) (w : bool)
  (ds : list (expr * option expr)) : option (string * bool) :=
  match ds with
  | [] => Some (val, w)
  | (val_expr, cond_expr) :: rest =>
      cv ← eval_expr cond_expr;
      match cv with
      | N => string_defaults val w rest
      | _ => v ← _str_val val_expr; Some (v, true)
      end
  end.

Definition value_string (s : Symbol) (vis : tri) : option (string * bool) :=
  let w := negb (Tri.eqb vis N) in
  match vis, user_value s with
  | (M | Y), Some uv => Some (uv, w)
  | _, _ => string_defaults "" w (defaults s)
  end.

(** [Symbol.value], with the [_write_to_conf] flag it leaves behind. *)
Definition Symbol_value (s : Symbol) : option (string * bool) :=
  match _type s with
  | UNKNOWN => Some (name s, false)
  | BOOL | TRISTATE =>
      vis ← Symbol_visibility s;
      '(val, w) ← match choice s with
                  | None => value_tri_plain s vis
                  | Some ci => ch ← _choices c !! ci; value_tri_choice s ch vis
                  end;
      val' ← promote_val s val;
      Some (Tri.to_str val', w)
  | INT | HEX => vis ← Symbol_visibility s; value_int s vis
  | STRING => vis ← Symbol_visibility s; value_string s vis
  end.

(** [Symbol._get_assignable] *)
Definition _get_assignable (s : Symbol) : option string :=
  if negb (is_tri_type (_type s)) then Some ""
  else
    vis ← Symbol_visibility s;
    let boolish : option bool :=
      t ← Symbol_type s;
      if sym_type_eqb t BOOL then Some true
      else w ← eval_expr (Some (weak_rev_dep s)); Some (Tri.eqb w Y) in
    match vis with
    | N => Some ""
    | Y =>
        rev_dep_val ← eval_expr (Some (rev_dep s));
        match rev_dep_val with
        | N => b ← boolish; Some (if b : bool then "ny" else "nmy")
        | Y => Some "y"
        | M => b ← boolish; Some (if b : bool then "y" else "my")
        end
    | M =>
        rev_dep_val ← eval_expr (Some (rev_dep s));
        match rev_dep_val with
        | N => w ← eval_expr (Some (weak_rev_dep s));
               Some (if negb (Tri.eqb w Y) then "m" else "y")
        | Y => Some "y"
        | M => Some "m"
        end
    end.

(** [Choice._get_assignable] *)
Definition Choice_get_assignable (ch : Choice) : option string :=
  vis ← Choice_visibility ch;
  match vis with
  | N => Some ""
  | Y =>
      if negb (is_optional ch)
      then t ← Choice_type ch; Some (if sym_type_eqb t BOOL then "y" else "my")
      else Some "y"
  | M => Some (if is_optional ch then "nm" else "m")
  end.

End Engine.

(** The value of a symbol by name: [Symbol.value] with the values it reads
    computed the same way, to a depth of [fuel]. *)
Fixpoint value_of (fuel : nat) (c : Config) (nm : string) : option string :=
  match fuel with
  | O => None
  | S f => fst <$> Symbol_value c (value_of f c) (sym_of c nm)
  end.

Definition write_to_conf_of (fuel : nat) (c : Config) (nm : string)
  : option bool :=
  match fuel with
  | O => None
  | S f => snd <$> Symbol_value c (value_of f c) (sym_of c nm)
  end.

(** The table of the specification for the assignable values of a bool or
    tristate symbol, from the visibility, the value of [rev_dep], and
    whether the symbol is "bool-ish": its effective type is bool or its
    [weak_rev_dep] is "y". *)
Definition assignable_table (vis rev_dep_val : tri) (boolish : bool) : string :=
  match vis, rev_dep_val, boolish with
  | N, _, _ => ""
  | Y, N, true => "ny"
  | Y, N, false => "nmy"
  | Y, Y, _ => "y"
  | Y, M, true => "y"
  | Y, M, false => "my"
  | M, N, false => "m"
  | M, N, true => "y"
  | M, Y, _ => "y"
  | M, M, _ => "m"
  end.

(** ** Values that recursion reaches *)

(** [oracle_le v1 v2]: [v2] gives every value that [v1] gives. *)
Definition oracle_le (v1 v2 : oracle) : Prop :=
  forall nm r, v1 nm = Some r -> v2 nm = Some r.

(** The symbol named [nm] has the value [v]: the recursion of
    [Symbol.value] returns it. *)
Definition has_value (c : Config) (nm v : string) : Prop :=
  exists fuel, value_of fuel c nm = Some v.

(** The expression [e] evaluates to [r]. *)
Definition evaluates (c : Config) (e : option expr) (r : tri) : Prop :=
  exists fuel, eval_expr c (value_of fuel c) e = Some r.

(** A computation that reads symbol values returns [a]. *)
Definition returns {A} (c : Config) (F : oracle -> option A) (a : A) : Prop :=
  exists fuel, F (value_of fuel c) = Some a.

(** ** Warnings *)

(** The messages that [_warn] and [_warn_undef_assign] write to stderr,
    with the values that are formatted into them. *)
Inductive warning :=
| W_invalid_value (value nm : string) (t : sym_type)
| W_undefined_assign (value nm : string)
| W_promptless_assign (value nm : string)
| W_undefined_assign_load (nm val filename : string) (linenr : nat)
| W_malformed_string (filename : string) (linenr : nat)
| W_choice_mode (nm val mode filename : string) (linenr : nat)
| W_set_more_than_once (nm old new filename : string) (linenr : nat)
| W_choice_invalid_value (value : string) (t : sym_type)
| W_no_symbol (nm : string).

(** [Config._warn]: the message is printed when warnings are enabled. *)
Definition _warn (c : Config) (w : warning) : list warning :=
  if _print_warnings c then [w] else [].

(** [Config._warn_undef_assign] *)
Definition _warn_undef_assign (c : Config) (w : warning) : list warning :=
  if _print_undef_assign c then [w] else [].

(** ** Assignments *)

Definition set_user_value (uv : option string) (s : Symbol) : Symbol :=
  {| name := name s; _type := _type s; defaults := defaults s;
     ranges := ranges s; rev_dep := rev_dep s;
     weak_rev_dep := weak_rev_dep s; direct_deps := direct_deps s;
     nodes := nodes s; user_value := uv; choice := choice s;
     env_var := env_var s |}.

Definition set_choice_user (uv sel : option string) (ch : Choice) : Choice :=
  {| ch_name := ch_name ch; ch_type := ch_type ch; ch_syms := ch_syms ch;
     ch_defaults := ch_defaults ch; ch_nodes := ch_nodes ch;
     ch_user_selection := sel; ch_user_value := uv;
     is_optional := is_optional ch |}.

Definition with_syms (c : Config) (m : gmap string Symbol) : Config :=
  {| syms := m; defined_syms := defined_syms c; _choices := _choices c;
     top_menu_list := top_menu_list c; top_menu_prompt := top_menu_prompt c;
     defconfig_list := defconfig_list c; config_prefix := config_prefix c;
     srctree := srctree c; _print_warnings := _print_warnings c;
     _print_undef_assign := _print_undef_assign c |}.

Definition with_choices (c : Config) (l : list Choice) : Config :=
  {| syms := syms c; defined_syms := defined_syms c; _choices := l;
     top_menu_list := top_menu_list c; top_menu_prompt := top_menu_prompt c;
     defconfig_list := defconfig_list c; config_prefix := config_prefix c;
     srctree := srctree c; _print_warnings := _print_warnings c;
     _print_undef_assign := _print_undef_assign c |}.

(** The test at the head of [_set_value_no_invalidate]: is the value valid
    for the type? *)
Definition valid_for_type (t : sym_type) (value : string) : bool :=
  match t with
  | BOOL => String.eqb value "n" || String.eqb value "y"
  | TRISTATE =>
      String.eqb value "n" || String.eqb value "m" || String.eqb value "y"
  | STRING => true
  | INT => bool_decide (is_Some (Py.int value 10))
  | HEX => bool_decide (is_Some (Py.int value 16))
  | UNKNOWN => false
  end.

Definition has_prompt (nds : list MenuNode) : bool :=
  existsb (fun node => bool_decide (is_Some (prompt node))) nds.

(** [Symbol._set_value_no_invalidate], on the symbol named [nm]. *)
Definition _set_value_no_invalidate (c : Config) (nm value : string)
  (suppress_prompt_warning : bool) : Config * list warning :=
  let s := sym_of c nm in
  if negb (valid_for_type (_type s) value)
  then (c, _warn c (W_invalid_value value (name s) (_type s)))
  else
    let w1 := match nodes s with
              | [] => _warn_undef_assign c (W_undefined_assign value (name s))
              | _ => []
              end in
    let w2 := if negb suppress_prompt_warning && negb (has_prompt (nodes s))
              then _warn c (W_promptless_assign value (name s))
              else [] in
    let c1 := with_syms c (alter (set_user_value (Some value)) nm (syms c)) in
    let c2 :=
      match choice s with
      | Some ci =>
          if is_tri_type (_type s) then
            if String.eqb value "y" then
              with_choices c1
                (alter (set_choice_user (Some "y") (Some nm)) ci (_choices c1))
            else if String.eqb value "m" then
              with_choices c1
                (alter (fun ch => set_choice_user (Some "m")
                                    (ch_user_selection ch) ch)
                   ci (_choices c1))
            else c1
          else c1
      | None => c1
      end in
    (c2, (w1 ++ w2)%list).

(** [Symbol.set_value]; the invalidation that follows clears cached
    values only. *)
Definition Symbol_set_value (c : Config) (nm value : string)
  : Config * list warning :=
  _set_value_no_invalidate c nm value false.

(** [Symbol.unset_value] *)
Definition Symbol_unset_value (c : Config) (nm : string) : Config :=
  with_syms c (alter (set_user_value None) nm (syms c)).

(** [Config.unset_values] *)
Definition unset_values (c : Config) : Config :=
  let m := foldr (fun nm m => alter (set_user_value None) nm m)
             (syms c) (defined_syms c) in
  with_choices (with_syms c m) (set_choice_user None None <$> _choices c).

(** [Choice.set_value]: an invalid value is warned about, and stored all
    the same. *)
Definition Choice_set_value (c : Config) (ci : nat) (value : string)
  : Config * list warning :=
  match _choices c !! ci with
  | Some ch =>
      let ok :=
        match ch_type ch with
        | BOOL => String.eqb value "n" || String.eqb value "y"
        | TRISTATE =>
            String.eqb value "n" || String.eqb value "m"
            || String.eqb value "y"
        | _ => false
        end in
      (with_choices c
         (alter (fun ch => set_choice_user (Some value)
                             (ch_user_selection ch) ch) ci (_choices c)),
       if ok then [] else _warn c (W_choice_invalid_value value (ch_type ch)))
  | None => (c, [])
  end.

(** [Choice.unset_value] *)
Definition Choice_unset_value (c : Config) (ci : nat) : Config :=
  with_choices c (alter (set_choice_user None None) ci (_choices c)).

(** ** The process: environment and files *)

Record World := mkWorld {
  environ : gmap string string;
  files : gmap string string;
}.

(** What [Config.__init__] reads from the environment. *)
Definition init_config_prefix (w : World) : string :=
  default "CONFIG_" (environ w !! "CONFIG_").

Definition init_srctree (w : World) : option string :=
  environ w !! "srctree".

(** [option env="VAR"] in [_parse_properties]: the variable is recorded
    in [env_var], and its value, read now, is added to the defaults of the
    location; a variable that is not set gives a warning. *)
Inductive parse_warning :=
| W_env_missing (nm env_var : string).

Definition parse_option_env (w : World) (nm env_var : string)
  (defaults_here : list (expr * option expr))
  : option string * list (expr * option expr) * list parse_warning :=
  match environ w !! env_var with
  | None => (Some env_var, defaults_here, [W_env_missing nm env_var])
  | Some v => (Some env_var, (defaults_here ++ [(EStr v, None)])%list, [])
  end.

(** [os.path.isabs], [os.path.join] (POSIX). *)
Definition isabs (p : string) : bool := Py.startswith "/" p.

Fixpoint ends_with_slash (p : string) : bool :=
  match p with
  | EmptyString => false
  | String a EmptyString => Ascii.eqb a "/"
  | String _ r => ends_with_slash r
  end.

Definition path_join (a b : string) : string :=
  if isabs b then b
  else if String.eqb a "" || ends_with_slash a then a ++ b
  else a ++ "/" ++ b.

(** [Config._open]: the path opened and the text of the file; [None] is
    the IOError. *)
Definition _open (c : Config) (w : World) (filename : string)
  : option (string * string) :=
  match files w !! filename with
  | Some text => Some (filename, text)
  | None =>
      match srctree c with
      | Some dir =>
          if negb (isabs filename)
          then text ← files w !! path_join dir filename;
               Some (path_join dir filename, text)
          else None
      | None => None
      end
  end.

(** The lines of a text file, as iterating over the file gives them: each
    ends with its newline, except possibly the last. *)
Fixpoint file_lines_aux (cur : string) (s : string) : list string :=
  match s with
  | EmptyString => if String.eqb cur "" then [] else [cur]
  | String a r =>
      if Ascii.eqb a "010" then (cur ++ String a "") :: file_lines_aux "" r
      else file_lines_aux (cur ++ String a "") r
  end.

Definition file_lines (s : string) : list string := file_lines_aux "" s.

(** ** Reading a .config *)

(** The longest prefix of word characters, and the rest. *)
Fixpoint span_word (s : string) : string * string :=
  match s with
  | String a r =>
      if Py.is_word a
      then let '(n, t) := span_word r in (String a n, t)
      else ("", s)
  | EmptyString => ("", "")
  end.

(** [s] without the prefix [p], when it starts with it. *)
Fixpoint strip_prefix (p s : string) : option string :=
  match p, s with
  | EmptyString, _ => Some s
  | String a p', String b s' =>
      if Ascii.eqb a b then strip_prefix p' s' else None
  | String _ _, EmptyString => None
  end.

(** [_set_re.match(line)]: the prefix, a name of one or more word
    characters, [=], and the rest of the line; the groups (name, value).  The prefix is matched as it is written: it is assumed
    to hold no character that is special in a regular expression. *)
Definition _set_re_match (pfx line : string) : option (string * string) :=
  rest ← strip_prefix pfx line;
  let '(nm, rest') := span_word rest in
  if String.eqb nm "" then None
  else
    match rest' with
    | String a val => if Ascii.eqb a "=" then Some (nm, val) else None
    | EmptyString => None
    end.

(** [_unset_re.match(line)]: [# ], the prefix, a name of one or more word
    characters, and [ is not set]; the name.  The match is anchored at the start of the line only. *)
Definition _unset_re_match (pfx line : string) : option string :=
  rest ← strip_prefix ("# " ++ pfx) line;
  let '(nm, rest') := span_word rest in
  if String.eqb nm "" then None
  else
    match strip_prefix " is not set" rest' with
    | Some _ => Some nm
    | None => None
    end.

Definition dquote : ascii := "034".
Definition backslash : ascii := "\".

Fixpoint last_char (s : string) : option ascii :=
  match s with
  | EmptyString => None
  | String a EmptyString => Some a
  | String _ r => last_char r
  end.

(** [s[:-1]] *)
Fixpoint drop_last (s : string) : string :=
  match s with
  | EmptyString => EmptyString
  | String a EmptyString => EmptyString
  | String a r => String a (drop_last r)
  end.

(** [val[1:-1].replace('\\"', '"').replace("\\\\", "\\")] *)
Definition unescape (val : string) : string :=
  let inner := match val with
               | String _ r => drop_last r
               | EmptyString => EmptyString
               end in
  Py.replace2 backslash backslash (String backslash "")
    (Py.replace2 backslash dquote (String dquote "") inner).

(** [val.replace("\\", "\\\\").replace('"', '\\"')] *)
Definition escape (val : string) : string :=
  Py.replace1 dquote (String backslash (String dquote ""))
    (Py.replace1 backslash (String backslash (String backslash "")) val).

(** The body of the loop of [load_config], for one line. *)
Definition load_line (filename : string) (st : Config * list warning)
  (numbered : nat * string) : Config * list warning :=
  let '(c, log) := st in
  let '(linenr, line) := numbered in
  let line := Py.rstrip line in
  let assign (nm val : string) (log : list warning) :=
    let log := (log ++
      match user_value (sym_of c nm) with
      | Some old => _warn c (W_set_more_than_once nm old val filename linenr)
      | None => []
      end)%list in
    let '(c', ws) := _set_value_no_invalidate c nm val true in
    (c', (log ++ ws)%list) in
  match _set_re_match (config_prefix c) line with
  | Some (nm, val) =>
      match syms c !! nm with
      | None =>
          (c, (log ++ _warn_undef_assign c
                        (W_undefined_assign_load nm val filename linenr))%list)
      | Some sym =>
          let quoted := sym_type_eqb (_type sym) STRING
                        && Py.startswith (String dquote "") val in
          if quoted
             && ((String.length val <? 2)%nat
                 || negb (bool_decide (last_char val = Some dquote)))
          then (c, (log ++ _warn c (W_malformed_string filename linenr))%list)
          else
            let val := if quoted then unescape val else val in
            let log := (log ++
              match choice sym with
              | Some ci =>
                  match ch_user_value <$> (_choices c !! ci) with
                  | Some (Some mode) =>
                      if negb (String.eqb mode val)
                      then _warn c (W_choice_mode nm val mode filename linenr)
                      else []
                  | _ => []
                  end
              | None => []
              end)%list in
            assign nm val log
      end
  | None =>
      match _unset_re_match (config_prefix c) line with
      | None => (c, log)
      | Some nm =>
          match syms c !! nm with
          | None =>
              (c, (log ++ _warn_undef_assign c
                            (W_undefined_assign_load nm "n" filename linenr))%list)
          | Some _ => assign nm "n" log
          end
      end
  end.

(** [enumerate(f, 1)] *)
Definition enumerate1 {A} (l : list A) : list (nat * A) :=
  zip (seq 1 (length l)) l.

(** [Config.load_config]; [None] is the IOError of [_open], raised before
    anything is changed. *)
Definition load_config (c : Config) (w : World) (filename : string)
  (replace : bool) : option (Config * list warning) :=
  '(_, text) ← _open c w filename;
  let c0 := if replace then unset_values c else c in
  Some (foldl (load_line filename) (c0, []) (enumerate1 (file_lines text))).

(** ** Writing a .config *)

Definition newline : string := String "010" "".

(** [Symbol.config_string]: [Some None] is Python's None, no line; the
    outer [None] is a value that is not returned. *)
Definition config_string (c : Config) (value : oracle) (s : Symbol)
  : option (option string) :=
  match env_var s with
  | Some _ => Some None
  | None =>
      '(val, w) ← Symbol_value c value s;
      if negb w : bool then Some None
      else
        match _type s with
        | BOOL | TRISTATE =>
            Some (Some (if negb (String.eqb val "n")
                        then config_prefix c ++ name s ++ "=" ++ val ++ newline
                        else "# " ++ config_prefix c ++ name s
                             ++ " is not set" ++ newline))
        | INT | HEX =>
            Some (Some (config_prefix c ++ name s ++ "=" ++ val ++ newline))
        | STRING =>
            Some (Some (config_prefix c ++ name s ++ "="
                        ++ String dquote (escape val)
                        ++ String dquote newline))
        | UNKNOWN => None
        end
  end.

(** The text written for a menu or a comment:
    ["\n#\n# {}\n#\n".format(node.prompt[0])]. *)
Definition menu_header (title : string) : string :=
  newline ++ "#" ++ newline ++ "# " ++ title ++ newline ++ "#" ++ newline.

(** One step of the walk of [_get_config_strings]: the node itself.  The
    state is the set of symbols with [_already_written] set, and the
    strings so far. *)
Definition visit_node (c : Config) (value : oracle) (node : MenuNode)
  (st : gset string * list string) : option (gset string * list string) :=
  let '(written, out) := st in
  match item node with
  | ItemSymbol nm =>
      if bool_decide (nm ∈ written) then Some st
      else
        cs ← config_string c value (sym_of c nm);
        Some ({[nm]} ∪ written,
              match cs with
              | Some line => (out ++ [line])%list
              | None => out
              end)
  | ItemChoice _ => Some st
  | MENU =>
      d ← eval_expr c value (dep node);
      shown ← match d with
              | N => Some false
              | _ => v ← eval_expr c value (visibility node);
                     Some (negb (Tri.eqb v N))
              end;
      if shown : bool
      then p ← prompt node; Some (written, (out ++ [menu_header (fst p)])%list)
      else Some st
  | COMMENT =>
      d ← eval_expr c value (dep node);
      match d with
      | N => Some st
      | _ => p ← prompt node;
             Some (written, (out ++ [menu_header (fst p)])%list)
      end
  end.

(** The walk: a node, then the nodes under it, then its siblings. *)
Fixpoint walk_tree (c : Config) (value : oracle) (t : menu_tree)
  (st : gset string * list string) : option (gset string * list string) :=
  match t with
  | Menu node children =>
      st1 ← visit_node c value node st;
      (fix walk_list (l : list menu_tree) (st : gset string * list string) :=
         match l with
         | [] => Some st
         | t' :: rest => st' ← walk_tree c value t' st; walk_list rest st'
         end) children st1
  end.

Fixpoint walk_forest (c : Config) (value : oracle) (l : list menu_tree)
  (st : gset string * list string) : option (gset string * list string) :=
  match l with
  | [] => Some st
  | t :: rest => st' ← walk_tree c value t st; walk_forest c value rest st'
  end.

(** [Config._get_config_strings] *)
Definition _get_config_strings (c : Config) (value : oracle)
  : option (list string) :=
  snd <$> walk_forest c value (top_menu_list c) (∅, []).

Definition concat_strings (l : list string) : string :=
  foldr String.append "" l.

Definition with_files (w : World) (m : gmap string string) : World :=
  {| environ := environ w; files := m |}.

(** [Config.write_config]: the header, then the strings. *)
Definition write_config (c : Config) (value : oracle) (w : World)
  (filename header : string) : option World :=
  strings ← _get_config_strings c value;
  Some (with_files w
          (<[filename := header ++ concat_strings strings]> (files w))).

(** ** Symbol references *)

(** [_sym_ref_re_search(s)]: the leftmost [$] that is followed by a word
    character, as the text before it, the name (the longest run of
    word characters) and the text after the name. *)
Fixpoint _sym_ref_re_search (s : string) : option (string * string * string) :=
  match s with
  | EmptyString => None
  | String a r =>
      let '(nm, rest) := span_word r in
      if Ascii.eqb a "$" && negb (String.eqb nm "")
      then Some ("", nm, rest)
      else
        match _sym_ref_re_search r with
        | Some (pre, nm', post) => Some (String a pre, nm', post)
        | None => None
        end
  end.

(** [Config._expand_sym_refs]: the loop runs until no reference is left;
    [fuel] bounds the number of its rounds. *)
Fixpoint _expand_sym_refs (fuel : nat) (c : Config) (value : oracle)
  (s : string) : option string :=
  match fuel with
  | O => None
  | S f =>
      match _sym_ref_re_search s with
      | None => Some s
      | Some (pre, nm, post) =>
          v ← match syms c !! nm with
              | Some _ => value nm
              | None => Some ""
              end;
          _expand_sym_refs f c value (pre ++ v ++ post)
      end
  end.

(** The expansion as the specification words it, in one pass over the
    input: the text after a reference is expanded, the value put in its
    place is not looked at again. *)
Fixpoint expand_one_pass (fuel : nat) (c : Config) (value : oracle)
  (s : string) : option string :=
  match fuel with
  | O => None
  | S f =>
      match _sym_ref_re_search s with
      | None => Some s
      | Some (pre, nm, post) =>
          v ← match syms c !! nm with
              | Some _ => value nm
              | None => Some ""
              end;
          rest ← expand_one_pass f c value post;
          Some (pre ++ v ++ rest)
      end
  end.

Fixpoint count_char (a : ascii) (s : string) : nat :=
  match s with
  | String b r => (if Ascii.eqb a b then 1 else 0) + count_char a r
  | EmptyString => 0
  end.

(** [Config.mainmenu_text] *)
Definition mainmenu_text (fuel : nat) (c : Config) (value : oracle)
  : option string :=
  _expand_sym_refs fuel c value (top_menu_prompt c).

(** The loop of [Config.defconfig_filename]. *)
Fixpoint defconfig_loop (fuel : nat) (c : Config) (value : oracle) (w : World)
  (ds : list (expr * option expr)) : option (option string) :=
  match ds with
  | [] => Some None
  | (filename, cond_expr) :: rest =>
      cv ← eval_expr c value cond_expr;
      match cv with
      | N => defconfig_loop fuel c value w rest
      | _ =>
          match filename with
          | EStr f =>
              f' ← _expand_sym_refs fuel c value f;
              match _open c w f' with
              | Some (path, _) => Some (Some path)
              | None => defconfig_loop fuel c value w rest
              end
          | _ => None
          end
      end
  end.

(** [Config.defconfig_filename] *)
Definition defconfig_filename (fuel : nat) (c : Config) (value : oracle)
  (w : World) : option (option string) :=
  match defconfig_list c with
  | None => Some None
  | Some nm => defconfig_loop fuel c value w (defaults (sym_of c nm))
  end.

(** ** Tokens *)

(** The token numbers [_T_ALLNOCONFIG_Y] ... [_T_VISIBLE]. *)
Inductive tok :=
| _T_ALLNOCONFIG_Y | _T_AND | _T_BOOL | _T_CHOICE | _T_CLOSE_PAREN
| _T_COMMENT | _T_CONFIG | _T_DEFAULT | _T_DEFCONFIG_LIST | _T_DEF_BOOL
| _T_DEF_TRISTATE | _T_DEPENDS | _T_ENDCHOICE | _T_ENDIF | _T_ENDMENU
| _T_ENV | _T_EQUAL | _T_GREATER | _T_GREATER_EQUAL | _T_HELP | _T_HEX
| _T_IF | _T_IMPLY | _T_INT | _T_LESS | _T_LESS_EQUAL | _T_MAINMENU
| _T_MENU | _T_MENUCONFIG | _T_MODULES | _T_NOT | _T_ON | _T_OPEN_PAREN
| _T_OPTION | _T_OPTIONAL | _T_OR | _T_PROMPT | _T_RANGE | _T_SELECT
| _T_SOURCE | _T_STRING | _T_TRISTATE | _T_UNEQUAL | _T_VISIBLE.

(** A token is a token number, a Symbol (kept by name) or a string. *)
Inductive token :=
| T (k : tok)
| TSym (nm : string)
| TStr (s : string).

(** [_get_keyword] *)
Definition _get_keyword (s : string) : option tok :=
  if String.eqb s "allnoconfig_y" then Some _T_ALLNOCONFIG_Y
  else if String.eqb s "bool" then Some _T_BOOL
  else if String.eqb s "boolean" then Some _T_BOOL
  else if String.eqb s "choice" then Some _T_CHOICE
  else if String.eqb s "comment" then Some _T_COMMENT
  else if String.eqb s "config" then Some _T_CONFIG
  else if String.eqb s "def_bool" then Some _T_DEF_BOOL
  else if String.eqb s "def_tristate" then Some _T_DEF_TRISTATE
  else if String.eqb s "default" then Some _T_DEFAULT
  else if String.eqb s "defconfig_list" then Some _T_DEFCONFIG_LIST
  else if String.eqb s "depends" then Some _T_DEPENDS
  else if String.eqb s "endchoice" then Some _T_ENDCHOICE
  else if String.eqb s "endif" then Some _T_ENDIF
  else if String.eqb s "endmenu" then Some _T_ENDMENU
  else if String.eqb s "env" then Some _T_ENV
  else if String.eqb s "help" then Some _T_HELP
  else if String.eqb s "hex" then Some _T_HEX
  else if String.eqb s "if" then Some _T_IF
  else if String.eqb s "imply" then Some _T_IMPLY
  else if String.eqb s "int" then Some _T_INT
  else if String.eqb s "mainmenu" then Some _T_MAINMENU
  else if String.eqb s "menu" then Some _T_MENU
  else if String.eqb s "menuconfig" then Some _T_MENUCONFIG
  else if String.eqb s "modules" then Some _T_MODULES
  else if String.eqb s "on" then Some _T_ON
  else if String.eqb s "option" then Some _T_OPTION
  else if String.eqb s "optional" then Some _T_OPTIONAL
  else if String.eqb s "prompt" then Some _T_PROMPT
  else if String.eqb s "range" then Some _T_RANGE
  else if String.eqb s "select" then Some _T_SELECT
  else if String.eqb s "source" then Some _T_SOURCE
  else if String.eqb s "string" then Some _T_STRING
  else if String.eqb s "tristate" then Some _T_TRISTATE
  else if String.eqb s "visible" then Some _T_VISIBLE
  else None.

(** [token in _STRING_LEX], for the previous token. *)
Definition in_STRING_LEX (t : option token) : bool :=
  match t with
  | Some (T (_T_BOOL | _T_CHOICE | _T_COMMENT | _T_HEX | _T_INT
            | _T_MAINMENU | _T_MENU | _T_PROMPT | _T_SOURCE | _T_STRING
            | _T_TRISTATE)) => true
  | _ => false
  end.

(** [_TOKEN_TO_REL] *)
Definition _TOKEN_TO_REL (t : token) : option relation :=
  match t with
  | T _T_EQUAL => Some _EQUAL
  | T _T_GREATER => Some _GREATER
  | T _T_GREATER_EQUAL => Some _GREATER_EQUAL
  | T _T_LESS => Some _LESS
  | T _T_LESS_EQUAL => Some _LESS_EQUAL
  | T _T_UNEQUAL => Some _UNEQUAL
  | _ => None
  end.

(** ** A monad for code that changes the configuration, warns and raises *)

Inductive error :=
| KconfigSyntaxError
| AttributeError
| RecursionError.

(** The state is the configuration and the warnings printed so far; an
    error keeps the state it was raised in. *)
Definition Run (A : Type) : Type :=
  Config * list warning -> (A + error) * (Config * list warning).

Definition ret {A} (a : A) : Run A := fun st => (inl a, st).
Definition raise {A} (e : error) : Run A := fun st => (inr e, st).
Definition bind {A B} (m : Run A) (k : A -> Run B) : Run B :=
  fun st =>
    match m st with
    | (inl a, st') => k a st'
    | (inr e, st') => (inr e, st')
    end.
Definition get_config : Run Config := fun st => (inl (fst st), st).
Definition put_config (c : Config) : Run unit := fun st => (inl tt, (c, snd st)).
Definition warn (w : warning) : Run unit :=
  fun st => (inl tt, (fst st, (snd st ++ _warn (fst st) w)%list)).

Notation "'let*' x ':=' m 'in' k" := (bind m (fun x => k))
  (at level 10, x name, m at level 200, k at level 200).
Notation "'do' m 'then' k" := (bind m (fun _ => k))
  (at level 10, m at level 200, k at level 200).

(** ** The tokenizer *)

(** [Config._lookup_sym]: the symbol of that name, made and, unless
    [for_eval], registered when there is none. *)
Definition _lookup_sym (nm : string) (for_eval : bool) : Run string :=
  let* c := get_config in
  match syms c !! nm with
  | Some _ => ret nm
  | None =>
      if for_eval
      then do warn (W_no_symbol nm) then ret nm
      else do put_config (with_syms c (<[nm := new_Symbol nm]> (syms c)))
           then ret nm
  end.

(** A character of an identifier: [[\w./-]]. *)
Definition is_id_char (a : ascii) : bool :=
  Py.is_word a || Ascii.eqb a "." || Ascii.eqb a "/" || Ascii.eqb a "-".

Fixpoint span_id (s : string) : string * string :=
  match s with
  | String a r =>
      if is_id_char a
      then let '(n, t) := span_id r in (String a n, t)
      else ("", s)
  | EmptyString => ("", "")
  end.

(** [_id_keyword_re_match(s, i)]: an identifier and the spaces after it;
    the name, and the text after the match. *)
Definition _id_keyword_re_match (s : string) : option (string * string) :=
  let '(nm, rest) := span_id s in
  if String.eqb nm "" then None else Some (nm, Py.lstrip rest).

Fixpoint contains (a : ascii) (s : string) : bool :=
  match s with
  | String b r => Ascii.eqb a b || contains a r
  | EmptyString => false
  end.

(** [s.find(c, i)] and the slices around it: the text before the first
    [c], and the text after it. *)
Fixpoint split_at_char (a : ascii) (s : string) : option (string * string) :=
  match s with
  | String b r =>
      if Ascii.eqb a b then Some ("", r)
      else '(pre, post) ← split_at_char a r; Some (String b pre, post)
  | EmptyString => None
  end.

(** The slow path of a string literal, for a text with a backslash in
    it: the value, and the text after the closing quote. *)
Fixpoint quoted_slow (quote : ascii) (val : string) (s : string)
  : option (string * string) :=
  match s with
  | EmptyString => None
  | String a r =>
      if Ascii.eqb a quote then Some (val, r)
      else if Ascii.eqb a backslash then
        match r with
        | String b r' => quoted_slow quote (val ++ String b "") r'
        | EmptyString => None
        end
      else quoted_slow quote (val ++ String a "") r
  end.

(** One round of the main loop of [_tokenize], on the text from [i] on:
    the token to append, if any, and the text left.  [prev] is the
    previous token, [has_backslash] is ["\\" in s]; [None] as the text
    left is the [break] at a comment. *)
Definition tokenize_step (for_eval has_backslash : bool) (prev : option token)
  (s : string) : Run (option token * option string) :=
  match _id_keyword_re_match s with
   | Some (nm, rest) =>
       match _get_keyword nm with
       | Some k => ret (Some (T k), Some rest)
       | None =>
           if negb (in_STRING_LEX prev) then
             if String.eqb nm "n" || String.eqb nm "m" || String.eqb nm "y"
             then ret (Some (TStr nm), Some rest)
             else let* sym := _lookup_sym nm for_eval in
                  ret (Some (TSym sym), Some rest)
           else ret (Some (TStr nm), Some rest)
       end
   | None =>
       match s with
       | EmptyString => ret (None, Some "")
       | String a r =>
           let tk (t : tok) (rest : string) : Run (option token * option string) :=
             ret (Some (T t), Some (Py.lstrip rest)) in
           let two (b : ascii) (t2 t1 : option tok)
             : Run (option token * option string) :=
             match r with
             | String b' r' =>
                 if Ascii.eqb b b' then
                   match t2 with
                   | Some t => tk t r'
                   | None => ret (None, Some r)
                   end
                 else match t1 with
                      | Some t => tk t r
                      | None => ret (None, Some r)
                      end
             | EmptyString =>
                 match t1 with
                 | Some t => tk t r
                 | None => ret (None, Some r)
                 end
             end in
           if Ascii.eqb a dquote || Ascii.eqb a "'" then
             match (if negb has_backslash then split_at_char a r
                    else quoted_slow a "" r) with
             | Some (val, rest) => ret (Some (TStr val), Some (Py.lstrip rest))
             | None => raise KconfigSyntaxError
             end
           else if Ascii.eqb a "&" then two "&"%char (Some _T_AND) None
           else if Ascii.eqb a "|" then two "|"%char (Some _T_OR) None
           else if Ascii.eqb a "!" then
             two "="%char (Some _T_UNEQUAL) (Some _T_NOT)
           else if Ascii.eqb a "=" then tk _T_EQUAL r
           else if Ascii.eqb a "(" then tk _T_OPEN_PAREN r
           else if Ascii.eqb a ")" then tk _T_CLOSE_PAREN r
           else if Ascii.eqb a "#" then ret (None, None)
           else if Ascii.eqb a "<" then
             two "="%char (Some _T_LESS_EQUAL) (Some _T_LESS)
           else if Ascii.eqb a ">" then
             two "="%char (Some _T_GREATER_EQUAL) (Some _T_GREATER)
           else ret (None, Some r)
       end
   end.

(** The main loop of [_tokenize]; every round takes at least one
    character, so a fuel of the length of the text is enough. *)
Fixpoint tokenize_loop (fuel : nat) (for_eval has_backslash : bool)
  (prev : option token) (tokens : list token) (s : string)
  : Run (list token) :=
  match s with
  | EmptyString => ret tokens
  | _ =>
      match fuel with
      | O => raise RecursionError
      | S f =>
          let* r := tokenize_step for_eval has_backslash prev s in
          (match r with
           | (Some t, Some rest) =>
               tokenize_loop f for_eval has_backslash (Some t)
                 (tokens ++ [t])%list rest
           | (None, Some rest) =>
               tokenize_loop f for_eval has_backslash prev tokens rest
           | (Some t, None) => ret (tokens ++ [t])%list
           | (None, None) => ret tokens
           end)
      end
  end.

(** [_initial_token_re_match(s)]: characters that are neither word
    characters nor [#] are passed over, a word follows, and the spaces
    after it; the word, and the text after the match. *)
Fixpoint _initial_token_re_match (s : string) : option (string * string) :=
  match s with
  | EmptyString => None
  | String a r =>
      if Py.is_word a then
        let '(w, rest) := span_word s in Some (w, Py.lstrip rest)
      else if Ascii.eqb a "#" then None
      else _initial_token_re_match r
  end.

(** [Config._tokenize]: [None] is Python's None, for a line without a first
    token. *)
Definition _tokenize (s : string) (for_eval : bool) : Run (option (list token)) :=
  let has_backslash := contains backslash s in
  (if for_eval then
     let* ts := tokenize_loop (String.length s) true has_backslash None [] s in
     ret (Some ts)
   else
     match _initial_token_re_match s with
     | None => ret None
     | Some (w, rest) =>
         match _get_keyword w with
         | Some _T_HELP => ret (Some [T _T_HELP])
         | None => raise KconfigSyntaxError
         | Some k =>
             let* ts := tokenize_loop (String.length s) false has_backslash
                          (Some (T k)) [T k] rest in
             ret (Some ts)
         end
     end).

(** ** The expression parser *)

Definition result (A : Type) : Type := (A + error)%type.

Definition rbind {A B} (r : result A) (k : A -> result B) : result B :=
  match r with
  | inl a => k a
  | inr e => inr e
  end.

(** [token == "m"] *)
Definition is_m (t : token) : bool :=
  match t with
  | TStr s => String.eqb s "m"
  | _ => false
  end.

(** A token as an operand: a Symbol or a string.  Anything else (a token
    number, or None at the end of the feed) is stored in the tuple by the
    source and fails with an AttributeError when [eval_expr] reaches it;
    [eval_string] evaluates what it parses, so the error is raised here. *)
Definition operand (t : option token) : result expr :=
  match t with
  | Some (TSym nm) => inl (ESym nm)
  | Some (TStr s) => inl (EStr s)
  | _ => inr AttributeError
  end.

(** [_parse_expr], [_parse_and_expr] and [_parse_factor], on the tokens
    that the feed has left: the expression, and the tokens left.  Every
    call takes one unit of fuel; three units for each token are enough. *)
Fixpoint _parse_expr (fuel : nat) (transform_m : bool) (feed : list token)
  : result (expr * list token) :=
  match fuel with
  | O => inr RecursionError
  | S f =>
      rbind (_parse_and_expr f transform_m feed) (fun '(and_expr, feed1) =>
      match feed1 with
      | T _T_OR :: rest =>
          rbind (_parse_expr f transform_m rest) (fun '(e, feed2) =>
          inl (EOr and_expr e, feed2))
      | _ => inl (and_expr, feed1)
      end)
  end
with _parse_and_expr (fuel : nat) (transform_m : bool) (feed : list token)
  : result (expr * list token) :=
  match fuel with
  | O => inr RecursionError
  | S f =>
      rbind (_parse_factor f transform_m feed) (fun '(factor, feed1) =>
      match feed1 with
      | T _T_AND :: rest =>
          rbind (_parse_and_expr f transform_m rest) (fun '(e, feed2) =>
          inl (EAnd factor e, feed2))
      | _ => inl (factor, feed1)
      end)
  end
with _parse_factor (fuel : nat) (transform_m : bool) (feed : list token)
  : result (expr * list token) :=
  match fuel with
  | O => inr RecursionError
  | S f =>
      match feed with
      | (TSym _ | TStr _) as token :: rest =>
          match rest with
          | next_token :: rest' =>
              match _TOKEN_TO_REL next_token with
              | Some rel =>
                  rbind (operand (Some token)) (fun e1 =>
                  rbind (operand (head rest')) (fun e2 =>
                  inl (ERel rel e1 e2, tail rest')))
              | None =>
                  if transform_m && is_m token
                  then inl (EAnd (EStr "m") (ESym "MODULES"), rest)
                  else rbind (operand (Some token)) (fun e => inl (e, rest))
              end
          | [] =>
              if transform_m && is_m token
              then inl (EAnd (EStr "m") (ESym "MODULES"), rest)
              else rbind (operand (Some token)) (fun e => inl (e, rest))
          end
      | T _T_NOT :: rest =>
          rbind (_parse_factor f transform_m rest) (fun '(e, feed1) =>
          inl (ENot e, feed1))
      | T _T_OPEN_PAREN :: rest =>
          rbind (_parse_expr f transform_m rest) (fun '(expr_parse, feed1) =>
          match feed1 with
          | T _T_CLOSE_PAREN :: feed2 => inl (expr_parse, feed2)
          | _ => inr KconfigSyntaxError
          end)
      | _ => inr KconfigSyntaxError
      end
  end.

Definition lift {A} (r : result A) : Run A := fun st => (r, st).

(** [Config.eval_string]; [fuel] bounds the recursion of [Symbol.value]. *)
Definition eval_string (fuel : nat) (s : string) : Run tri :=
  let* ts := _tokenize s true in
  match ts with
  | Some ts =>
      let* p := lift (_parse_expr (3 * length ts + 3) true ts) in
      let* c := get_config in
      match eval_expr c (value_of fuel c) (Some (fst p)) with
      | Some r => ret r
      | None => raise RecursionError
      end
  | None => raise KconfigSyntaxError
  end.

(** A computation that keeps the configuration and only adds warnings
    [W_no_symbol] for names that the symbol table does not hold. *)
Definition frames {A} (m : Run A) : Prop :=
  forall c log,
    fst (snd (m (c, log))) = c
    /\ exists ws, snd (snd (m (c, log))) = (log ++ ws)%list
         /\ Forall (fun w => exists nm, w = W_no_symbol nm
                               /\ syms c !! nm = None) ws.


(** ** Operations on a configuration, in a process *)

(** What [Config.__init__] takes from the environment, put into a
    configuration that is otherwise given: the prefix is [$CONFIG_], or
    "CONFIG_" when that is not set, and [srctree] is [$srctree]. *)
Definition init_from_env (w : World) (c : Config) : Config :=
  {| syms := syms c; defined_syms := defined_syms c; _choices := _choices c;
     top_menu_list := top_menu_list c; top_menu_prompt := top_menu_prompt c;
     defconfig_list := defconfig_list c;
     config_prefix := init_config_prefix w; srctree := init_srctree w;
     _print_warnings := _print_warnings c;
     _print_undef_assign := _print_undef_assign c |}.

Inductive operation :=
| OpValue (nm : string)
| OpSetValue (nm value : string)
| OpLoadConfig (filename : string) (replace : bool)
| OpWriteConfig (filename header : string)
| OpDefconfigFilename.

(** What an operation gives back: a value ([None] when the recursion does
    not end), nothing, or an IOError. *)
Inductive outcome :=
| Value (v : option string)
| Path (p : option (option string))
| Done
| NotDone
| IOError.

(** One operation, in the process [w]: what it gives back, what it
    prints, and the configuration and the process after it. *)
Definition run_op (fuel : nat) (op : operation) (c : Config) (w : World)
  : outcome * list warning * Config * World :=
  match op with
  | OpValue nm => (Value (value_of fuel c nm), [], c, w)
  | OpSetValue nm value =>
      let '(c', ws) := Symbol_set_value c nm value in (Done, ws, c', w)
  | OpLoadConfig filename replace =>
      match load_config c w filename replace with
      | Some (c', ws) => (Done, ws, c', w)
      | None => (IOError, [], c, w)
      end
  | OpWriteConfig filename header =>
      match write_config c (value_of fuel c) w filename header with
      | Some w' => (Done, [], c, w')
      | None => (NotDone, [], c, w)
      end
  | OpDefconfigFilename =>
      (Path (defconfig_filename fuel c (value_of fuel c) w), [], c, w)
  end.

(** A run: before each operation the environment of the process is
    replaced by another one. *)
Fixpoint run (fuel : nat) (steps : list (gmap string string * operation))
  (c : Config) (w : World)
  : list (outcome * list warning) * Config * World :=
  match steps with
  | [] => ([], c, w)
  | (env, op) :: rest =>
      let '(out, ws, c', w') :=
        run_op fuel op c {| environ := env; files := files w |} in
      let '(outs, c'', w'') := run fuel rest c' w' in
      ((out, ws) :: outs, c'', w'')
  end.

(** ** Writing a .config and reading it back *)

Fixpoint all_word (s : string) : bool :=
  match s with
  | String a r => Py.is_word a && all_word r
  | EmptyString => true
  end.

Definition no_newline (s : string) : bool := negb (contains "010" s).

(** The symbol that a line of a .config assigns to, if it matches one of
    the two patterns. *)
Definition line_target (pfx line : string) : option string :=
  match _set_re_match pfx (Py.rstrip line) with
  | Some (nm, _) => Some nm
  | None => _unset_re_match pfx (Py.rstrip line)
  end.

(** The nodes of a menu tree, in the order of the walk. *)
Fixpoint nodes_of (t : menu_tree) : list MenuNode :=
  match t with
  | Menu node children =>
      node :: (fix go (l : list menu_tree) : list MenuNode :=
                 match l with
                 | [] => []
                 | t' :: rest => (nodes_of t' ++ go rest)%list
                 end) children
  end.

Fixpoint nodes_of_forest (l : list menu_tree) : list MenuNode :=
  match l with
  | [] => []
  | t :: rest => (nodes_of t ++ nodes_of_forest rest)%list
  end.

Definition all_nodes (c : Config) : list MenuNode :=
  nodes_of_forest (top_menu_list c).

(** A value that [load_config] takes back as it is: for an int or hex
    symbol, a value that is valid for the type and does not end with
    white space. *)
Definition loadable (t : sym_type) (v : string) : Prop :=
  match t with
  | INT | HEX => valid_for_type t v = true /\ Py.rstrip v = v
  | _ => True
  end.

(** What the round trip asks of a configuration and a header: the prefix
    is made of word characters; the lines of the header end with a
    newline and match neither pattern; the symbols of the menu tree are in
    the symbol table under their names, which are made of word
    characters; the titles of menus and comments are on one line, and
    [# title] does not match the pattern of an unset symbol; the values
    that are written are on one line. *)
Record round_trip_ok (c : Config) (value : oracle) (header : string)
  : Prop := {
  rt_prefix : all_word (config_prefix c) = true;
  rt_header_end : header = "" \/ last_char header = Some "010"%char;
  rt_header_lines :
    Forall (fun l => line_target (config_prefix c) l = None)
      (file_lines header);
  rt_symbols :
    forall node nm, In node (all_nodes c) -> item node = ItemSymbol nm ->
      all_word nm = true /\ nm <> ""
      /\ exists s, syms c !! nm = Some s /\ name s = nm;
  rt_titles :
    forall node title cond, In node (all_nodes c) ->
      item node = MENU \/ item node = COMMENT ->
      prompt node = Some (title, cond) ->
      no_newline title = true
      /\ line_target (config_prefix c) ("# " ++ title ++ newline) = None;
  rt_values :
    forall node nm v, In node (all_nodes c) -> item node = ItemSymbol nm ->
      Symbol_value c value (sym_of c nm) = Some (v, true) ->
      no_newline v = true;
}.

Definition with_newline (b : string) : string := b ++ newline.

(** [escape] as one pass: a backslash before every backslash and every
    double quote. *)
Fixpoint esc (v : string) : string :=
  match v with
  | String a r =>
      if Ascii.eqb a backslash then String backslash (String backslash (esc r))
      else if Ascii.eqb a dquote then String backslash (String dquote (esc r))
      else String a (esc r)
  | EmptyString => EmptyString
  end.

(** [esc] with the backslash taken off the double quotes again. *)
Fixpoint esc_bs (v : string) : string :=
  match v with
  | String a r =>
      if Ascii.eqb a backslash
      then String backslash (String backslash (esc_bs r))
      else String a (esc_bs r)
  | EmptyString => EmptyString
  end.


(** The walk over a list of nodes. *)
Fixpoint visit_all (c : Config) (value : oracle) (nds : list MenuNode)
  (st : gset string * list string) : option (gset string * list string) :=
  match nds with
  | [] => Some st
  | node :: rest => st' ← visit_node c value node st; visit_all c value rest st'
  end.

(** The text of a line of a .config without its newline, for a symbol of
    the type [t] named [nm] with the value [v]. *)
Definition line_body (pfx nm : string) (t : sym_type) (v : string) : string :=
  match t with
  | BOOL | TRISTATE =>
      if negb (String.eqb v "n") then pfx ++ nm ++ "=" ++ v
      else "# " ++ pfx ++ nm ++ " is not set"
  | STRING => pfx ++ nm ++ "=" ++ String dquote (escape v ++ String dquote "")
  | _ => pfx ++ nm ++ "=" ++ v
  end.

(** A string of [_get_config_strings]: the line of a symbol of the menu
    tree, or the header of a menu or a comment. *)
Definition written_string (c : Config) (value : oracle) (nds : list MenuNode)
  (s : string) : Prop :=
  (exists node nm v, In node nds /\ item node = ItemSymbol nm
     /\ Symbol_value c value (sym_of c nm) = Some (v, true)
     /\ _type (sym_of c nm) <> UNKNOWN
     /\ s = with_newline
              (line_body (config_prefix c) (name (sym_of c nm))
                 (_type (sym_of c nm)) v))
  \/ (exists node title cond, In node nds
        /\ (item node = MENU \/ item node = COMMENT)
        /\ prompt node = Some (title, cond)
        /\ s = menu_header title).

(** The symbol tables of [c] and [c1] hold the same names with the same
    types, and the prefix is the same. *)
Definition same_types (c c1 : Config) : Prop :=
  config_prefix c1 = config_prefix c
  /\ forall n, _type <$> (syms c1 !! n) = _type <$> (syms c !! n).
(** ** Example configurations *)

Module Examples.

(** A symbol as the parser leaves it, defined at one location. *)
Definition defined (nm : string) (t : sym_type)
  (pr : option prompt_t) (ds : list (expr * option expr)) : Symbol :=
  {| name := nm; _type := t; defaults := ds; ranges := [];
     rev_dep := EStr "n"; weak_rev_dep := EStr "n"; direct_deps := EStr "y";
     nodes := [mkMenuNode (ItemSymbol nm) pr None None];
     user_value := None; choice := None; env_var := None |}.

Definition with_user_value (s : Symbol) (uv : option string) : Symbol :=
  {| name := name s; _type := _type s; defaults := defaults s;
     ranges := ranges s; rev_dep := rev_dep s;
     weak_rev_dep := weak_rev_dep s; direct_deps := direct_deps s;
     nodes := nodes s; user_value := uv; choice := choice s;
     env_var := env_var s |}.

(** The symbol, defined below [depends on e]: the condition is on its
    node (and, by the parser, in the condition of its prompt). *)
Definition depending_on (e : expr) (s : Symbol) : Symbol :=
  {| name := name s; _type := _type s; defaults := defaults s;
     ranges := ranges s; rev_dep := rev_dep s;
     weak_rev_dep := weak_rev_dep s; direct_deps := e;
     nodes := (fun n => mkMenuNode (item n) (prompt n) (Some e)
                          (visibility n)) <$> nodes s;
     user_value := user_value s; choice := choice s;
     env_var := env_var s |}.

Definition member_of (ci : nat) (s : Symbol) : Symbol :=
  {| name := name s; _type := _type s; defaults := defaults s;
     ranges := ranges s; rev_dep := rev_dep s;
     weak_rev_dep := weak_rev_dep s; direct_deps := direct_deps s;
     nodes := nodes s; user_value := user_value s; choice := Some ci;
     env_var := env_var s |}.

Definition selected_by (e : expr) (s : Symbol) : Symbol :=
  {| name := name s; _type := _type s; defaults := defaults s;
     ranges := ranges s; rev_dep := e;
     weak_rev_dep := weak_rev_dep s; direct_deps := direct_deps s;
     nodes := nodes s; user_value := user_value s; choice := choice s;
     env_var := env_var s |}.

Definition implied_by (e : expr) (s : Symbol) : Symbol :=
  {| name := name s; _type := _type s; defaults := defaults s;
     ranges := ranges s; rev_dep := rev_dep s;
     weak_rev_dep := e; direct_deps := direct_deps s;
     nodes := nodes s; user_value := user_value s; choice := choice s;
     env_var := env_var s |}.

Definition with_ranges (rs : list (expr * expr * option expr)) (s : Symbol)
  : Symbol :=
  {| name := name s; _type := _type s; defaults := defaults s;
     ranges := rs; rev_dep := rev_dep s;
     weak_rev_dep := weak_rev_dep s; direct_deps := direct_deps s;
     nodes := nodes s; user_value := user_value s; choice := choice s;
     env_var := env_var s |}.

Definition table (l : list Symbol) : gmap string Symbol :=
  list_to_map ((fun s => (name s, s)) <$> l).

(** The menu nodes of the named symbols, as leaves of the menu tree. *)
Definition leaves (t : gmap string Symbol) (names : list string)
  : list menu_tree :=
  concat ((fun nm => (fun n => Menu n [])
                       <$> nodes (default (new_Symbol nm) (t !! nm)))
            <$> names).

Definition outside_choice (t : gmap string Symbol) (nm : string) : bool :=
  match choice (default (new_Symbol nm) (t !! nm)) with
  | None => true
  | Some _ => false
  end.

(** A configuration with the given symbols and choices.  Its menu tree
    has the nodes of the defined symbols that are in no choice, in order,
    and then the node of each choice, with the nodes of its members below
    it. *)
Definition config (l : list Symbol) (defined_names : list string)
  (chs : list Choice) : Config :=
  let t := table l in
  {| syms := t; defined_syms := defined_names; _choices := chs;
     top_menu_list :=
       (leaves t (List.filter (outside_choice t) defined_names)
        ++ concat ((fun ch => (fun n => Menu n (leaves t (ch_syms ch)))
                                <$> ch_nodes ch) <$> chs))%list;
     top_menu_prompt := "Linux Kernel Configuration";
     defconfig_list := None; config_prefix := "CONFIG_"; srctree := None;
     _print_warnings := true; _print_undef_assign := false |}.

(** [config S / tristate "s"]: a visible tristate symbol; MODULES is not
    defined, so its value is its name and modules count as on. *)
Definition visible_tristate : Config :=
  config [new_Symbol "MODULES"; defined "S" TRISTATE (Some ("s", None)) []]
    ["S"] [].

(** [config S / bool / default y / select B], and a bool choice with the
    members A and B, both with a prompt. *)
Definition bool_choice (pr : string) (members : list string) : Choice :=
  {| ch_name := None; ch_type := BOOL; ch_syms := members;
     ch_defaults := [];
     ch_nodes := [mkMenuNode (ItemChoice 0) (Some (pr, None)) None None];
     ch_user_selection := None; ch_user_value := None;
     is_optional := false |}.

Definition selected_member : Config :=
  config [new_Symbol "MODULES";
          defined "S" BOOL None [(EStr "y", None)];
          member_of 0 (defined "A" BOOL (Some ("a", None)) []);
          selected_by (ESym "S")
            (member_of 0 (defined "B" BOOL (Some ("b", None)) []))]
    ["S"; "A"; "B"] [bool_choice "pick" ["A"; "B"]].

(** [config D / bool], and a bool choice that depends on D, with the
    members A and B: the prompts of the choice and of its members have the
    condition D. *)
Definition hidden_choice : Config :=
  config [new_Symbol "MODULES";
          defined "D" BOOL None [];
          depending_on (ESym "D")
            (member_of 0 (defined "A" BOOL (Some ("a", Some (ESym "D"))) []));
          depending_on (ESym "D")
            (member_of 0 (defined "B" BOOL (Some ("b", Some (ESym "D"))) []))]
    ["D"; "A"; "B"]
    [{| ch_name := None; ch_type := BOOL; ch_syms := ["A"; "B"];
        ch_defaults := [];
        ch_nodes := [mkMenuNode (ItemChoice 0) (Some ("pick", Some (ESym "D")))
                       (Some (ESym "D")) None];
        ch_user_selection := None; ch_user_value := None;
        is_optional := false |}].

(** [config MODULES / bool / default y], [config I / bool / default y /
    imply A], and a tristate choice with the members A and B, after
    [A.set_value("m")]. *)
Definition implied_member : Config :=
  config [defined "MODULES" BOOL None [(EStr "y", None)];
          defined "I" BOOL None [(EStr "y", None)];
          with_user_value
            (implied_by (ESym "I")
               (member_of 0 (defined "A" TRISTATE (Some ("a", None)) [])))
            (Some "m");
          member_of 0 (defined "B" TRISTATE (Some ("b", None)) [])]
    ["MODULES"; "I"; "A"; "B"]
    [{| ch_name := None; ch_type := TRISTATE; ch_syms := ["A"; "B"];
        ch_defaults := [];
        ch_nodes := [mkMenuNode (ItemChoice 0) (Some ("pick", None)) None None];
        ch_user_selection := None; ch_user_value := Some "m";
        is_optional := false |}].

(** [config N / int / range 10 20 / default 5]: the numbers are symbols
    that are never defined, whose value is their name.  With [pr] the
    symbol has a prompt, and with [uv] a user value. *)
Definition int_N (pr : option prompt_t) (uv : option string) : Config :=
  config [new_Symbol "MODULES"; new_Symbol "10"; new_Symbol "20";
          new_Symbol "5";
          with_user_value
            (with_ranges [(ESym "10", ESym "20", None)]
               (defined "N" INT pr [(ESym "5", None)]))
            uv]
    ["N"] [].

(** [config A / string / default "$B"] and [config B / string /
    default "x"], with the main menu text "$A". *)
Definition nested_refs : Config :=
  let c := config [new_Symbol "MODULES";
                   defined "A" STRING None [(EStr "$B", None)];
                   defined "B" STRING None [(EStr "x", None)]]
             ["A"; "B"] [] in
  {| syms := syms c; defined_syms := defined_syms c; _choices := _choices c;
     top_menu_list := top_menu_list c; top_menu_prompt := "$A";
     defconfig_list := None; config_prefix := "CONFIG_"; srctree := None;
     _print_warnings := true; _print_undef_assign := false |}.

(** [config A / string / default "$A"]: the value of A refers to A. *)
Definition self_ref : Config :=
  config [new_Symbol "MODULES"; defined "A" STRING None [(EStr "$A", None)]]
    ["A"] [].

(** [config S / string "s"]: a string symbol with a prompt. *)
Definition string_S : Config :=
  config [new_Symbol "MODULES"; defined "S" STRING (Some ("s", None)) []]
    ["S"] [].

(** The line [CONFIG_S=foo] with a double quote at its end, and the
    line [CONFIG_S=abc] with a double quote before [abc]. *)
Definition line_no_opening_quote : string :=
  "CONFIG_S=foo" ++ String dquote "".

Definition line_no_closing_quote : string :=
  "CONFIG_S=" ++ String dquote "abc".

Definition world_with (filename text : string) : World :=
  {| environ := ∅; files := {[filename := text]} |}.

(** [config FOO / bool "foo" / default y], with no user value. *)
Definition bool_default_y : Config :=
  config [new_Symbol "MODULES";
          defined "FOO" BOOL (Some ("foo", None)) [(EStr "y", None)]]
    ["FOO"] [].

End Examples.


(** ** Building and inspecting expressions *)

(** [e == "y"], for an expression [e]: only the string "y" is equal to
    it. *)
Definition is_str (s : string) (e : expr) : bool :=
  match e with
  | EStr s' => String.eqb s' s
  | _ => false
  end.

(** [_make_and]: [None] and "y" are left out. *)
Definition _make_and (e1 e2 : option expr) : option expr :=
  match e1 with
  | None => e2
  | Some x1 =>
      if is_str "y" x1 then e2
      else
        match e2 with
        | None => e1
        | Some x2 => if is_str "y" x2 then e1 else Some (EAnd x1 x2)
        end
  end.

(** [_make_or]: [None] stands for "y", and an "n" on the left is left
    out. *)
Definition _make_or (e1 e2 : option expr) : expr :=
  match e1, e2 with
  | Some x1, Some x2 =>
      if is_str "y" x1 || is_str "y" x2 then EStr "y"
      else if is_str "n" x1 then x2
      else EOr x1 x2
  | _, _ => EStr "y"
  end.

(** [_expr_syms_rec] and [_expr_syms]: the symbols of an expression are
    appended to [res], by name; an operand of a relation is looked at,
    not searched. *)
Fixpoint _expr_syms_rec (e : expr) (res : list string) : list string :=
  match e with
  | ESym nm => (res ++ [nm])%list
  | EStr _ => res
  | EAnd e1 e2 | EOr e1 e2 => _expr_syms_rec e2 (_expr_syms_rec e1 res)
  | ENot e1 => _expr_syms_rec e1 res
  | ERel _ e1 e2 =>
      let res1 := match e1 with ESym nm => (res ++ [nm])%list | _ => res end in
      match e2 with ESym nm => (res1 ++ [nm])%list | _ => res1 end
  end.

Definition _expr_syms (e : option expr) (res : list string) : list string :=
  match e with
  | Some e => _expr_syms_rec e res
  | None => res
  end.

(** [_eq_to_sym]: the symbol of [sym = m], [sym = y] or [sym != n],
    written either way round. *)
Definition _eq_to_sym (rel : relation) (op1 op2 : expr) : option string :=
  let '(lhs, rhs) :=
    match op1 with
    | ESym _ => (op1, op2)
    | _ => (op2, op1)
    end in
  match lhs with
  | ESym nm =>
      match rel with
      | _EQUAL => if is_str "m" rhs || is_str "y" rhs then Some nm else None
      | _UNEQUAL => if is_str "n" rhs then Some nm else None
      | _ => None
      end
  | _ => None
  end.

(** [_expr_depends_on], for the Symbol named [sym]. *)
Fixpoint _expr_depends_on_rec (e : expr) (sym : string) : bool :=
  match e with
  | EStr _ => false
  | ESym nm => String.eqb nm sym
  | ERel rel e1 e2 =>
      match rel with
      | _EQUAL | _UNEQUAL =>
          match _eq_to_sym rel e1 e2 with
          | Some nm => String.eqb nm sym
          | None => false
          end
      | _ => false
      end
  | EAnd e1 e2 => _expr_depends_on_rec e1 sym || _expr_depends_on_rec e2 sym
  | _ => false
  end.

Definition _expr_depends_on (e : option expr) (sym : string) : bool :=
  match e with
  | None => false
  | Some e => _expr_depends_on_rec e sym
  end.

(** The number that [_eval_expr_rec] applies a relation to, for operands
    of the types [t1], [t2] with the values [s1], [s2]: the result of
    [_strcmp] for two strings, else the difference of the two numbers,
    when both values are numbers. *)
Definition comparison_of (t1 : sym_type) (s1 : string) (t2 : sym_type)
  (s2 : string) : option Z :=
  if sym_type_eqb t1 STRING && sym_type_eqb t2 STRING
  then Some (_strcmp s1 s2)
  else match Py.int s1 (_TYPE_TO_BASE t1), Py.int s2 (_TYPE_TO_BASE t2) with
       | Some n1, Some n2 => Some (n1 - n2)%Z
       | _, _ => None
       end.

(** ** The digits of a number *)

(** The number that the decimal digits [d] stand for, after the digits
    that gave [acc]. *)
Fixpoint uint_val (d : Decimal.uint) (acc : Z) : Z :=
  match d with
  | Decimal.Nil => acc
  | Decimal.D0 d => uint_val d (acc * 10 + 0)
  | Decimal.D1 d => uint_val d (acc * 10 + 1)
  | Decimal.D2 d => uint_val d (acc * 10 + 2)
  | Decimal.D3 d => uint_val d (acc * 10 + 3)
  | Decimal.D4 d => uint_val d (acc * 10 + 4)
  | Decimal.D5 d => uint_val d (acc * 10 + 5)
  | Decimal.D6 d => uint_val d (acc * 10 + 6)
  | Decimal.D7 d => uint_val d (acc * 10 + 7)
  | Decimal.D8 d => uint_val d (acc * 10 + 8)
  | Decimal.D9 d => uint_val d (acc * 10 + 9)
  end%Z.

(** The same for hexadecimal digits. *)
Fixpoint hex_val (d : Hexadecimal.uint) (acc : Z) : Z :=
  match d with
  | Hexadecimal.Nil => acc
  | Hexadecimal.D0 d => hex_val d (acc * 16 + 0)
  | Hexadecimal.D1 d => hex_val d (acc * 16 + 1)
  | Hexadecimal.D2 d => hex_val d (acc * 16 + 2)
  | Hexadecimal.D3 d => hex_val d (acc * 16 + 3)
  | Hexadecimal.D4 d => hex_val d (acc * 16 + 4)
  | Hexadecimal.D5 d => hex_val d (acc * 16 + 5)
  | Hexadecimal.D6 d => hex_val d (acc * 16 + 6)
  | Hexadecimal.D7 d => hex_val d (acc * 16 + 7)
  | Hexadecimal.D8 d => hex_val d (acc * 16 + 8)
  | Hexadecimal.D9 d => hex_val d (acc * 16 + 9)
  | Hexadecimal.Da d => hex_val d (acc * 16 + 10)
  | Hexadecimal.Db d => hex_val d (acc * 16 + 11)
  | Hexadecimal.Dc d => hex_val d (acc * 16 + 12)
  | Hexadecimal.Dd d => hex_val d (acc * 16 + 13)
  | Hexadecimal.De d => hex_val d (acc * 16 + 14)
  | Hexadecimal.Df d => hex_val d (acc * 16 + 15)
  end%Z.

(** ** Configurations that differ in user values only *)

(** Two Symbol objects with the same declaration: all fields but the
    user value agree. *)
Definition same_decl (s s' : Symbol) : Prop :=
  set_user_value None s = set_user_value None s'.

(** Two configurations with the same declarations of symbols and the
    same choices. *)
Definition static_eq (c c' : Config) : Prop :=
  (forall nm, same_decl (sym_of c nm) (sym_of c' nm))
  /\ _choices c' = _choices c.

(** Every user value in the symbol table is valid for the type of its
    symbol. *)
Definition user_values_valid (c : Config) : Prop :=
  forall nm s v, syms c !! nm = Some s -> user_value s = Some v ->
    valid_for_type (_type s) v = true.

(** ** Calls of the parser *)

(** A call of the parser on the tokens [feed] that ends well: it does not
    run out of fuel, and an expression that it returns took at least one
    token. *)
Definition parse_ok (feed : list token) (r : result (expr * list token))
  : Prop :=
  r <> inr RecursionError
  /\ forall e rest, r = inl (e, rest) -> (length rest < length feed)%nat.

(** ** Dependency tracking *)

(** The sets [Symbol._direct_dependents], by the name of the symbol; a
    name without an entry has the empty set. *)
Abbreviation dependents := (gmap string (gset string)).

Definition dependents_of (deps : dependents) (nm : string) : gset string :=
  default ∅ (deps !! nm).

(** [expr_sym._direct_dependents.add(sym)] *)
Definition add_dep (sym : string) (deps : dependents) (expr_sym : string)
  : dependents :=
  <[expr_sym := {[sym]} ∪ dependents_of deps expr_sym]> deps.

(** [add_expr_deps(expr, sym)] in [_build_dep] *)
Definition add_expr_deps (sym : string) (deps : dependents)
  (e : option expr) : dependents :=
  foldl (add_dep sym) deps (_expr_syms e []).

Definition prompt_exprs (nds : list MenuNode) : list (option expr) :=
  omap (fun node => snd <$> prompt node) nds.

(** The expressions that the body of the loop of [_build_dep] passes to
    [add_expr_deps] for one symbol, in that order. *)
Definition dep_exprs (c : Config) (s : Symbol) : list (option expr) :=
  (prompt_exprs (nodes s)
   ++ concat ((fun d => [Some (fst d); snd d]) <$> defaults s)
   ++ [Some (rev_dep s); Some (weak_rev_dep s)]
   ++ concat ((fun r => [Some (fst (fst r)); Some (snd (fst r)); snd r])
                <$> ranges s)
   ++ [Some (direct_deps s)]
   ++ match choice s with
      | Some ci =>
          match _choices c !! ci with
          | Some ch =>
              prompt_exprs (ch_nodes ch) ++ (snd <$> ch_defaults ch)
          | None => []
          end
      | None => []
      end)%list.

(** [Config._build_dep] *)
Definition _build_dep (c : Config) : dependents :=
  foldl (fun deps nm =>
           foldl (add_expr_deps nm) deps (dep_exprs c (sym_of c nm)))
    ∅ (defined_syms c).

(** Two assignments of values agree on the symbols of the expressions
    [es]. *)
Definition agree (o1 o2 : oracle) (es : list (option expr)) : Prop :=
  forall e k, e ∈ es -> k ∈ _expr_syms e [] -> o1 k = o2 k.

(** ** Finalizing choices *)

Definition set_choice (ci : nat) (s : Symbol) : Symbol :=
  {| name := name s; _type := _type s; defaults := defaults s;
     ranges := ranges s; rev_dep := rev_dep s;
     weak_rev_dep := weak_rev_dep s; direct_deps := direct_deps s;
     nodes := nodes s; user_value := user_value s; choice := Some ci;
     env_var := env_var s |}.

(** [if item._type == UNKNOWN: item._type = t] *)
Definition fill_type (t : sym_type) (s : Symbol) : Symbol :=
  if sym_type_eqb (_type s) UNKNOWN then
    {| name := name s; _type := t; defaults := defaults s;
       ranges := ranges s; rev_dep := rev_dep s;
       weak_rev_dep := weak_rev_dep s; direct_deps := direct_deps s;
       nodes := nodes s; user_value := user_value s; choice := choice s;
       env_var := env_var s |}
  else s.

Definition set_choice_syms (l : list string) (t : sym_type) (ch : Choice)
  : Choice :=
  {| ch_name := ch_name ch; ch_type := t; ch_syms := l;
     ch_defaults := ch_defaults ch; ch_nodes := ch_nodes ch;
     ch_user_selection := ch_user_selection ch;
     ch_user_value := ch_user_value ch; is_optional := is_optional ch |}.

(** The symbols of the nodes of a list of menu nodes, in order. *)
Definition node_symbols (l : list menu_tree) : list string :=
  omap (fun t => match t with
                 | Menu node _ =>
                     match item node with
                     | ItemSymbol nm => Some nm
                     | _ => None
                     end
                 end) l.

(** The type of the first symbol with a type, or [UNKNOWN]. *)
Fixpoint first_type (m : gmap string Symbol) (l : list string) : sym_type :=
  match l with
  | [] => UNKNOWN
  | nm :: rest =>
      let t := _type (default (new_Symbol nm) (m !! nm)) in
      if sym_type_eqb t UNKNOWN then first_type m rest else t
  end.

(** [_finalize_choice(node)], under the test of its caller that the item
    of the node is a Choice. *)
Definition _finalize_choice (c : Config) (t : menu_tree) : Config :=
  match t with
  | Menu node l =>
      match item node with
      | ItemChoice ci =>
          match _choices c !! ci with
          | Some ch =>
              let members := node_symbols l in
              let syms1 := foldl (fun m nm => alter (set_choice ci) nm m)
                             (syms c) members in
              let ch_syms1 := (ch_syms ch ++ members)%list in
              let ty := if sym_type_eqb (ch_type ch) UNKNOWN
                        then first_type syms1 ch_syms1
                        else ch_type ch in
              let syms2 := foldl (fun m nm => alter (fill_type ty) nm m)
                             syms1 ch_syms1 in
              with_choices (with_syms c syms2)
                (alter (set_choice_syms ch_syms1 ty) ci (_choices c))
          | None => c
          end
      | _ => c
      end
  end.

(** ** Reading lines *)

(** [s.endswith(suffix)] *)
Fixpoint endswith (suffix s : string) : bool :=
  String.eqb s suffix
  || match s with
     | String _ r => endswith suffix r
     | EmptyString => false
     end.

(** The two characters of a line continuation: a backslash and a
    newline. *)
Definition continuation : string := String backslash newline.

(** [_FileFeed]: the lines of the file, each with its newline, and the
    number of lines read. *)
Record _FileFeed := mk_FileFeed {
  ff_filename : string;
  ff_lines : list string;
  ff_linenr : nat;
}.

Definition set_linenr (f : _FileFeed) (n : nat) : _FileFeed :=
  {| ff_filename := ff_filename f; ff_lines := ff_lines f; ff_linenr := n |}.

(** What a call returns: a line or [None] and the feed, unless
    [self.lines[self.linenr]] raises IndexError. *)
Inductive fed :=
| Returns (line : option string) (f : _FileFeed)
| Raises_IndexError.

(** The loop of [_FileFeed.next]: [rest] is the lines from [linenr]
    on. *)
Fixpoint join_lines (line : string) (rest : list string) (linenr : nat)
  : option (string * nat) :=
  match rest with
  | [] => if endswith continuation line then None else Some (line, linenr)
  | l :: rest' =>
      if endswith continuation line
      then join_lines
             (String.substring 0 (String.length line - 2) line ++ l)
             rest' (S linenr)
      else Some (line, linenr)
  end.

(** [_FileFeed.next] *)
Definition _FileFeed_next (f : _FileFeed) : fed :=
  match drop (ff_linenr f) (ff_lines f) with
  | [] => Returns None f
  | line :: rest =>
      match join_lines line rest (S (ff_linenr f)) with
      | Some (line', n) => Returns (Some line') (set_linenr f n)
      | None => Raises_IndexError
      end
  end.

(** [_FileFeed.next_no_join] *)
Definition _FileFeed_next_no_join (f : _FileFeed) : fed :=
  match drop (ff_linenr f) (ff_lines f) with
  | [] => Returns None f
  | line :: _ => Returns (Some line) (set_linenr f (S (ff_linenr f)))
  end.

(** ** Indentation *)

Definition spaces (n : nat) : string := string_of_list_ascii (repeat " "%char n).

(** [str.expandtabs()], from the column [col]: tab stops are eight
    columns apart, and a newline or carriage return starts at column 0
    again. *)
Fixpoint expandtabs_from (col : nat) (s : string) : string :=
  match s with
  | EmptyString => EmptyString
  | String a r =>
      if Ascii.eqb a "009" then
        let incr := 8 - col mod 8 in
        spaces incr ++ expandtabs_from (col + incr) r
      else if Ascii.eqb a "010" || Ascii.eqb a "013"
      then String a (expandtabs_from 0 r)
      else String a (expandtabs_from (S col) r)
  end.

Definition expandtabs (s : string) : string := expandtabs_from 0 s.

(** [s[n:]] *)
Fixpoint string_from (n : nat) (s : string) : string :=
  match n, s with
  | S n', String _ r => string_from n' r
  | _, _ => s
  end.

(** [_indentation] *)
Definition _indentation (line : string) : nat :=
  let line := expandtabs line in
  String.length line - String.length (Py.lstrip line).

(** [_deindent] *)
Definition _deindent (line : string) (indent : nat) : string :=
  let line := expandtabs line in
  if (String.length line <=? indent)%nat then line
  else string_from indent line.

(** ** Finalizing the menu tree *)

(** A menu node while the tree is built: the item is [None] for the node
    of an [if], and [raw_list] is the chain of [next] from [node.list]. *)
Inductive raw_tree :=
| Raw (raw_item : option node_item) (raw_prompt : option prompt_t)
    (raw_list : list raw_tree).

Definition has_item (t : raw_tree) : bool :=
  match t with
  | Raw (Some _) _ _ => true
  | Raw None _ _ => false
  end.

(** The number of nodes of a tree, and of a list of trees. *)
Fixpoint raw_size (t : raw_tree) : nat :=
  match t with
  | Raw _ _ l => S (sum_list_with raw_size l)
  end.

Definition raw_sizes (l : list raw_tree) : nat := sum_list_with raw_size l.

(** The nodes of a tree in the order in which a walk of the tree meets
    them: a node, the nodes below it, and then the next node. *)
Fixpoint raw_nodes (t : raw_tree)
  : list (option node_item * option prompt_t) :=
  match t with
  | Raw i p l => (i, p) :: concat (List.map raw_nodes l)
  end.

Definition raw_walk (l : list raw_tree)
  : list (option node_item * option prompt_t) :=
  concat (List.map raw_nodes l).

(** [_flatten(node)], on the chain that starts at [node], with a bound
    on the rounds of its loop.  The prompt of a node is a tuple or
    [None], never the empty string. *)
Fixpoint _flatten (fuel : nat) (l : list raw_tree)
  : option (list raw_tree) :=
  match fuel with
  | O => None
  | S fuel =>
      match l with
      | [] => Some []
      | Raw i None (c :: ch) :: rest =>
          cons (Raw i None []) <$> _flatten fuel ((c :: ch) ++ rest)
      | node :: rest => cons node <$> _flatten fuel rest
      end
  end.

(** The first loop of [_remove_if]: the [if] nodes at the head of the
    chain are passed. *)
Fixpoint skip_if (l : list raw_tree) : list raw_tree :=
  match l with
  | Raw None _ _ :: rest => skip_if rest
  | _ => l
  end.

(** The second loop of [_remove_if], from [cur]: an [if] node that
    follows [cur] is unlinked, and the node that then follows [cur] is
    the next [cur]. *)
Fixpoint remove_next_if (l : list raw_tree) : list raw_tree :=
  match l with
  | [] => []
  | cur :: rest =>
      cur :: match rest with
             | Raw None _ _ :: rest' => remove_next_if rest'
             | _ => remove_next_if rest
             end
  end.

(** [_remove_if(node)]: the new [node.list], from the old one. *)
Definition _remove_if (l : list raw_tree) : list raw_tree :=
  remove_next_if (skip_if l).

(** Does an [if] node follow another one? *)
Fixpoint adjacent_ifs (l : list raw_tree) : bool :=
  match l with
  | [] => false
  | t :: rest =>
      (negb (has_item t)
       && match rest with
          | t' :: _ => negb (has_item t')
          | [] => false
          end)
      || adjacent_ifs rest
  end.

(** Has the node a prompt or no nodes below it?  The other nodes are those
    that [_flatten] moves the children of. *)
Definition is_flat (t : raw_tree) : bool :=
  match t with
  | Raw _ None (_ :: _) => false
  | _ => true
  end.

(** * Properties *)

Global Arguments String.append : simpl nomatch.
Global Arguments Ascii.eqb : simpl never.
Global Arguments String.eqb : simpl never.

(** ** The tristate order *)

Module TriFacts.

Lemma le_refl a : Tri.le a a.
Proof. unfold Tri.le. lia. Qed.

Lemma min_glb a b :
  Tri.le (Tri.min a b) a /\ Tri.le (Tri.min a b) b
  /\ (Tri.min a b = a \/ Tri.min a b = b).
Proof. destruct a, b; unfold Tri.le; simpl; intuition lia. Qed.

Lemma max_lub a b :
  Tri.le a (Tri.max a b) /\ Tri.le b (Tri.max a b)
  /\ (Tri.max a b = a \/ Tri.max a b = b).
Proof. destruct a, b; unfold Tri.le; simpl; intuition lia. Qed.

Lemma of_to_str v : Tri.of_str (Tri.to_str v) = Some v.
Proof. by destruct v. Qed.

Lemma of_str_inv s v : Tri.of_str s = Some v -> s = Tri.to_str v.
Proof.
  unfold Tri.of_str. intros H.
  destruct (String.eqb_spec s "n"); [by simplify_eq|].
  destruct (String.eqb_spec s "m"); [by simplify_eq|].
  destruct (String.eqb_spec s "y"); [by simplify_eq|].
  discriminate.
Qed.

Lemma eqb_eq a b : Tri.eqb a b = true <-> a = b.
Proof. destruct a, b; simpl; intuition congruence. Qed.

End TriFacts.

(** ** The evaluator *)

Arguments eval_expr : simpl never.
Arguments _eval_min : simpl never.
Arguments _eval_max : simpl never.

Section EvalFacts.

Variable c : Config.
Variable value : oracle.

Lemma eval_tri_expr v : eval_expr c value (tri_expr v) = Some v.
Proof. by destruct v. Qed.

Lemma eval_EStr s : exists a, eval_expr c value (Some (EStr s)) = Some a.
Proof. unfold eval_expr. simpl. eauto. Qed.

Lemma _eval_min_spec e1 e2 a b :
  eval_expr c value e1 = Some a -> eval_expr c value e2 = Some b ->
  _eval_min c value e1 e2 = Some (Tri.min a b).
Proof. unfold _eval_min. intros -> ->. by destruct a, b. Qed.

Lemma _eval_max_spec e1 e2 a b :
  eval_expr c value e1 = Some a -> eval_expr c value e2 = Some b ->
  _eval_max c value e1 e2 = Some (Tri.max a b).
Proof. unfold _eval_max. intros -> ->. by destruct a, b. Qed.

Lemma _eval_min_inv e1 e2 r :
  _eval_min c value e1 e2 = Some r ->
  exists a b, eval_expr c value e1 = Some a /\ eval_expr c value e2 = Some b
              /\ r = Tri.min a b.
Proof.
  unfold _eval_min. intros H.
  destruct (eval_expr c value e1) as [a|]; [|done].
  destruct (eval_expr c value e2) as [b|]; [|done].
  exists a, b. simpl in H. destruct a, b; by simplify_eq.
Qed.

Lemma _eval_max_inv e1 e2 r :
  _eval_max c value e1 e2 = Some r ->
  exists a b, eval_expr c value e1 = Some a /\ eval_expr c value e2 = Some b
              /\ r = Tri.max a b.
Proof.
  unfold _eval_max. intros H.
  destruct (eval_expr c value e1) as [a|]; [|done].
  destruct (eval_expr c value e2) as [b|]; [|done].
  exists a, b. simpl in H. destruct a, b; by simplify_eq.
Qed.

(** The minimum and maximum against a tristate passed as its string. *)
Lemma _eval_min_tri e a v :
  eval_expr c value e = Some a ->
  _eval_min c value e (tri_expr v) = Some (Tri.min a v).
Proof. intros H. apply _eval_min_spec; [done | apply eval_tri_expr]. Qed.

Lemma _eval_max_tri v w :
  _eval_max c value (tri_expr v) (tri_expr w) = Some (Tri.max v w).
Proof. apply _eval_max_spec; apply eval_tri_expr. Qed.

(** The short circuits of [&&] and [||]: the right operand is not
    evaluated, so it need not have a value. *)
Lemma eval_and_short e1 e2 :
  eval_expr c value (Some e1) = Some N ->
  eval_expr c value (Some (EAnd e1 e2)) = Some N.
Proof. unfold eval_expr. simpl. by intros ->. Qed.

Lemma eval_or_short e1 e2 :
  eval_expr c value (Some e1) = Some Y ->
  eval_expr c value (Some (EOr e1 e2)) = Some Y.
Proof. unfold eval_expr. simpl. by intros ->. Qed.

End EvalFacts.

(** C5: [eval_expr] is the tristate algebra over n < m < y.  A missing
    expression is "y"; [&&] is the minimum and [||] the maximum of the
    values of the operands; [!] swaps "y" and "n" and keeps "m"; a symbol
    that is neither bool nor tristate is "n"; a constant string is itself
    when it is "m" or "y" and "n" otherwise. *)
Theorem eval_expr_tristate_algebra (c : Config) (value : oracle) :
  eval_expr c value None = Some Y
  /\ (forall e1 e2 a b,
        eval_expr c value (Some e1) = Some a ->
        eval_expr c value (Some e2) = Some b ->
        eval_expr c value (Some (EAnd e1 e2)) = Some (Tri.min a b)
        /\ Tri.le (Tri.min a b) a /\ Tri.le (Tri.min a b) b
        /\ (Tri.min a b = a \/ Tri.min a b = b))
  /\ (forall e1 e2 a b,
        eval_expr c value (Some e1) = Some a ->
        eval_expr c value (Some e2) = Some b ->
        eval_expr c value (Some (EOr e1 e2)) = Some (Tri.max a b)
        /\ Tri.le a (Tri.max a b) /\ Tri.le b (Tri.max a b)
        /\ (Tri.max a b = a \/ Tri.max a b = b))
  /\ (forall e a,
        eval_expr c value (Some e) = Some a ->
        eval_expr c value (Some (ENot e))
        = Some (match a with Y => N | N => Y | M => M end))
  /\ (forall nm,
        _type (sym_of c nm) <> BOOL -> _type (sym_of c nm) <> TRISTATE ->
        eval_expr c value (Some (ESym nm)) = Some N)
  /\ (forall s,
        eval_expr c value (Some (EStr s))
        = Some (if decide (s = "m") then M
                else if decide (s = "y") then Y else N))
  /\ (forall v, eval_expr c value (Some (EStr (Tri.to_str v))) = Some v).
Proof.
  unfold eval_expr.
  split; [done|]. split; [|split; [|split; [|split; [|split]]]].
  - intros e1 e2 a b H1 H2. split; [|apply TriFacts.min_glb].
    simpl in *. rewrite H1. destruct a; simpl; [done| |]; rewrite H2;
      by destruct b.
  - intros e1 e2 a b H1 H2. split; [|apply TriFacts.max_lub].
    simpl in *. rewrite H1. destruct a; simpl; [| |done]; rewrite H2;
      by destruct b.
  - intros e a H. simpl in *. by rewrite H.
  - intros nm Hb Ht. simpl. by destruct (_type (sym_of c nm)).
  - intros s. simpl.
    destruct (String.eqb_spec s "m"); [by rewrite decide_True|].
    rewrite decide_False by done.
    destruct (String.eqb_spec s "y"); [by rewrite decide_True|].
    by rewrite decide_False.
  - intros v. apply (eval_tri_expr c value v).
Qed.

Lemma eval_expr_tristate_algebra_witness :
  eval_expr (mkConfig ∅ [] [] [] "" None "CONFIG_" None true false)
    (fun _ => None) (Some (EAnd (EStr "y") (ENot (EStr "m")))) = Some M.
Proof.
  pose proof (eval_expr_tristate_algebra
    (mkConfig ∅ [] [] [] "" None "CONFIG_" None true false)
    (fun _ => None)) as (_ & Hand & _ & Hnot & _ & Hstr & _).
  apply (Hand (EStr "y") (ENot (EStr "m")) Y M).
  - apply Hstr.
  - apply (Hnot (EStr "m") M). apply Hstr.
Defined.

(** ** Visibility, mode and effective type *)

Section EngineFacts.

Variable c : Config.
Variable value : oracle.

Lemma promote_vis_M t v :
  promote_vis value t v = Some M ->
  v = M /\ t = TRISTATE /\ modules_is_n value = Some false.
Proof.
  unfold promote_vis. destruct v; try done.
  destruct t; simpl; try done.
  destruct (modules_is_n value) as [[]|]; simpl; try done.
Qed.

Lemma promote_vis_not_M t v r :
  promote_vis value t v = Some r -> v <> M -> r = v.
Proof. unfold promote_vis. destruct v; try done; congruence. Qed.

(** A choice that is visible only as "m" is not in mode "y". *)
Lemma Choice_value_vis_M ch mode :
  Choice_visibility c value ch = Some M ->
  Choice_value c value ch = Some mode -> mode <> Y.
Proof.
  intros Hvis Hval.
  pose proof Hvis as Hvis'. unfold Choice_visibility in Hvis'.
  apply bind_Some in Hvis' as (v & _ & Hp).
  apply promote_vis_M in Hp as (_ & Ht & Hm).
  unfold Choice_value in Hval. rewrite Hvis in Hval.
  unfold Choice_type in Hval. rewrite Ht, Hm in Hval. cbn in Hval.
  destruct (ch_user_value ch) as [uv|]; cbn in Hval.
  - destruct (eval_EStr c value uv) as (a & Ha).
    rewrite (_eval_min_tri _ _ _ _ _ Ha) in Hval.
    destruct a, (is_optional ch); simpl in Hval; by simplify_eq.
  - destruct (is_optional ch); simpl in Hval; by simplify_eq.
Qed.

(** A symbol whose visibility is "m" has the effective type tristate. *)
Lemma Symbol_visibility_M_type s t :
  Symbol_visibility c value s = Some M ->
  Symbol_type c value s = Some t -> t = TRISTATE.
Proof.
  unfold Symbol_visibility, Symbol_type. intros Hvis Ht.
  apply bind_Some in Hvis as (vis & Hp & Hvis).
  destruct (choice s) as [ci|].
  - apply bind_Some in Hvis as (ch & Hch & Hvis). rewrite Hch in Ht.
    apply bind_Some in Hvis as (h1 & Hh1 & Hvis). destruct h1; [done|].
    apply bind_Some in Hvis as (h2 & Hh2 & Hvis). destruct h2; [done|].
    apply bind_Some in Hvis as (chvis & Hchvis & Hvis).
    apply bind_Some in Hvis as (vis' & Hmin & Hvis).
    apply promote_vis_M in Hvis as (-> & Hty & Hmod).
    rewrite Hty in Ht, Hh2. simpl in Ht, Hh2. rewrite Hmod in Ht.
    rewrite (_eval_min_tri _ _ _ _ _ (eval_tri_expr c value vis)) in Hmin.
    destruct (Choice_value c value ch) as [mode|] eqn:Hmode;
      simpl in Ht; [|done].
    assert (mode <> Y) as Hny.
    { destruct vis; simpl in Hh2.
      - by destruct chvis.
      - simpl in Hh2. destruct mode; by simplify_eq.
      - destruct chvis; simplify_eq.
        eapply Choice_value_vis_M; eauto. }
    destruct mode; simpl in Ht; by simplify_eq.
  - apply promote_vis_M in Hvis as (-> & Hty & Hmod).
    rewrite Hty in Ht. simpl in Ht. rewrite Hmod in Ht. simpl in Ht.
    by simplify_eq.
Qed.

End EngineFacts.

(** [_get_assignable] against the table, for the values that one oracle
    gives. *)
Lemma _get_assignable_table_at (c : Config) (value : oracle) (s : Symbol)
  (vis rev_dep_val weak : tri) (t : sym_type) :
  _type s = BOOL \/ _type s = TRISTATE ->
  Symbol_visibility c value s = Some vis ->
  eval_expr c value (Some (rev_dep s)) = Some rev_dep_val ->
  eval_expr c value (Some (weak_rev_dep s)) = Some weak ->
  Symbol_type c value s = Some t ->
  _get_assignable c value s
  = Some (assignable_table vis rev_dep_val
            (sym_type_eqb t BOOL || Tri.eqb weak Y)).
Proof.
  intros Hty Hvis Hrev Hweak Ht.
  unfold _get_assignable.
  assert (is_tri_type (_type s) = true) as -> by (destruct Hty as [-> | ->]; done).
  simpl negb. cbv iota. rewrite Hvis. simpl.
  destruct vis; [done| |].
  - assert (t = TRISTATE) as -> by (eapply Symbol_visibility_M_type; eauto).
    simpl in Hrev, Hweak. rewrite Hrev. simpl. rewrite Hweak. simpl.
    by destruct rev_dep_val, weak.
  - simpl in Hrev, Hweak. rewrite Hrev, Ht. simpl. rewrite Hweak.
    destruct rev_dep_val, (sym_type_eqb t BOOL), weak; done.
Qed.


(** ** Values of bool and tristate symbols *)

Section ValueFacts.

Variable c : Config.
Variable value : oracle.

Lemma bind_Some_l {A B} (x : A) (f : A -> option B) : Some x ≫= f = f x.
Proof. done. Qed.

Lemma promote_val_ge s v v' :
  promote_val c value s v = Some v' -> Tri.le v v'.
Proof.
  unfold promote_val. destruct v; intros H; simplify_eq;
    try apply TriFacts.le_refl.
  apply bind_Some in H as (t & _ & H).
  destruct (sym_type_eqb t BOOL); simplify_eq; [unfold Tri.le; simpl; lia|].
  apply bind_Some in H as (w & _ & H). simplify_eq.
  destruct (Tri.eqb w Y); unfold Tri.le; simpl; lia.
Qed.

Lemma promote_val_cases s v v' :
  promote_val c value s v = Some v' -> v' = v \/ (v = M /\ v' = Y).
Proof.
  unfold promote_val. destruct v; intros H; simplify_eq; auto.
  apply bind_Some in H as (t & _ & H).
  destruct (sym_type_eqb t BOOL); simplify_eq; auto.
  apply bind_Some in H as (w & _ & H). simplify_eq.
  destruct (Tri.eqb w Y); auto.
Qed.

(** Outside a choice the value is raised to at least [rev_dep]. *)
Lemma value_tri_plain_ge_rev_dep s vis val w r :
  value_tri_plain c value s vis = Some (val, w) ->
  eval_expr c value (Some (rev_dep s)) = Some r ->
  Tri.le r val.
Proof.
  unfold value_tri_plain. intros H Hr.
  apply bind_Some in H as ([val0 w0] & _ & H).
  rewrite Hr in H. rewrite bind_Some_l in H.
  destruct r.
  - unfold Tri.le; destruct val; simpl; lia.
  - rewrite _eval_max_tri in H. cbn in H. simplify_eq.
    apply (TriFacts.max_lub val0 M).
  - rewrite _eval_max_tri in H. cbn in H. simplify_eq.
    apply (TriFacts.max_lub val0 Y).
Qed.

(** The value of a bool or tristate symbol is one of "n", "m", "y". *)
Lemma Symbol_value_tri s v w :
  is_tri_type (_type s) = true ->
  Symbol_value c value s = Some (v, w) ->
  exists t, v = Tri.to_str t.
Proof.
  unfold Symbol_value. intros Ht H.
  destruct (_type s); try done;
    apply bind_Some in H as (vis & _ & H);
    apply bind_Some in H as ([val w0] & _ & H);
    apply bind_Some in H as (val' & _ & H); simplify_eq; eauto.
Qed.

End ValueFacts.

(** Outside a choice the value of a bool or tristate symbol is at least
    the value of its [rev_dep], for the values that one oracle gives. *)
Lemma Symbol_value_ge_rev_dep (c : Config) (value : oracle) (s : Symbol)
  (v : string) (w : bool) (r : tri) :
  _type s = BOOL \/ _type s = TRISTATE ->
  choice s = None ->
  Symbol_value c value s = Some (v, w) ->
  eval_expr c value (Some (rev_dep s)) = Some r ->
  exists t, v = Tri.to_str t /\ Tri.le r t.
Proof.
  intros Hty Hch Hv Hr. unfold Symbol_value in Hv. rewrite Hch in Hv.
  destruct Hty as [Hty | Hty]; rewrite Hty in Hv;
    apply bind_Some in Hv as (vis & _ & H);
    apply bind_Some in H as ([val w0] & Hp & H);
    apply bind_Some in H as (val' & Hpr & H); simplify_eq;
    (exists val'; split; [done|]);
    pose proof (value_tri_plain_ge_rev_dep _ _ _ _ _ _ _ Hp Hr) as H1;
    pose proof (promote_val_ge _ _ _ _ _ Hpr) as H2;
    unfold Tri.le in *; lia.
Qed.

(** ** Choices *)

Section ChoiceFacts.

Variable c : Config.
Variable value : oracle.

Lemma default_from_defaults_visible ds nm :
  default_from_defaults c value ds = Some (Some nm) ->
  exists vis, Symbol_visibility c value (sym_of c nm) = Some vis /\ vis <> N.
Proof.
  induction ds as [|[nm' cond] ds IH]; [done|]. simpl. intros H.
  apply bind_Some in H as (cv & _ & H).
  destruct cv; [by apply IH| |];
    apply bind_Some in H as (vis & Hvis & H);
    (destruct vis; [by apply IH| |]); simplify_eq; eauto.
Qed.

Lemma first_visible_visible ss nm :
  first_visible c value ss = Some (Some nm) ->
  exists vis, Symbol_visibility c value (sym_of c nm) = Some vis /\ vis <> N.
Proof.
  induction ss as [|nm' ss IH]; [done|]. simpl. intros H.
  apply bind_Some in H as (vis & Hvis & H).
  destruct vis; [by apply IH| |]; simplify_eq; eauto.
Qed.

(** The selected symbol of a choice is visible. *)
Lemma selection_visible ch nm :
  selection c value ch = Some (Some nm) ->
  exists vis, Symbol_visibility c value (sym_of c nm) = Some vis /\ vis <> N.
Proof.
  unfold selection. intros H.
  apply bind_Some in H as (mode & _ & H). destruct mode; try done.
  apply bind_Some in H as (user & Hu & H).
  destruct user as [nm'|].
  - simplify_eq. destruct (ch_user_selection ch) as [u|]; [|done].
    apply bind_Some in Hu as (vis & Hvis & Hu).
    destruct vis; simpl in Hu; simplify_eq. eauto.
  - unfold default_selection in H.
    apply bind_Some in H as (d & Hd & H). destruct d as [nm'|].
    + simplify_eq. by eapply default_from_defaults_visible.
    + by eapply first_visible_visible.
Qed.

(** A bool or tristate choice in mode "m" is a tristate choice, with
    modules on. *)
Lemma Choice_value_M ch :
  ch_type ch = BOOL \/ ch_type ch = TRISTATE ->
  Choice_value c value ch = Some M ->
  ch_type ch = TRISTATE /\ modules_is_n value = Some false.
Proof.
  unfold Choice_value. intros Hty H.
  apply bind_Some in H as (val & _ & H).
  assert (exists t, Choice_type value ch = Some t /\ sym_type_eqb t BOOL = false)
    as (t & Ht & Hb).
  { destruct val, (is_optional ch); simpl in H; try done;
      apply bind_Some in H as (t & Ht & H); exists t;
      destruct (sym_type_eqb t BOOL); by simplify_eq. }
  unfold Choice_type in Ht.
  destruct Hty as [Hty | Hty]; rewrite Hty in Ht; simpl in Ht.
  - by simplify_eq.
  - split; [done|].
    destruct (modules_is_n value) as [[]|]; simpl in Ht; by simplify_eq.
Qed.

End ChoiceFacts.

(** The value of a member of a choice in mode "y" and in mode "m", for
    the values that one oracle gives. *)
Lemma choice_member_value_at (c : Config) (value : oracle) (ci : nat)
  (ch : Choice) (nm v : string) (w : bool) :
  _choices c !! ci = Some ch ->
  ch_type ch = BOOL \/ ch_type ch = TRISTATE ->
  name (sym_of c nm) = nm ->
  choice (sym_of c nm) = Some ci ->
  _type (sym_of c nm) = BOOL \/ _type (sym_of c nm) = TRISTATE ->
  Symbol_value c value (sym_of c nm) = Some (v, w) ->
  (Choice_value c value ch = Some Y ->
   forall sel, selection c value ch = Some sel ->
     (sel = Some nm /\ v = "y") \/ (sel <> Some nm /\ v = "n"))
  /\ (Choice_value c value ch = Some M ->
      forall wk, eval_expr c value (Some (weak_rev_dep (sym_of c nm))) = Some wk ->
        wk <> Y -> v = "m" \/ v = "n").
Proof.
  intros Hch Hcty Hname Hmem Hty Hv.
  set (s := sym_of c nm) in *.
  assert (exists vis val val',
    Symbol_visibility c value s = Some vis
    /\ value_tri_choice c value s ch vis = Some (val, w)
    /\ promote_val c value s val = Some val' /\ v = Tri.to_str val')
    as (vis & val & val' & Hvis & Hval & Hpr & ->).
  { unfold Symbol_value in Hv. rewrite Hmem, Hch in Hv.
    destruct Hty as [Hty | Hty]; rewrite Hty in Hv;
      apply bind_Some in Hv as (vis & Hvis & H);
      rewrite bind_Some_l in H;
      apply bind_Some in H as ([val w0] & Hp & H);
      apply bind_Some in H as (val' & Hpr & H); simplify_eq;
      by exists vis, val, val'. }
  unfold value_tri_choice in Hval. split.
  - intros Hmode sel Hsel. rewrite Hmode, Hsel in Hval.
    destruct (decide (sel = Some nm)) as [-> | Hne].
    + left. split; [done|].
      destruct (selection_visible _ _ _ _ Hsel) as (vis' & Hvis' & Hn).
      fold s in Hvis'. rewrite Hvis in Hvis'. simplify_eq.
      destruct vis'; [done| |]; cbn in Hval;
        rewrite Hname, String.eqb_refl in Hval; simplify_eq;
        simpl in Hpr; by simplify_eq.
    + right. split; [done|].
      assert (val = N) as ->.
      { destruct vis; cbn in Hval; [by simplify_eq| |];
          (destruct sel as [nm'|]; [|by simplify_eq]);
          (destruct (String.eqb_spec nm' (name s)); [|by simplify_eq]);
          exfalso; apply Hne; congruence. }
      simpl in Hpr. by simplify_eq.
  - intros Hmode wk Hwk Hny. rewrite Hmode in Hval.
    destruct (Choice_value_M _ _ _ Hcty Hmode) as (Hct & Hmod).
    destruct (promote_val_cases _ _ _ _ _ Hpr) as [-> | [-> ->]].
    + destruct vis; cbn in Hval; simplify_eq; auto;
        destruct (user_value s) as [uv|]; auto;
        destruct (_ || _); auto.
    + exfalso. unfold promote_val in Hpr.
      apply bind_Some in Hpr as (t & Ht & Hpr).
      destruct (sym_type_eqb t BOOL) eqn:Hb.
      * destruct t; try done. unfold Symbol_type in Ht.
        destruct Hty as [Hty | Hty]; rewrite Hty in Ht; simpl in Ht.
        -- unfold Symbol_visibility in Hvis. rewrite Hmem, Hch in Hvis.
           apply bind_Some in Hvis as (vis0 & _ & Hvis).
           rewrite bind_Some_l in Hvis.
           rewrite Hct, Hty in Hvis. simpl in Hvis.
           rewrite Hmode in Hvis. simpl in Hvis. by simplify_eq.
        -- rewrite Hmem, Hch in Ht. rewrite bind_Some_l in Ht.
           rewrite Hmode in Ht. simpl in Ht. rewrite Hmod in Ht. done.
      * rewrite Hwk in Hpr. simpl in Hpr. destruct wk; by simplify_eq.
Qed.


(** ** More fuel gives the same values *)

Create HintDb mono.

(** One step of a monotonicity proof: a bind of the function under the
    smaller oracle is replayed under the larger one. *)
Ltac mono_bind H :=
  let x := fresh "x" in
  let Hx := fresh "Hx" in
  apply bind_Some in H as (x & Hx & H);
  match goal with
  | |- (?m ≫= _) = _ =>
      let E := fresh "E" in
      assert (m = Some x) as E by eauto with mono;
      rewrite E; clear E; rewrite bind_Some_l
  end.

Ltac mono_case H :=
  match type of H with
  | (match ?d with _ => _ end) = _ => destruct d eqn:?; simplify_eq
  | (if ?d then _ else _) = _ => destruct d eqn:?; simplify_eq
  | (let '(_, _) := ?d in _) = _ => destruct d eqn:?; simplify_eq
  end.

Ltac mono_go H :=
  repeat first [ mono_bind H | mono_case H ];
  try done; eauto with mono.

Section Mono.

Variable c : Config.
Variables v1 v2 : oracle.
Hypothesis Hle : oracle_le v1 v2.

Local Hint Resolve Hle : mono.

Lemma oracle_mono nm r : v1 nm = Some r -> v2 nm = Some r.
Proof. apply Hle. Qed.
Local Hint Resolve oracle_mono : mono.

Lemma _type_and_val_mono e r :
  _type_and_val c v1 e = Some r -> _type_and_val c v2 e = Some r.
Proof. destruct e; simpl; intros H; mono_go H. Qed.
Local Hint Resolve _type_and_val_mono : mono.

Lemma _str_val_mono e r : _str_val v1 e = Some r -> _str_val v2 e = Some r.
Proof. destruct e; simpl; intros H; mono_go H. Qed.
Local Hint Resolve _str_val_mono : mono.

Lemma eval_relation_mono oper e1 e2 r :
  eval_relation c v1 oper e1 e2 = Some r ->
  eval_relation c v2 oper e1 e2 = Some r.
Proof.
  unfold eval_relation. intros H.
  mono_bind H. destruct x. mono_bind H. by destruct x.
Qed.
Local Hint Resolve eval_relation_mono : mono.

Lemma _eval_expr_rec_mono e r :
  _eval_expr_rec c v1 e = Some r -> _eval_expr_rec c v2 e = Some r.
Proof.
  revert r. induction e; intros r H; simpl in *; mono_go H.
Qed.
Local Hint Resolve _eval_expr_rec_mono : mono.

Lemma eval_expr_mono e r :
  eval_expr c v1 e = Some r -> eval_expr c v2 e = Some r.
Proof. destruct e; unfold eval_expr; eauto with mono. Qed.
Local Hint Resolve eval_expr_mono : mono.

Lemma _eval_min_mono e1 e2 r :
  _eval_min c v1 e1 e2 = Some r -> _eval_min c v2 e1 e2 = Some r.
Proof. unfold _eval_min. intros H. mono_go H. Qed.
Local Hint Resolve _eval_min_mono : mono.

Lemma _eval_max_mono e1 e2 r :
  _eval_max c v1 e1 e2 = Some r -> _eval_max c v2 e1 e2 = Some r.
Proof. unfold _eval_max. intros H. mono_go H. Qed.
Local Hint Resolve _eval_max_mono : mono.

Lemma modules_is_n_mono r :
  modules_is_n v1 = Some r -> modules_is_n v2 = Some r.
Proof. unfold modules_is_n. intros H. mono_go H. Qed.
Local Hint Resolve modules_is_n_mono : mono.

Lemma prompts_vis_mono nds vis r :
  prompts_vis c v1 vis nds = Some r -> prompts_vis c v2 vis nds = Some r.
Proof.
  revert vis r. induction nds as [|nd nds IH]; intros vis r H; simpl in *;
    mono_go H.
Qed.
Local Hint Resolve prompts_vis_mono : mono.

Lemma promote_vis_mono t vis r :
  promote_vis v1 t vis = Some r -> promote_vis v2 t vis = Some r.
Proof. unfold promote_vis. intros H. mono_go H. Qed.
Local Hint Resolve promote_vis_mono : mono.

Lemma Choice_visibility_mono ch r :
  Choice_visibility c v1 ch = Some r -> Choice_visibility c v2 ch = Some r.
Proof. unfold Choice_visibility. intros H. mono_go H. Qed.
Local Hint Resolve Choice_visibility_mono : mono.

Lemma Choice_type_mono ch r :
  Choice_type v1 ch = Some r -> Choice_type v2 ch = Some r.
Proof. unfold Choice_type. intros H. mono_go H. Qed.
Local Hint Resolve Choice_type_mono : mono.

Lemma Choice_value_mono ch r :
  Choice_value c v1 ch = Some r -> Choice_value c v2 ch = Some r.
Proof.
  unfold Choice_value. intros H.
  apply bind_Some in H as (val & Hval & H).
  assert (match ch_user_value ch with
          | Some uv =>
              vis ← Choice_visibility c v2 ch;
              _eval_min c v2 (Some (EStr uv)) (tri_expr vis)
          | None => Some N
          end = Some val) as ->.
  { destruct (ch_user_value ch); [|done]. mono_go Hval. }
  rewrite bind_Some_l. mono_go H.
Qed.
Local Hint Resolve Choice_value_mono : mono.

Lemma Symbol_visibility_mono s r :
  Symbol_visibility c v1 s = Some r -> Symbol_visibility c v2 s = Some r.
Proof.
  unfold Symbol_visibility. intros H. mono_bind H.
  destruct (choice s) as [ci|]; [|eauto with mono].
  apply bind_Some in H as (ch & Hch & H). rewrite Hch, bind_Some_l.
  apply bind_Some in H as (h1 & Hh1 & H).
  match goal with |- (?m ≫= _) = _ => assert (m = Some h1) as -> end.
  { mono_go Hh1. }
  rewrite bind_Some_l. destruct h1; [done|].
  apply bind_Some in H as (h2 & Hh2 & H).
  match goal with |- (?m ≫= _) = _ => assert (m = Some h2) as -> end.
  { mono_go Hh2. }
  rewrite bind_Some_l. destruct h2; [done|]. mono_go H.
Qed.
Local Hint Resolve Symbol_visibility_mono : mono.

Lemma Symbol_type_mono s r :
  Symbol_type c v1 s = Some r -> Symbol_type c v2 s = Some r.
Proof.
  unfold Symbol_type. intros H.
  destruct (sym_type_eqb (_type s) TRISTATE); [|done].
  apply bind_Some in H as (in_y & Hy & H).
  match goal with |- (?m ≫= _) = _ => assert (m = Some in_y) as -> end.
  { destruct (choice s); [|done].
    apply bind_Some in Hy as (ch & Hch & Hy). rewrite Hch, bind_Some_l.
    mono_go Hy. }
  rewrite bind_Some_l. mono_go H.
Qed.
Local Hint Resolve Symbol_type_mono : mono.

Lemma default_from_defaults_mono ds r :
  default_from_defaults c v1 ds = Some r ->
  default_from_defaults c v2 ds = Some r.
Proof.
  revert r. induction ds as [|[nm cond] ds IH]; intros r H; simpl in *;
    mono_go H.
Qed.
Local Hint Resolve default_from_defaults_mono : mono.

Lemma first_visible_mono ss r :
  first_visible c v1 ss = Some r -> first_visible c v2 ss = Some r.
Proof.
  revert r. induction ss as [|nm ss IH]; intros r H; simpl in *; mono_go H.
Qed.
Local Hint Resolve first_visible_mono : mono.

Lemma default_selection_mono ch r :
  default_selection c v1 ch = Some r -> default_selection c v2 ch = Some r.
Proof. unfold default_selection. intros H. mono_go H. Qed.
Local Hint Resolve default_selection_mono : mono.

Lemma selection_mono ch r :
  selection c v1 ch = Some r -> selection c v2 ch = Some r.
Proof.
  unfold selection. intros H. mono_bind H.
  destruct x; try done.
  apply bind_Some in H as (user & Hu & H).
  match goal with |- (?m ≫= _) = _ => assert (m = Some user) as -> end.
  { destruct (ch_user_selection ch); [|done]. mono_go Hu. }
  rewrite bind_Some_l. mono_go H.
Qed.
Local Hint Resolve selection_mono : mono.

Lemma promote_val_mono s val r :
  promote_val c v1 s val = Some r -> promote_val c v2 s val = Some r.
Proof. unfold promote_val. intros H. mono_go H. Qed.
Local Hint Resolve promote_val_mono : mono.

Lemma tri_defaults_mono ds r :
  tri_defaults c v1 ds = Some r -> tri_defaults c v2 ds = Some r.
Proof.
  revert r. induction ds as [|[d cond] ds IH]; intros r H; simpl in *;
    mono_go H.
Qed.
Local Hint Resolve tri_defaults_mono : mono.

Lemma value_tri_plain_mono s vis r :
  value_tri_plain c v1 s vis = Some r -> value_tri_plain c v2 s vis = Some r.
Proof.
  unfold value_tri_plain. intros H.
  apply bind_Some in H as (p & Hp & H).
  match goal with |- (?m ≫= _) = _ => assert (m = Some p) as -> end.
  { destruct vis, (user_value s); mono_go Hp. }
  rewrite bind_Some_l. destruct p. mono_go H.
Qed.
Local Hint Resolve value_tri_plain_mono : mono.

Lemma value_tri_choice_mono s ch vis r :
  value_tri_choice c v1 s ch vis = Some r ->
  value_tri_choice c v2 s ch vis = Some r.
Proof. unfold value_tri_choice. intros H. destruct vis; mono_go H. Qed.
Local Hint Resolve value_tri_choice_mono : mono.

Lemma active_range_mono base rs r :
  active_range c v1 base rs = Some r -> active_range c v2 base rs = Some r.
Proof.
  revert r. induction rs as [|[[lo hi] cond] rs IH]; intros r H; simpl in *;
    mono_go H.
Qed.
Local Hint Resolve active_range_mono : mono.

Lemma int_defaults_mono t base range ds val w r :
  int_defaults c v1 t base range val w ds = Some r ->
  int_defaults c v2 t base range val w ds = Some r.
Proof.
  revert val w r. induction ds as [|[ve cond] ds IH]; intros val w r H;
    simpl in *; mono_go H.
Qed.
Local Hint Resolve int_defaults_mono : mono.

Lemma value_int_mono s vis r :
  value_int c v1 s vis = Some r -> value_int c v2 s vis = Some r.
Proof. unfold value_int. intros H. mono_go H. Qed.
Local Hint Resolve value_int_mono : mono.

Lemma string_defaults_mono ds val w r :
  string_defaults c v1 val w ds = Some r ->
  string_defaults c v2 val w ds = Some r.
Proof.
  revert val w r. induction ds as [|[ve cond] ds IH]; intros val w r H;
    simpl in *; mono_go H.
Qed.
Local Hint Resolve string_defaults_mono : mono.

Lemma value_string_mono s vis r :
  value_string c v1 s vis = Some r -> value_string c v2 s vis = Some r.
Proof.
  unfold value_string. intros H. destruct vis, (user_value s); mono_go H.
Qed.
Local Hint Resolve value_string_mono : mono.

Lemma Symbol_value_mono s r :
  Symbol_value c v1 s = Some r -> Symbol_value c v2 s = Some r.
Proof.
  unfold Symbol_value. intros H.
  destruct (_type s); try done; mono_bind H; try (by eauto with mono).
  - apply bind_Some in H as (p & Hp & H).
    match goal with |- (?m ≫= _) = _ => assert (m = Some p) as -> end.
    { destruct (choice s); [|eauto with mono].
      apply bind_Some in Hp as (ch & Hch & Hp). rewrite Hch, bind_Some_l.
      eauto with mono. }
    rewrite bind_Some_l. destruct p. mono_go H.
  - apply bind_Some in H as (p & Hp & H).
    match goal with |- (?m ≫= _) = _ => assert (m = Some p) as -> end.
    { destruct (choice s); [|eauto with mono].
      apply bind_Some in Hp as (ch & Hch & Hp). rewrite Hch, bind_Some_l.
      eauto with mono. }
    rewrite bind_Some_l. destruct p. mono_go H.
Qed.

Lemma _get_assignable_mono s r :
  _get_assignable c v1 s = Some r -> _get_assignable c v2 s = Some r.
Proof.
  unfold _get_assignable. intros H.
  destruct (negb (is_tri_type (_type s))); [done|].
  cbv zeta in *.
  mono_bind H. destruct x; [done| |]; mono_bind H; destruct x;
    try done; try (by mono_go H);
    apply bind_Some in H as (b & Hb & H);
    match goal with |- (?m ≫= _) = _ => assert (m = Some b) as -> end;
    try (by mono_go Hb); by rewrite bind_Some_l.
Qed.

End Mono.

Lemma value_of_mono c f f' :
  f <= f' -> oracle_le (value_of f c) (value_of f' c).
Proof.
  revert f'. induction f as [|f IH]; intros f' Hf nm r H; [done|].
  destruct f' as [|f']; [lia|]. simpl in *.
  apply fmap_Some in H as ([v w] & H & ->).
  erewrite Symbol_value_mono; [done| |exact H]. apply IH. lia.
Qed.

(** A symbol has at most one value. *)
Lemma has_value_functional c nm v v' :
  has_value c nm v -> has_value c nm v' -> v = v'.
Proof.
  intros [f H] [f' H'].
  apply (value_of_mono c f (f `max` f')) in H; [|lia].
  apply (value_of_mono c f' (f `max` f')) in H'; [|lia].
  congruence.
Qed.

Lemma has_value_Symbol_value c nm v :
  has_value c nm v <->
  exists w, returns c (fun o => Symbol_value c o (sym_of c nm)) (v, w).
Proof.
  split.
  - intros [[|f] H]; [done|]. simpl in H.
    apply fmap_Some in H as ([v' w] & H & ->). by exists w, f.
  - intros (w & f & H). exists (S f). simpl. by rewrite H.
Qed.

(** Two computations that return do so from a common fuel. *)
Lemma returns_both {A B} c (F : oracle -> option A) (G : oracle -> option B)
  a b :
  (forall v1 v2 r, oracle_le v1 v2 -> F v1 = Some r -> F v2 = Some r) ->
  (forall v1 v2 r, oracle_le v1 v2 -> G v1 = Some r -> G v2 = Some r) ->
  returns c F a -> returns c G b ->
  exists fuel, F (value_of fuel c) = Some a /\ G (value_of fuel c) = Some b
    /\ forall f', fuel <= f' -> oracle_le (value_of fuel c) (value_of f' c).
Proof.
  intros HF HG [f Hf] [g Hg]. exists (f `max` g). split; [|split].
  - eapply HF; [|exact Hf]. apply value_of_mono. lia.
  - eapply HG; [|exact Hg]. apply value_of_mono. lia.
  - intros f' Hf'. by apply value_of_mono.
Qed.



(** C4: for a bool or tristate symbol, [_get_assignable] returns the entry
    of the table of the specification at the visibility, the value of
    [rev_dep] and "bool-ish": the effective type is bool or [weak_rev_dep]
    is "y". *)
Theorem _get_assignable_table (c : Config) (s : Symbol)
  (vis rev_dep_val weak : tri) (t : sym_type) :
  _type s = BOOL \/ _type s = TRISTATE ->
  returns c (fun o => Symbol_visibility c o s) vis ->
  evaluates c (Some (rev_dep s)) rev_dep_val ->
  evaluates c (Some (weak_rev_dep s)) weak ->
  returns c (fun o => Symbol_type c o s) t ->
  returns c (fun o => _get_assignable c o s)
    (assignable_table vis rev_dep_val
       (sym_type_eqb t BOOL || Tri.eqb weak Y)).
Proof.
  intros Hty [f1 H1] [f2 H2] [f3 H3] [f4 H4].
  set (f := Nat.max (Nat.max f1 f2) (Nat.max f3 f4)).
  exists f. apply _get_assignable_table_at; try done.
  - eapply Symbol_visibility_mono; [|exact H1]. apply value_of_mono. lia.
  - eapply eval_expr_mono; [|exact H2]. apply value_of_mono. lia.
  - eapply eval_expr_mono; [|exact H3]. apply value_of_mono. lia.
  - eapply Symbol_type_mono; [|exact H4]. apply value_of_mono. lia.
Qed.


(** ** The claims on concrete configurations *)

Import Examples.





Lemma _get_assignable_table_witness :
  returns visible_tristate
    (fun o => _get_assignable visible_tristate o (sym_of visible_tristate "S"))
    "nmy".
Proof.
  apply (_get_assignable_table visible_tristate (sym_of visible_tristate "S")
           Y N N TRISTATE).
  - right. reflexivity.
  - exists 2. vm_compute. reflexivity.
  - exists 0. vm_compute. reflexivity.
  - exists 0. vm_compute. reflexivity.
  - exists 2. vm_compute. reflexivity.
Defined.

(** ** int and hex symbols *)

Section IntFacts.

Variable c : Config.
Variable value : oracle.

(** A well-formed user value within the active range is the value, as
    written, when the symbol is visible. *)
Lemma value_int_user s vis range uv :
  active_range c value (_TYPE_TO_BASE (_type s)) (ranges s) = Some range ->
  vis <> N -> user_value s = Some uv ->
  user_value_ok (_TYPE_TO_BASE (_type s)) range uv = true ->
  value_int c value s vis = Some (uv, true).
Proof.
  intros Hr Hvis Huv Hok. unfold value_int. rewrite Hr, Huv. simpl.
  rewrite Hok. by destruct vis.
Qed.

(** The defaults whose condition is "n" are passed over; the first other
    default, when it is well-formed in the base, is the value, clamped. *)
Lemma int_defaults_first t base range val w pre ve cond rest cv v n :
  Forall (fun d => eval_expr c value (snd d) = Some N) pre ->
  eval_expr c value cond = Some cv -> cv <> N ->
  _str_val value ve = Some v -> Py.int v base = Some n ->
  int_defaults c value t base range val w (pre ++ (ve, cond) :: rest)%list
  = Some (clamp t range v n, true).
Proof.
  intros Hpre Hc Hcv Hv Hn. revert val w.
  induction Hpre as [|[ve' cond'] pre Hd _ IH]; intros val w; simpl.
  - rewrite Hc. simpl. destruct cv; [done| |]; rewrite Hv; simpl;
      by rewrite Hn.
  - simpl in Hd. rewrite Hd. simpl. apply IH.
Qed.

Lemma value_int_default s vis range pre ve cond rest cv v n :
  active_range c value (_TYPE_TO_BASE (_type s)) (ranges s) = Some range ->
  vis = N \/ user_value s = None
  \/ (exists uv, user_value s = Some uv
        /\ user_value_ok (_TYPE_TO_BASE (_type s)) range uv = false) ->
  defaults s = (pre ++ (ve, cond) :: rest)%list ->
  Forall (fun d => eval_expr c value (snd d) = Some N) pre ->
  eval_expr c value cond = Some cv -> cv <> N ->
  _str_val value ve = Some v -> Py.int v (_TYPE_TO_BASE (_type s)) = Some n ->
  value_int c value s vis = Some (clamp (_type s) range v n, true).
Proof.
  intros Hr Hno Hds Hpre Hc Hcv Hv Hn. unfold value_int. rewrite Hr. simpl.
  rewrite Hds.
  assert (forall w, int_defaults c value (_type s) (_TYPE_TO_BASE (_type s))
            range "" w (pre ++ (ve, cond) :: rest)%list
          = Some (clamp (_type s) range v n, true)) as Hd
    by (intros w; by eapply int_defaults_first).
  destruct (user_value s) as [uv|]; [|apply Hd].
  destruct Hno as [-> | [? | (uv' & ? & Hok)]]; simplify_eq.
  - simpl. apply Hd.
  - rewrite Hok, andb_false_r. apply Hd.
Qed.

End IntFacts.





(** ** Symbol references *)

Section StringFacts.

Lemma append_assoc (a b d : string) : (a ++ b) ++ d = a ++ b ++ d.
Proof. induction a as [|x a IH]; simpl; [done|]. by rewrite IH. Qed.

Lemma append_nil_r (a : string) : a ++ "" = a.
Proof. induction a as [|x a IH]; simpl; [done|]. by rewrite IH. Qed.

Lemma count_char_app a s t :
  count_char a (s ++ t) = count_char a s + count_char a t.
Proof. induction s as [|b s IH]; simpl; [done|]. rewrite IH. lia. Qed.

Lemma span_word_spec s nm rest :
  span_word s = (nm, rest) ->
  s = nm ++ rest /\ count_char "$" nm = 0
  /\ match rest with
     | String a _ => Py.is_word a = false
     | EmptyString => True
     end.
Proof.
  revert nm rest. induction s as [|a s IH]; intros nm rest H; simpl in H.
  - by simplify_eq.
  - destruct (Py.is_word a) eqn:Ha.
    + destruct (span_word s) as [n t]. simplify_eq.
      destruct (IH n rest eq_refl) as (-> & Hc & Hr).
      split; [done|]. split; [|done]. cbn [count_char]. rewrite Hc.
      destruct (Ascii.eqb_spec "$"%char a) as [<-|]; [by vm_compute in Ha|done].
    + by simplify_eq.
Qed.

(** What the search returns: the text is [pre], [$], the name and [post];
    the name is not empty, and [pre] holds one [$] less than the text
    before the name. *)
Lemma _sym_ref_re_search_spec s pre nm post :
  _sym_ref_re_search s = Some (pre, nm, post) ->
  s = pre ++ String "$" (nm ++ post) /\ nm <> ""
  /\ count_char "$" s = count_char "$" pre + 1 + count_char "$" post.
Proof.
  revert pre. induction s as [|a s IH]; intros pre H; simpl in H; [done|].
  destruct (span_word s) as [n rest] eqn:Hs.
  destruct (Ascii.eqb a "$" && negb (n =? "")) eqn:Hm.
  - simplify_eq. apply andb_true_iff in Hm as [Ha Hn].
    apply Ascii.eqb_eq in Ha as ->.
    destruct (span_word_spec _ _ _ Hs) as (-> & Hc & _).
    split; [done|]. split.
    + intros ->. done.
    + cbn [count_char append]. rewrite Ascii.eqb_refl.
      rewrite count_char_app, Hc. lia.
  - destruct (_sym_ref_re_search s) as [[[p n'] q]|] eqn:Hr; [|done].
    simplify_eq. destruct (IH p eq_refl) as (-> & Hn & Hc).
    split; [done|]. split; [done|]. simpl. rewrite Hc. lia.
Qed.

End StringFacts.

Section ExpandFacts.

Variable c : Config.
Variable value : oracle.

(** What the expansion returns holds no reference. *)
Lemma _expand_sym_refs_fixed fuel s r :
  _expand_sym_refs fuel c value s = Some r -> _sym_ref_re_search r = None.
Proof.
  revert s. induction fuel as [|f IH]; intros s H; simpl in H; [done|].
  destruct (_sym_ref_re_search s) as [[[pre nm] post]|] eqn:Hs.
  - apply bind_Some in H as (v & _ & H). by eapply IH.
  - by simplify_eq.
Qed.

(** When no value holds a [$], every round removes one: the expansion
    returns within as many rounds as the text has [$]. *)
Lemma _expand_sym_refs_returns n s :
  (forall nm, is_Some (syms c !! nm) ->
     exists v, value nm = Some v /\ count_char "$" v = 0) ->
  count_char "$" s <= n ->
  exists r, _expand_sym_refs (S n) c value s = Some r.
Proof.
  intros Hv. revert s. induction n as [|n IH]; intros s Hn; simpl.
  - destruct (_sym_ref_re_search s) as [[[pre nm] post]|] eqn:Hs; [|eauto].
    apply _sym_ref_re_search_spec in Hs as (_ & _ & Hc). lia.
  - destruct (_sym_ref_re_search s) as [[[pre nm] post]|] eqn:Hs; [|eauto].
    apply _sym_ref_re_search_spec in Hs as (_ & _ & Hc).
    assert (exists v, match syms c !! nm with
                      | Some _ => value nm
                      | None => Some ""
                      end = Some v /\ count_char "$" v = 0) as (v & -> & Hv0).
    { destruct (syms c !! nm) eqn:Hnm; [|by exists ""].
      apply Hv. by rewrite Hnm. }
    rewrite bind_Some_l. apply IH.
    rewrite !count_char_app, Hv0. lia.
Qed.

End ExpandFacts.


Import Examples.




(** ** [eval_string] leaves the configuration as it is *)

Section Frames.

Lemma frames_ret {A} (a : A) : frames (ret a).
Proof. intros c log. split; [done|]. exists []. by rewrite app_nil_r. Qed.

Lemma frames_raise {A} e : frames (@raise A e).
Proof. intros c log. split; [done|]. exists []. by rewrite app_nil_r. Qed.

Lemma frames_lift {A} (r : result A) : frames (lift r).
Proof. intros c log. split; [done|]. exists []. by rewrite app_nil_r. Qed.

Lemma frames_get_config : frames get_config.
Proof. intros c log. split; [done|]. exists []. by rewrite app_nil_r. Qed.

Lemma frames_bind {A B} (m : Run A) (k : A -> Run B) :
  frames m -> (forall a, frames (k a)) -> frames (bind m k).
Proof.
  intros Hm Hk c log. unfold bind.
  destruct (Hm c log) as (Hc & ws & Hlog & Hws).
  destruct (m (c, log)) as [[a|e] [c' log']]; simpl in *; subst.
  - destruct (Hk a c (log ++ ws)%list) as (Hc' & ws' & Hlog' & Hws').
    split; [done|]. exists (ws ++ ws')%list.
    rewrite Hlog', app_assoc. split; [done|]. by apply Forall_app.
  - split; [done|]. by exists ws.
Qed.

(** [_lookup_sym] with [for_eval] does not register the symbol. *)
Lemma frames__lookup_sym nm : frames (_lookup_sym nm true).
Proof.
  intros c log. unfold _lookup_sym, bind, get_config, warn, ret. simpl.
  destruct (syms c !! nm) eqn:Hnm; simpl.
  - split; [done|]. exists []. by rewrite app_nil_r.
  - split; [done|]. exists (_warn c (W_no_symbol nm)). split; [done|].
    unfold _warn. destruct (_print_warnings c); [|done].
    constructor; [|done]. eauto.
Qed.

(** Without [for_eval] a new name is registered. *)
Lemma _lookup_sym_registers c log nm :
  syms c !! nm = None ->
  syms (fst (snd (_lookup_sym nm false (c, log)))) !! nm
  = Some (new_Symbol nm).
Proof.
  intros H. unfold _lookup_sym, bind, get_config, put_config, ret. simpl.
  rewrite H. simpl. apply lookup_insert_eq.
Qed.

Ltac frames_go :=
  repeat first
    [ apply frames_ret | apply frames_raise | apply frames_lift
    | apply frames_get_config | apply frames__lookup_sym
    | apply frames_bind; [|intros ?]
    | match goal with
      | |- frames (match ?x with _ => _ end) => destruct x
      | |- frames (if ?x then _ else _) => destruct x
      | |- frames (let '(_, _) := ?x in _) => destruct x
      end ].

Lemma frames_tokenize_step has_backslash prev s :
  frames (tokenize_step true has_backslash prev s).
Proof. unfold tokenize_step. frames_go. Qed.

Lemma frames_tokenize_loop fuel has_backslash prev tokens s :
  frames (tokenize_loop fuel true has_backslash prev tokens s).
Proof.
  revert prev tokens s.
  induction fuel as [|f IH]; intros prev tokens s; simpl.
  - destruct s; frames_go.
  - destruct s; [frames_go|].
    apply frames_bind; [apply frames_tokenize_step|].
    intros [[t|] [rest|]]; try apply IH; frames_go.
Qed.

Lemma frames__tokenize s : frames (_tokenize s true).
Proof.
  unfold _tokenize. apply frames_bind; [apply frames_tokenize_loop|].
  intros ts. frames_go.
Qed.

Lemma frames_eval_string fuel s : frames (eval_string fuel s).
Proof.
  unfold eval_string. apply frames_bind; [apply frames__tokenize|].
  intros [ts|]; frames_go.
Qed.

End Frames.

(** C10: [eval_string] leaves the configuration unchanged, whatever the
    string and whether it returns a value or raises: the symbol table
    gains no entry for a name that it does not hold (such a name is only
    warned about), and every symbol keeps its user value and its value. *)
Theorem eval_string_frame (fuel : nat) (s : string) (c : Config)
  (log : list warning) :
  let c' := fst (snd (eval_string fuel s (c, log))) in
  let log' := snd (snd (eval_string fuel s (c, log))) in
  c' = c
  /\ dom (syms c') = dom (syms c)
  /\ (forall nm, user_value (sym_of c' nm) = user_value (sym_of c nm))
  /\ (forall f nm, value_of f c' nm = value_of f c nm)
  /\ exists ws, log' = (log ++ ws)%list
       /\ Forall (fun w => exists nm, w = W_no_symbol nm
                             /\ syms c !! nm = None) ws.
Proof.
  destruct (frames_eval_string fuel s c log) as (Hc & Hlog).
  simpl. rewrite Hc. by repeat split.
Qed.

Import Examples.

(** [eval_string("y && (FOO || !S)")], where FOO is not a symbol of the
    configuration: the value is "y", and FOO is warned about. *)
Example eval_string_unknown_name :
  eval_string 5 "y && (FOO || !S)" (visible_tristate, [])
  = (inl Y, (visible_tristate, [W_no_symbol "FOO"])).
Proof. vm_compute. reflexivity. Qed.

(** ** String assignments in a .config *)

Section LoadLine.

Variable c : Config.

Lemma _set_value_no_invalidate_string nm sym val :
  syms c !! nm = Some sym -> _type sym = STRING ->
  user_value (sym_of (fst (_set_value_no_invalidate c nm val true)) nm)
  = Some val.
Proof.
  intros Hnm Hty. unfold _set_value_no_invalidate.
  assert (sym_of c nm = sym) as -> by (unfold sym_of; by rewrite Hnm).
  rewrite Hty. simpl.
  destruct (choice sym); unfold sym_of; simpl;
    by rewrite lookup_alter_eq, Hnm.
Qed.

End LoadLine.




(** ** The environment is read at construction only *)

Lemma _open_environ c env1 env2 fs filename :
  _open c {| environ := env1; files := fs |} filename
  = _open c {| environ := env2; files := fs |} filename.
Proof. done. Qed.

Lemma defconfig_loop_environ fuel c value env1 env2 fs ds :
  defconfig_loop fuel c value {| environ := env1; files := fs |} ds
  = defconfig_loop fuel c value {| environ := env2; files := fs |} ds.
Proof.
  induction ds as [|[filename cond] ds IH]; simpl; [done|].
  rewrite IH. reflexivity.
Qed.

Lemma load_config_environ c env1 env2 fs filename replace :
  load_config c {| environ := env1; files := fs |} filename replace
  = load_config c {| environ := env2; files := fs |} filename replace.
Proof. reflexivity. Qed.

Lemma write_config_environ c value env1 env2 fs filename header :
  files <$> write_config c value {| environ := env1; files := fs |}
              filename header
  = files <$> write_config c value {| environ := env2; files := fs |}
                filename header.
Proof.
  unfold write_config. by destruct (_get_config_strings c value).
Qed.

Lemma defconfig_filename_environ fuel c value env1 env2 fs :
  defconfig_filename fuel c value {| environ := env1; files := fs |}
  = defconfig_filename fuel c value {| environ := env2; files := fs |}.
Proof.
  unfold defconfig_filename. destruct (defconfig_list c); [|done].
  apply defconfig_loop_environ.
Qed.

(** An operation gives the same results, and leaves the same
    configuration and the same files, whatever the environment is. *)
Lemma run_op_environ fuel op c env1 env2 fs :
  let r1 := run_op fuel op c {| environ := env1; files := fs |} in
  let r2 := run_op fuel op c {| environ := env2; files := fs |} in
  fst (fst r1) = fst (fst r2) /\ snd (fst r1) = snd (fst r2)
  /\ files (snd r1) = files (snd r2).
Proof.
  destruct op; unfold run_op.
  - done.
  - by destruct (Symbol_set_value c nm value).
  - rewrite (load_config_environ c env1 env2 fs).
    by destruct (load_config c _ filename replace) as [[]|].
  - pose proof (write_config_environ c (value_of fuel c) env1 env2 fs
                  filename header) as H.
    destruct (write_config c _ {| environ := env1; files := fs |} _ _),
      (write_config c _ {| environ := env2; files := fs |} _ _);
      simpl in *; by simplify_eq.
  - by rewrite (defconfig_filename_environ fuel c _ env1 env2 fs).
Qed.

(** The prefix and [srctree] stay as they were captured. *)
Lemma _set_value_no_invalidate_captured c nm value b :
  config_prefix (fst (_set_value_no_invalidate c nm value b)) = config_prefix c
  /\ srctree (fst (_set_value_no_invalidate c nm value b)) = srctree c.
Proof.
  unfold _set_value_no_invalidate.
  destruct (negb _); [done|]. simpl.
  destruct (choice (sym_of c nm)); [|done].
  destruct (is_tri_type _); [|done].
  destruct (value =? "y"); [done|]. by destruct (value =? "m").
Qed.

Lemma load_line_captured filename st numbered :
  config_prefix (fst (load_line filename st numbered)) = config_prefix (fst st)
  /\ srctree (fst (load_line filename st numbered)) = srctree (fst st).
Proof.
  destruct st as [c log], numbered as [linenr line]. unfold load_line.
  assert (forall nm val log',
    config_prefix
      (fst (let '(c', ws) := _set_value_no_invalidate c nm val true in
            (c', (log' ++ ws)%list))) = config_prefix c
    /\ srctree
         (fst (let '(c', ws) := _set_value_no_invalidate c nm val true in
               (c', (log' ++ ws)%list))) = srctree c) as Hset.
  { intros nm val log'.
    pose proof (_set_value_no_invalidate_captured c nm val true) as H.
    by destruct (_set_value_no_invalidate c nm val true). }
  destruct (_set_re_match _ _) as [[nm val]|].
  - destruct (syms c !! nm); [|done].
    destruct (_ && (_ || _)); [done|]. apply Hset.
  - destruct (_unset_re_match _ _) as [nm|]; [|done].
    destruct (syms c !! nm); [|done]. apply Hset.
Qed.

Lemma load_config_captured c w filename replace c' ws :
  load_config c w filename replace = Some (c', ws) ->
  config_prefix c' = config_prefix c /\ srctree c' = srctree c.
Proof.
  unfold load_config. intros H.
  apply bind_Some in H as ([path text] & _ & H). simplify_eq.
  assert (forall l st,
            config_prefix (fst (foldl (load_line filename) st l))
            = config_prefix (fst st)
            /\ srctree (fst (foldl (load_line filename) st l))
               = srctree (fst st)) as Hfold.
  { induction l as [|x l IH]; intros st; [done|]. simpl.
    destruct (IH (load_line filename st x)) as [-> ->].
    apply load_line_captured. }
  destruct (Hfold (enumerate1 (file_lines text))
              (if replace then unset_values c else c, [])) as [H1 H2].
  rewrite H in H1, H2. simpl in *. by destruct replace.
Qed.

Lemma run_op_captured fuel op c w :
  config_prefix (snd (fst (run_op fuel op c w))) = config_prefix c
  /\ srctree (snd (fst (run_op fuel op c w))) = srctree c.
Proof.
  destruct op; unfold run_op; try done.
  - pose proof (_set_value_no_invalidate_captured c nm value false) as H.
    unfold Symbol_set_value.
    by destruct (_set_value_no_invalidate c nm value false).
  - destruct (load_config c w filename replace) as [[c' ws]|] eqn:H; [|done].
    by apply load_config_captured in H.
  - by destruct (write_config c _ w filename header).
Qed.




(** ** Lines of text *)

Section LineFacts.

Lemma all_space_app s t :
  Py.all_space (s ++ t) = Py.all_space s && Py.all_space t.
Proof.
  induction s as [|a s IH]; simpl; [done|]. rewrite IH.
  by rewrite andb_assoc.
Qed.

Lemma rstrip_all_space s : Py.all_space s = true -> Py.rstrip s = "".
Proof. destruct s; simpl; [done|]. by intros ->. Qed.

(** A text that [rstrip] leaves as it is, is left so before a newline and
    before any white space. *)
Lemma rstrip_stable_app v t :
  Py.rstrip v = v -> Py.all_space t = true -> Py.rstrip (v ++ t) = v.
Proof.
  intros Hv Ht. induction v as [|a v IH]; simpl.
  - by apply rstrip_all_space.
  - simpl in Hv. destruct (Py.isspace a && Py.all_space v) eqn:Hs; [done|].
    injection Hv as Hv. rewrite all_space_app.
    rewrite andb_assoc, Hs. simpl. by rewrite IH.
Qed.

Lemma rstrip_app_stable a b :
  Py.rstrip a = a -> a <> "" -> Py.rstrip (a ++ b) = a ++ Py.rstrip b.
Proof.
  intros Ha Hne. induction a as [|x a IH]; [done|]. simpl in *.
  destruct (Py.isspace x && Py.all_space a) eqn:Hs; [done|].
  injection Ha as Ha. rewrite all_space_app, andb_assoc, Hs. simpl.
  destruct a as [|y a]; [done|]. by rewrite IH.
Qed.

Lemma rstrip_app_char a x :
  Py.isspace x = false -> Py.rstrip (a ++ String x "") = a ++ String x "".
Proof.
  intros Hx. induction a as [|y a IH]; simpl.
  - by rewrite Hx.
  - rewrite all_space_app. simpl. rewrite Hx. simpl.
    rewrite !andb_false_r. by rewrite IH.
Qed.

Lemma contains_app x s t :
  contains x (s ++ t) = contains x s || contains x t.
Proof.
  induction s as [|a s IH]; simpl; [done|]. rewrite IH.
  by rewrite orb_assoc.
Qed.

Lemma no_newline_app s t :
  no_newline (s ++ t) = no_newline s && no_newline t.
Proof. unfold no_newline. rewrite contains_app. by rewrite negb_orb. Qed.

(** A line that ends at the first newline of the text. *)
Lemma file_lines_aux_line cur b rest :
  no_newline b = true ->
  file_lines_aux cur (b ++ newline ++ rest)
  = (cur ++ b ++ newline) :: file_lines_aux "" rest.
Proof.
  revert cur. induction b as [|a b IH]; intros cur Hb; simpl.
  - done.
  - unfold no_newline in Hb. simpl in Hb.
    apply negb_true_iff, orb_false_iff in Hb as [Ha Hb].
    rewrite Ascii.eqb_sym in Ha. rewrite Ha.
    rewrite IH by (unfold no_newline; by rewrite Hb).
    by rewrite append_assoc.
Qed.

Lemma file_lines_bodies bs rest :
  Forall (fun b => no_newline b = true) bs ->
  file_lines (concat_strings (with_newline <$> bs) ++ rest)
  = ((with_newline <$> bs) ++ file_lines rest)%list.
Proof.
  unfold file_lines. induction 1 as [|b bs Hb _ IH]; simpl; [done|].
  rewrite (append_assoc (with_newline b)). unfold with_newline at 1.
  rewrite (append_assoc b). rewrite file_lines_aux_line by done.
  f_equal. exact IH.
Qed.

Lemma last_char_cons a s :
  s <> "" -> last_char (String a s) = last_char s.
Proof. by destruct s. Qed.

(** A header that ends with a newline gives its own lines. *)
Lemma file_lines_aux_header cur h t :
  last_char h = Some "010"%char ->
  file_lines_aux cur (h ++ t)
  = (file_lines_aux cur h ++ file_lines_aux "" t)%list.
Proof.
  revert cur. induction h as [|a h IH]; intros cur Hl; [done|]. simpl.
  destruct (Ascii.eqb a "010") eqn:Ha.
  - destruct h as [|b h]; [done|]. simpl app.
    f_equal. apply IH. by rewrite last_char_cons in Hl.
  - destruct h as [|b h].
    + simpl in Hl. injection Hl as ->. done.
    + apply IH. by rewrite last_char_cons in Hl.
Qed.

Lemma file_lines_header h t :
  h = "" \/ last_char h = Some "010"%char ->
  file_lines (h ++ t) = (file_lines h ++ file_lines t)%list.
Proof. intros [-> | H]; [done|]. by apply file_lines_aux_header. Qed.

End LineFacts.

(** ** Escaping a string and undoing it *)

Section EscapeFacts.

Lemma escape_esc v : escape v = esc v.
Proof.
  unfold escape. induction v as [|a v IH]; [done|]. simpl.
  destruct (Ascii.eqb_spec a backslash) as [-> | Hb]; simpl.
  - by rewrite IH.
  - destruct (Ascii.eqb_spec a dquote) as [-> | Hq]; simpl; by rewrite IH.
Qed.

Lemma esc_head v :
  match esc v with
  | String a _ => a <> dquote
  | EmptyString => True
  end.
Proof.
  destruct v as [|a v]; simpl; [done|].
  destruct (Ascii.eqb_spec a backslash); [done|].
  destruct (Ascii.eqb_spec a dquote); done.
Qed.

Lemma replace2_quote_esc v :
  Py.replace2 backslash dquote (String dquote "") (esc v) = esc_bs v.
Proof.
  induction v as [|a v IH]; [done|]. simpl.
  destruct (Ascii.eqb_spec a backslash) as [-> | Hb].
  - change (Py.replace2 backslash dquote (String dquote "")
              (String backslash (String backslash (esc v))))
      with (String backslash
              (Py.replace2 backslash dquote (String dquote "")
                 (String backslash (esc v)))).
    f_equal. pose proof (esc_head v) as Hh. revert IH.
    destruct (esc v) as [|b r] eqn:He; intros IH.
    + by rewrite <- IH.
    + simpl. simpl in IH.
      destruct (Ascii.eqb_spec b dquote); [done|]. by rewrite IH.
  - destruct (Ascii.eqb_spec a dquote) as [-> | Hq].
    + simpl. by rewrite IH.
    + revert IH. destruct (esc v) as [|b r] eqn:He; intros IH.
      * simpl. by rewrite <- IH.
      * simpl. destruct (Ascii.eqb_spec a backslash); [done|]. simpl.
        simpl in IH. by rewrite <- IH.
Qed.

Lemma replace2_backslash_esc_bs v :
  Py.replace2 backslash backslash (String backslash "") (esc_bs v) = v.
Proof.
  induction v as [|a v IH]; [done|]. simpl.
  destruct (Ascii.eqb_spec a backslash) as [-> | Hb].
  - simpl. by rewrite IH.
  - revert IH. destruct (esc_bs v) as [|b r] eqn:He; intros IH.
    + simpl. by rewrite <- IH.
    + simpl. destruct (Ascii.eqb_spec a backslash); [done|]. simpl.
      simpl in IH. by rewrite <- IH.
Qed.

Lemma drop_last_app_char s x : drop_last (s ++ String x "") = s.
Proof.
  induction s as [|a s IH]; [done|]. simpl.
  destruct (s ++ String x "") eqn:E; [by destruct s|]. by rewrite IH.
Qed.

Lemma last_char_app_char s x : last_char (s ++ String x "") = Some x.
Proof.
  induction s as [|a s IH]; [done|]. simpl.
  destruct (s ++ String x "") eqn:E; [by destruct s|]. done.
Qed.

(** Reading back what [config_string] writes for a string gives the
    string. *)
Lemma unescape_escape v :
  unescape (String dquote (escape v ++ String dquote "")) = v.
Proof.
  unfold unescape. rewrite drop_last_app_char, escape_esc.
  by rewrite replace2_quote_esc, replace2_backslash_esc_bs.
Qed.

Lemma contains_esc x v :
  x <> backslash -> contains x (esc v) = contains x v.
Proof.
  intros Hx. induction v as [|a v IH]; [done|]. simpl.
  destruct (Ascii.eqb_spec a backslash) as [-> | Hb]; simpl.
  - rewrite IH. by destruct (Ascii.eqb_spec x backslash).
  - destruct (Ascii.eqb_spec a dquote) as [-> | Hq]; simpl; rewrite IH.
    + by destruct (Ascii.eqb_spec x backslash).
    + done.
Qed.

End EscapeFacts.

(** ** The two patterns on the lines that are written *)

Section PatternFacts.

Lemma strip_prefix_app p r : strip_prefix p (p ++ r) = Some r.
Proof.
  induction p as [|a p IH]; simpl; [by destruct r|].
  by rewrite Ascii.eqb_refl.
Qed.

Lemma span_word_app nm rest :
  all_word nm = true ->
  match rest with
  | String a _ => Py.is_word a = false
  | EmptyString => True
  end ->
  span_word (nm ++ rest) = (nm, rest).
Proof.
  intros Hnm Hrest. induction nm as [|a nm IH]; simpl.
  - destruct rest as [|b rest]; [done|]. simpl. by rewrite Hrest.
  - simpl in Hnm. apply andb_true_iff in Hnm as [Ha Hnm].
    rewrite Ha, IH by done. done.
Qed.

Lemma span_word_not_word a r :
  Py.is_word a = false -> span_word (String a r) = ("", String a r).
Proof. intros H. simpl. by rewrite H. Qed.

Lemma all_word_no_newline s : all_word s = true -> no_newline s = true.
Proof.
  unfold no_newline. induction s as [|a s IH]; [done|]. simpl.
  intros H. apply andb_true_iff in H as [Ha Hs].
  destruct (Ascii.eqb_spec "010"%char a) as [<- | _]; [by vm_compute in Ha|].
  by apply IH.
Qed.

Lemma all_word_rstrip s : all_word s = true -> Py.rstrip s = s.
Proof.
  induction s as [|a s IH]; [done|]. simpl. intros H.
  apply andb_true_iff in H as [Ha Hs].
  assert (Py.isspace a = false) as ->.
  { revert Ha. unfold Py.is_word, Py.isspace, Py.in_range, Py.code.
    destruct (nat_of_ascii a) as [|n] eqn:E; [done|].
    intros Ha. apply not_true_is_false. intros Hsp.
    repeat (apply orb_true_iff in Ha as [Ha | Ha]);
      repeat (apply orb_true_iff in Hsp as [Hsp | Hsp]);
      repeat match goal with
             | H : _ && _ = true |- _ => apply andb_true_iff in H as [? ?]
             | H : (_ <=? _)%nat = true |- _ => apply Nat.leb_le in H
             | H : (_ =? _)%nat = true |- _ => apply Nat.eqb_eq in H
             end; lia. }
  simpl. by rewrite IH.
Qed.

(** A line that starts with [#] does not match the first pattern, and
    neither does the empty line. *)
Lemma _set_re_match_hash pfx r :
  all_word pfx = true -> _set_re_match pfx (String "#" r) = None.
Proof.
  intros Hp. unfold _set_re_match. destruct pfx as [|a p]; simpl; [done|].
  simpl in Hp. apply andb_true_iff in Hp as [Ha _].
  destruct (Ascii.eqb_spec a "#") as [-> | _]; [by vm_compute in Ha|done].
Qed.

Lemma _set_re_match_empty pfx : _set_re_match pfx "" = None.
Proof. unfold _set_re_match. by destruct pfx. Qed.

Lemma _unset_re_match_short pfx :
  _unset_re_match pfx "" = None /\ _unset_re_match pfx "#" = None.
Proof. unfold _unset_re_match. by destruct pfx. Qed.

Lemma _set_re_match_assign pfx nm val :
  all_word nm = true -> nm <> "" ->
  _set_re_match pfx (pfx ++ nm ++ "=" ++ val) = Some (nm, val).
Proof.
  intros Hnm Hne. unfold _set_re_match. rewrite strip_prefix_app. simpl.
  rewrite (span_word_app nm (String "=" val)) by done.
  destruct (String.eqb_spec nm ""); [done|]. done.
Qed.

Lemma _unset_re_match_unset pfx nm :
  all_word nm = true -> nm <> "" ->
  _unset_re_match pfx ("# " ++ pfx ++ nm ++ " is not set") = Some nm.
Proof.
  intros Hnm Hne. unfold _unset_re_match.
  replace ("# " ++ pfx ++ nm ++ " is not set")
    with (("# " ++ pfx) ++ nm ++ " is not set") by by rewrite append_assoc.
  rewrite strip_prefix_app. simpl.
  rewrite (span_word_app nm " is not set") by done.
  destruct (String.eqb_spec nm ""); [done|]. done.
Qed.

(** The lines of the header of a menu. *)
Lemma line_target_blank pfx :
  all_word pfx = true ->
  line_target pfx (with_newline "") = None
  /\ line_target pfx (with_newline "#") = None.
Proof.
  intros Hp. unfold line_target. split.
  - change (Py.rstrip (with_newline "")) with "".
    rewrite _set_re_match_empty. apply _unset_re_match_short.
  - change (Py.rstrip (with_newline "#")) with "#".
    rewrite _set_re_match_hash by done. apply _unset_re_match_short.
Qed.

(** What [rstrip] leaves of an assignment line. *)
Lemma rstrip_assign pfx nm rest :
  all_word pfx = true -> all_word nm = true ->
  Py.rstrip (pfx ++ nm ++ "=" ++ rest) = pfx ++ nm ++ "=" ++ Py.rstrip rest.
Proof.
  intros Hp Hn.
  replace (pfx ++ nm ++ "=" ++ rest) with (((pfx ++ nm) ++ "=") ++ rest)
    by by rewrite !append_assoc.
  rewrite rstrip_app_stable.
  - by rewrite !append_assoc.
  - by apply rstrip_app_char.
  - by destruct (pfx ++ nm).
Qed.

Lemma line_target_assign pfx nm rest :
  all_word pfx = true -> all_word nm = true -> nm <> "" ->
  line_target pfx (pfx ++ nm ++ "=" ++ rest) = Some nm.
Proof.
  intros Hp Hn Hne. unfold line_target.
  rewrite rstrip_assign, _set_re_match_assign by done. done.
Qed.

Lemma rstrip_unset pfx nm :
  all_word pfx = true -> all_word nm = true ->
  Py.rstrip ("# " ++ pfx ++ nm ++ " is not set" ++ newline)
  = "# " ++ pfx ++ nm ++ " is not set".
Proof.
  intros Hp Hn.
  replace ("# " ++ pfx ++ nm ++ " is not set" ++ newline)
    with (("# " ++ pfx ++ nm ++ " is not se") ++ "t" ++ newline)
    by (rewrite !append_assoc; done).
  replace ("# " ++ pfx ++ nm ++ " is not set")
    with (("# " ++ pfx ++ nm ++ " is not se") ++ "t")
    by (rewrite !append_assoc; done).
  set (a := "# " ++ pfx ++ nm ++ " is not se").
  replace (a ++ "t" ++ newline) with ((a ++ "t") ++ newline)
    by by rewrite append_assoc.
  apply rstrip_stable_app; [|done]. by apply rstrip_app_char.
Qed.

Lemma line_target_unset pfx nm :
  all_word pfx = true -> all_word nm = true -> nm <> "" ->
  line_target pfx ("# " ++ pfx ++ nm ++ " is not set" ++ newline) = Some nm.
Proof.
  intros Hp Hn Hne. unfold line_target. rewrite rstrip_unset by done.
  change ("# " ++ pfx ++ nm ++ " is not set")
    with (String "#" (" " ++ pfx ++ nm ++ " is not set")).
  rewrite _set_re_match_hash by done.
  by apply _unset_re_match_unset.
Qed.

End PatternFacts.

(** ** What [_get_config_strings] writes *)

Section WriterFacts.

Variable c : Config.
Variable value : oracle.

Lemma visit_all_app nds1 nds2 st :
  visit_all c value (nds1 ++ nds2) st
  = st' ← visit_all c value nds1 st; visit_all c value nds2 st'.
Proof.
  revert st. induction nds1 as [|nd nds1 IH]; intros st; simpl; [done|].
  destruct (visit_node c value nd st) as [st'|]; simpl; [apply IH|done].
Qed.

Lemma walk_tree_nodes :
  forall t st, walk_tree c value t st = visit_all c value (nodes_of t) st.
Proof.
  fix IH 1. intros [node children] st. simpl.
  destruct (visit_node c value node st) as [st1|]; simpl; [|done].
  revert st1. induction children as [|t' rest IHl]; intros st1; [done|].
  rewrite visit_all_app, <- IH.
  destruct (walk_tree c value t' st1) as [st2|]; simpl; [apply IHl|done].
Qed.

Lemma walk_forest_nodes l st :
  walk_forest c value l st = visit_all c value (nodes_of_forest l) st.
Proof.
  revert st. induction l as [|t l IH]; intros st; simpl; [done|].
  rewrite visit_all_app, walk_tree_nodes.
  destruct (visit_all c value (nodes_of t) st); simpl; [apply IH|done].
Qed.

(** The line of a symbol is [line_body] with a newline. *)
Lemma config_string_line s line :
  config_string c value s = Some (Some line) ->
  exists v, Symbol_value c value s = Some (v, true)
    /\ _type s <> UNKNOWN /\ env_var s = None
    /\ line = with_newline (line_body (config_prefix c) (name s) (_type s) v).
Proof.
  unfold config_string. intros H.
  destruct (env_var s); [done|].
  apply bind_Some in H as ([v w] & Hv & H). destruct w; [|done].
  simpl in H. exists v. split; [done|]. unfold with_newline, line_body.
  destruct (_type s); simplify_eq; repeat split; try done.
  - destruct (negb (v =? "n")); by rewrite !append_assoc.
  - by rewrite !append_assoc.
  - by rewrite !append_assoc.
  - rewrite !append_assoc. cbn [append]. by rewrite !append_assoc.
  - destruct (negb (v =? "n")); by rewrite !append_assoc.
Qed.

Lemma line_config_string s v :
  Symbol_value c value s = Some (v, true) -> _type s <> UNKNOWN ->
  env_var s = None ->
  config_string c value s
  = Some (Some (with_newline
                  (line_body (config_prefix c) (name s) (_type s) v))).
Proof.
  intros Hv Hty He. unfold config_string. rewrite He, Hv. simpl.
  unfold with_newline, line_body.
  destruct (_type s); try done.
  - destruct (negb (v =? "n")); by rewrite !append_assoc.
  - by rewrite !append_assoc.
  - by rewrite !append_assoc.
  - rewrite !append_assoc. cbn [append]. by rewrite !append_assoc.
  - destruct (negb (v =? "n")); by rewrite !append_assoc.
Qed.

(** The walk: every string that is added is the line of a symbol or the
    header of a menu or comment; every symbol that is met is marked as
    written, and the line of a symbol that is marked is among the
    strings. *)
Lemma visit_all_spec nds written out written' out' :
  visit_all c value nds (written, out) = Some (written', out') ->
  (forall s, In s out' -> In s out \/ written_string c value nds s)
  /\ (forall nm, nm ∈ written -> nm ∈ written')
  /\ (forall s, In s out -> In s out')
  /\ (forall node nm, In node nds -> item node = ItemSymbol nm ->
        nm ∈ written')
  /\ (forall nm line, nm ∈ written' -> nm ∉ written ->
        config_string c value (sym_of c nm) = Some (Some line) ->
        In line out').
Proof.
  revert written out.
  induction nds as [|node nds IH]; intros written out H; simpl in H.
  - simplify_eq. repeat split; try done. auto.
  - apply bind_Some in H as ([written1 out1] & Hv & H).
    destruct (IH _ _ H) as (I1 & I2 & I3 & I4 & I5). clear IH.
    assert ((forall s, In s out1 ->
               In s out \/ written_string c value [node] s)
            /\ (forall nm, nm ∈ written -> nm ∈ written1)
            /\ (forall s, In s out -> In s out1)
            /\ (forall nm, item node = ItemSymbol nm -> nm ∈ written1)
            /\ (forall nm line, nm ∈ written1 -> nm ∉ written ->
                  config_string c value (sym_of c nm) = Some (Some line) ->
                  In line out1)) as (V1 & V2 & V3 & V4 & V5).
    { unfold visit_node in Hv. destruct (item node) as [nm| | |] eqn:Hi.
      - destruct (bool_decide (nm ∈ written)) eqn:Hw.
        + simplify_eq. apply bool_decide_eq_true in Hw.
          repeat split; auto; try done. by intros ? [= <-].
        + apply bool_decide_eq_false in Hw.
          apply bind_Some in Hv as (cs & Hcs & Hv). simplify_eq.
          split; [|split; [|split; [|split]]].
          * intros s Hs. destruct cs as [line|]; [|by left].
            apply in_app_or in Hs as [Hs | [<- | []]]; [by left|right].
            destruct (config_string_line _ _ Hcs) as (v & Hv & Hty & _ & ->).
            left. exists node, nm, v. repeat split; try done. by left.
          * intros nm' Hnm'. set_solver.
          * intros s Hs. destruct cs; [|done]. apply in_or_app. by left.
          * intros nm' [= <-]. set_solver.
          * intros nm' line Hin Hnin Hcs'.
            apply elem_of_union in Hin as [Hin | Hin]; [|done].
            apply elem_of_singleton in Hin as ->.
            rewrite Hcs in Hcs'. simplify_eq. apply in_or_app. right.
            by left.
      - simplify_eq. repeat split; auto; try done.
      - apply bind_Some in Hv as (d & _ & Hv).
        apply bind_Some in Hv as (shown & _ & Hv).
        destruct shown; [|simplify_eq; repeat split; auto; done].
        apply bind_Some in Hv as ([title cond] & Hp & Hv). simplify_eq.
        split; [|repeat split; auto; try done].
        * intros s Hs. apply in_app_or in Hs as [Hs | [<- | []]]; [by left|].
          right. right. exists node, title, cond.
          repeat split; auto. by left.
        * intros s Hs. apply in_or_app. by left.
      - apply bind_Some in Hv as (d & _ & Hv).
        destruct d; [simplify_eq; repeat split; auto; done| |];
          apply bind_Some in Hv as ([title cond] & Hp & Hv); simplify_eq;
          (split; [|repeat split; auto; try done]);
          try (intros s Hs; apply in_or_app; by left);
          intros s Hs; (apply in_app_or in Hs as [Hs | [<- | []]]; [by left|]);
          right; right; exists node, title, cond;
          repeat split; auto; by left. }
    assert (forall s, written_string c value [node] s ->
              written_string c value (node :: nds) s) as W1.
    { intros s [(nd & nm & v & [<- | []] & ?) | (nd & t & cd & [<- | []] & ?)];
        [left; exists node, nm, v | right; exists node, t, cd];
        split; try done; by left. }
    assert (forall s, written_string c value nds s ->
              written_string c value (node :: nds) s) as W2.
    { intros s [(nd & nm & v & Hin & ?) | (nd & t & cd & Hin & ?)];
        [left; exists nd, nm, v | right; exists nd, t, cd];
        split; try done; by right. }
    split; [|split; [|split; [|split]]].
    + intros s Hs. destruct (I1 s Hs) as [Hs1 | Hs1]; [|right; auto].
      destruct (V1 s Hs1); [by left|right; auto].
    + auto.
    + auto.
    + intros nd nm [<- | Hin] Hi; [|by eapply I4].
      apply I2. by apply V4.
    + intros nm line Hin Hnin Hcs.
      destruct (decide (nm ∈ written1)) as [Hw1 | Hw1].
      * apply I3. by eapply V5.
      * by eapply I5.
Qed.

End WriterFacts.

(** ** What [load_config] reads *)

Section LoaderFacts.

Lemma sym_of_alter_ne c f n nm :
  n <> nm -> sym_of (with_syms c (alter f n (syms c))) nm = sym_of c nm.
Proof. intros H. unfold sym_of. simpl. by rewrite lookup_alter_ne. Qed.

(** An assignment to one symbol keeps the user values of the others, and
    the types of all. *)
Lemma _set_value_no_invalidate_other c n value b nm :
  n <> nm ->
  user_value (sym_of (fst (_set_value_no_invalidate c n value b)) nm)
  = user_value (sym_of c nm).
Proof.
  intros Hne. unfold _set_value_no_invalidate.
  destruct (negb _); [done|]. simpl.
  assert (forall l,
    sym_of (with_choices (with_syms c
              (alter (set_user_value (Some value)) n (syms c))) l) nm
    = sym_of c nm) as Hc
    by (intros l; unfold sym_of; simpl; by rewrite lookup_alter_ne).
  destruct (choice (sym_of c n));
    [|by rewrite sym_of_alter_ne].
  destruct (is_tri_type _); [|by rewrite sym_of_alter_ne].
  destruct (value =? "y"); [by rewrite Hc|].
  destruct (value =? "m"); [by rewrite Hc|]. by rewrite sym_of_alter_ne.
Qed.

Lemma _set_value_no_invalidate_syms c n value b :
  syms (fst (_set_value_no_invalidate c n value b)) = syms c
  \/ syms (fst (_set_value_no_invalidate c n value b))
     = alter (set_user_value (Some value)) n (syms c).
Proof.
  unfold _set_value_no_invalidate.
  destruct (negb _); [by left|]. right. simpl.
  destruct (choice (sym_of c n)); [|done].
  destruct (is_tri_type _); [|done].
  destruct (value =? "y"); [done|]. by destruct (value =? "m").
Qed.

Lemma same_types_refl c : same_types c c.
Proof. done. Qed.

Lemma _set_value_no_invalidate_types c c1 n value b :
  same_types c c1 ->
  same_types c (fst (_set_value_no_invalidate c1 n value b)).
Proof.
  intros [Hp Ht]. split.
  - by rewrite (proj1 (_set_value_no_invalidate_captured c1 n value b)).
  - intros k.
    destruct (_set_value_no_invalidate_syms c1 n value b) as [-> | ->];
      [done|].
    rewrite <- Ht. destruct (decide (n = k)) as [<- | Hne].
    + rewrite lookup_alter_eq. by destruct (syms c1 !! n).
    + by rewrite lookup_alter_ne.
Qed.

(** A line whose target is another symbol, or none, keeps the user value
    of the symbol. *)
Lemma load_line_other filename c1 log linenr line nm :
  line_target (config_prefix c1) line <> Some nm ->
  user_value (sym_of (fst (load_line filename (c1, log) (linenr, line))) nm)
  = user_value (sym_of c1 nm).
Proof.
  unfold line_target, load_line. intros Ht.
  assert (forall n val log', n <> nm ->
    user_value
      (sym_of
         (fst (let '(c', ws) := _set_value_no_invalidate c1 n val true in
               (c', (log' ++ ws)%list))) nm)
    = user_value (sym_of c1 nm)) as Hset.
  { intros n val log' Hne.
    pose proof (_set_value_no_invalidate_other c1 n val true nm Hne) as H.
    by destruct (_set_value_no_invalidate c1 n val true). }
  destruct (_set_re_match _ _) as [[n val]|].
  - assert (n <> nm) as Hne by congruence.
    destruct (syms c1 !! n); [|done].
    destruct (_ && (_ || _)); [done|]. by apply Hset.
  - destruct (_unset_re_match _ _) as [n|]; [|done].
    assert (n <> nm) as Hne by congruence.
    destruct (syms c1 !! n); [|done]. by apply Hset.
Qed.

Lemma load_line_types filename c st numbered :
  same_types c (fst st) ->
  same_types c (fst (load_line filename st numbered)).
Proof.
  destruct st as [c1 log], numbered as [linenr line]. simpl. intros Hs.
  unfold load_line.
  assert (forall n val log',
    same_types c
      (fst (let '(c', ws) := _set_value_no_invalidate c1 n val true in
            (c', (log' ++ ws)%list)))) as Hset.
  { intros n val log'.
    pose proof (_set_value_no_invalidate_types c c1 n val true Hs) as H.
    by destruct (_set_value_no_invalidate c1 n val true). }
  destruct (_set_re_match _ _) as [[n val]|].
  - destruct (syms c1 !! n); [|done].
    destruct (_ && (_ || _)); [done|]. apply Hset.
  - destruct (_unset_re_match _ _) as [n|]; [|done].
    destruct (syms c1 !! n); [|done]. apply Hset.
Qed.

(** An assignment of a value that is valid for the type is stored. *)
Lemma _set_value_no_invalidate_self c1 nm s1 value b :
  syms c1 !! nm = Some s1 ->
  valid_for_type (_type s1) value = true ->
  user_value (sym_of (fst (_set_value_no_invalidate c1 nm value b)) nm)
  = Some value.
Proof.
  intros Hnm Hok. unfold _set_value_no_invalidate.
  assert (sym_of c1 nm = s1) as -> by (unfold sym_of; by rewrite Hnm).
  rewrite Hok. simpl.
  assert (forall l,
    user_value
      (sym_of (with_choices (with_syms c1
                 (alter (set_user_value (Some value)) nm (syms c1))) l) nm)
    = Some value) as Hc
    by (intros l; unfold sym_of; simpl; by rewrite lookup_alter_eq, Hnm).
  assert (user_value
            (sym_of (with_syms c1
                       (alter (set_user_value (Some value)) nm (syms c1))) nm)
          = Some value) as Hc0
    by (unfold sym_of; simpl; by rewrite lookup_alter_eq, Hnm).
  destruct (choice s1); [|done].
  destruct (is_tri_type _); [|done].
  destruct (value =? "y"); [by rewrite Hc|].
  destruct (value =? "m"); [by rewrite Hc|]. done.
Qed.

End LoaderFacts.

Section LoadOwnLine.

Variable filename : string.
Variable c1 : Config.
Variable log : list warning.
Variable linenr : nat.

Lemma assign_self nm s1 val log' :
  syms c1 !! nm = Some s1 ->
  valid_for_type (_type s1) val = true ->
  user_value
    (sym_of
       (fst (let '(c', ws) := _set_value_no_invalidate c1 nm val true in
             (c', (log' ++ ws)%list))) nm)
  = Some val.
Proof.
  intros Hnm Hok.
  pose proof (_set_value_no_invalidate_self c1 nm s1 val true Hnm Hok) as H.
  by destruct (_set_value_no_invalidate c1 nm val true).
Qed.

Lemma load_line_set line nm val s1 :
  _set_re_match (config_prefix c1) (Py.rstrip line) = Some (nm, val) ->
  syms c1 !! nm = Some s1 -> _type s1 <> STRING ->
  valid_for_type (_type s1) val = true ->
  user_value (sym_of (fst (load_line filename (c1, log) (linenr, line))) nm)
  = Some val.
Proof.
  intros Hm Hnm Hty Hok. unfold load_line. rewrite Hm, Hnm.
  assert (sym_type_eqb (_type s1) STRING = false) as ->
    by (by destruct (_type s1)).
  simpl. by eapply assign_self.
Qed.

Lemma startswith_dquote r : Py.startswith (String dquote "") (String dquote r) = true.
Proof.
  unfold Py.startswith. simpl. destruct (ascii_dec dquote dquote); [|done].
  by destruct r.
Qed.

Lemma length_app_char s x : String.length (s ++ String x "") = S (String.length s).
Proof. induction s as [|a s IH]; simpl; [done|]. by rewrite IH. Qed.

Lemma load_line_set_string line nm v s1 :
  _set_re_match (config_prefix c1) (Py.rstrip line)
  = Some (nm, String dquote (escape v ++ String dquote "")) ->
  syms c1 !! nm = Some s1 -> _type s1 = STRING ->
  user_value (sym_of (fst (load_line filename (c1, log) (linenr, line))) nm)
  = Some v.
Proof.
  intros Hm Hnm Hty. unfold load_line. rewrite Hm, Hnm, Hty.
  rewrite startswith_dquote.
  assert ((String.length (String dquote (escape v ++ String dquote "")) <? 2)%nat
          = false) as ->.
  { simpl. rewrite length_app_char. done. }
  assert (last_char (String dquote (escape v ++ String dquote ""))
          = Some dquote) as ->.
  { change (String dquote (escape v ++ String dquote ""))
      with (String dquote (escape v) ++ String dquote "").
    apply last_char_app_char. }
  rewrite bool_decide_eq_true_2 by done. simpl.
  rewrite unescape_escape.
  eapply assign_self; [done|]. by rewrite Hty.
Qed.

Lemma load_line_unset line nm s1 :
  _set_re_match (config_prefix c1) (Py.rstrip line) = None ->
  _unset_re_match (config_prefix c1) (Py.rstrip line) = Some nm ->
  syms c1 !! nm = Some s1 ->
  valid_for_type (_type s1) "n" = true ->
  user_value (sym_of (fst (load_line filename (c1, log) (linenr, line))) nm)
  = Some "n".
Proof.
  intros Hm Hu Hnm Hok. unfold load_line. rewrite Hm, Hu, Hnm.
  by eapply assign_self.
Qed.

(** The line that was written for a symbol gives the symbol its value
    back, as the user value. *)
Lemma load_line_own c nm s v :
  same_types c c1 ->
  all_word (config_prefix c) = true -> all_word nm = true -> nm <> "" ->
  syms c !! nm = Some s ->
  match _type s with
  | BOOL => v = "n" \/ v = "y"
  | TRISTATE => v = "n" \/ v = "m" \/ v = "y"
  | INT | HEX => loadable (_type s) v
  | STRING => True
  | UNKNOWN => False
  end ->
  user_value
    (sym_of
       (fst (load_line filename (c1, log)
               (linenr,
                with_newline (line_body (config_prefix c) nm (_type s) v))))
       nm)
  = Some v.
Proof.
  intros [Hp Ht] Hpw Hnw Hne Hnm Hv.
  assert (exists s1, syms c1 !! nm = Some s1 /\ _type s1 = _type s)
    as (s1 & Hnm1 & Hty1).
  { specialize (Ht nm). rewrite Hnm in Ht.
    destruct (syms c1 !! nm) as [s1|]; [|done]. exists s1.
    split; [done|]. simpl in Ht. congruence. }
  rewrite <- Hp in *.
  assert (forall val,
    Py.rstrip val = val ->
    _set_re_match (config_prefix c1)
      (Py.rstrip (with_newline (config_prefix c1 ++ nm ++ "=" ++ val)))
    = Some (nm, val)) as Hset.
  { intros val Hval. unfold with_newline. rewrite !append_assoc.
    change (("=" ++ val) ++ newline) with ("=" ++ val ++ newline).
    rewrite rstrip_assign by done.
    rewrite (rstrip_stable_app val newline) by done.
    by apply _set_re_match_assign. }
  assert (_set_re_match (config_prefix c1)
            (Py.rstrip (with_newline
               ("# " ++ config_prefix c1 ++ nm ++ " is not set"))) = None
          /\ _unset_re_match (config_prefix c1)
               (Py.rstrip (with_newline
                  ("# " ++ config_prefix c1 ++ nm ++ " is not set")))
             = Some nm) as [Hun1 Hun2].
  { unfold with_newline. rewrite !append_assoc.
    rewrite rstrip_unset by done. split.
    - change ("# " ++ config_prefix c1 ++ nm ++ " is not set")
        with (String "#" (" " ++ config_prefix c1 ++ nm ++ " is not set")).
      by apply _set_re_match_hash.
    - by apply _unset_re_match_unset. }
  assert (negb ("n" =? "n") = false /\ negb ("m" =? "n") = true
          /\ negb ("y" =? "n") = true) as (En & Em & Ey) by done.
  unfold line_body. destruct (_type s) eqn:Hty.
  - destruct Hv as [-> | ->]; rewrite ?En, ?Em, ?Ey.
    + eapply load_line_unset; try done. by rewrite Hty1.
    + eapply load_line_set; try done; [by apply Hset| |]; by rewrite Hty1.
  - destruct Hv as [Hok Hr].
    eapply load_line_set; try done; [by apply Hset| |]; by rewrite Hty1.
  - destruct Hv as [Hok Hr].
    eapply load_line_set; try done; [by apply Hset| |]; by rewrite Hty1.
  - eapply load_line_set_string; try done. apply Hset.
    change (String dquote (escape v ++ String dquote ""))
      with (String dquote (escape v) ++ String dquote "").
    by apply rstrip_app_char.
  - destruct Hv as [-> | [-> | ->]]; rewrite ?En, ?Em, ?Ey.
    + eapply load_line_unset; try done. by rewrite Hty1.
    + eapply load_line_set; try done; [by apply Hset| |]; by rewrite Hty1.
    + eapply load_line_set; try done; [by apply Hset| |]; by rewrite Hty1.
  - done.
Qed.

End LoadOwnLine.

(** ** The round trip *)

Section RoundTrip.

Lemma Symbol_value_bool c value s v w :
  _type s = BOOL -> Symbol_value c value s = Some (v, w) ->
  v = "n" \/ v = "y".
Proof.
  intros Hty H. unfold Symbol_value in H. rewrite Hty in H.
  apply bind_Some in H as (vis & _ & H).
  apply bind_Some in H as ([val w0] & _ & H).
  apply bind_Some in H as (val' & Hp & H). simplify_eq.
  unfold promote_val, Symbol_type in Hp. rewrite Hty in Hp. simpl in Hp.
  destruct val; simplify_eq; auto.
Qed.

Lemma unset_values_types c : same_types c (unset_values c).
Proof.
  split; [done|]. intros n. unfold unset_values. simpl.
  induction (defined_syms c) as [|nm l IH]; simpl; [done|].
  rewrite <- IH. destruct (decide (nm = n)) as [<- | Hne].
  - rewrite lookup_alter_eq. by destruct (foldr _ _ _ !! nm).
  - by rewrite lookup_alter_ne.
Qed.

Lemma concat_strings_app l1 l2 :
  concat_strings (l1 ++ l2) = concat_strings l1 ++ concat_strings l2.
Proof.
  induction l1 as [|s l1 IH]; simpl; [done|].
  by rewrite IH, append_assoc.
Qed.

(** The header of a menu is not the line of a symbol. *)
Lemma menu_header_not_line title b :
  no_newline b = true -> menu_header title <> with_newline b.
Proof.
  unfold menu_header, with_newline. intros Hb H.
  destruct b as [|a b].
  - simpl in H. discriminate.
  - simpl in H. injection H as <- _. done.
Qed.

Lemma menu_header_bodies title :
  menu_header title
  = concat_strings (with_newline <$> [""; "#"; "# " ++ title; "#"]).
Proof.
  unfold menu_header, with_newline. simpl. by rewrite !append_assoc.
Qed.

(** The lines of the file after those of the header: the bodies of the
    strings, each with its newline. *)
Lemma strings_bodies (Q : string -> Prop) (L : string) strings :
  Forall (fun s => exists bs,
            s = concat_strings (with_newline <$> bs)
            /\ Forall Q bs
            /\ (s = L -> In L (with_newline <$> bs))) strings ->
  exists bs, concat_strings strings = concat_strings (with_newline <$> bs)
    /\ Forall Q bs
    /\ (In L strings -> In L (with_newline <$> bs)).
Proof.
  induction 1 as [|s strings (bs & -> & HQ & HL) _ (bs' & IH1 & IH2 & IH3)].
  - exists []. by repeat split.
  - exists (bs ++ bs')%list. split; [|split].
    + simpl. rewrite IH1, fmap_app, concat_strings_app. done.
    + by apply Forall_app.
    + rewrite fmap_app. intros [Hs | Hs]; apply in_or_app; auto.
Qed.

Lemma foldl_load_line filename c nm v L lines :
  forall st,
    same_types c (fst st) ->
    Forall (fun p => snd p = L
                     \/ line_target (config_prefix c) (snd p) <> Some nm)
      lines ->
    (forall c1 log i, same_types c c1 ->
       user_value (sym_of (fst (load_line filename (c1, log) (i, L))) nm)
       = Some v) ->
    user_value (sym_of (fst st) nm) = Some v \/ In L (snd <$> lines) ->
    user_value (sym_of (fst (foldl (load_line filename) st lines)) nm)
    = Some v.
Proof.
  induction lines as [|[i l] lines IH]; intros [c1 log] Hs Hall Hown Hin.
  - simpl in *. by destruct Hin.
  - cbn [foldl]. apply Forall_cons in Hall as [Hl Hall].
    apply IH; try done.
    + by apply load_line_types.
    + cbn [snd fst] in Hl, Hs. destruct Hl as [-> | Hl].
      * left. by apply Hown.
      * destruct Hin as [Hin | [Hin | Hin]].
        -- left. rewrite load_line_other; [done|].
           by rewrite (proj1 Hs).
        -- cbn [snd] in Hin. subst l. left. by apply Hown.
        -- by right.
Qed.

End RoundTrip.

Section RoundTripMain.

Variable c : Config.
Variable value : oracle.
Variable header : string.
Hypothesis Hok : round_trip_ok c value header.

Variable nm v : string.
Variable node0 : MenuNode.
Hypothesis Hnode : In node0 (all_nodes c).
Hypothesis Hitem : item node0 = ItemSymbol nm.
Hypothesis Hval : Symbol_value c value (sym_of c nm) = Some (v, true).

Let pfx := config_prefix c.
Let L := with_newline (line_body pfx nm (_type (sym_of c nm)) v).

Lemma no_newline_line_body nm' v' t :
  all_word nm' = true -> no_newline v' = true ->
  no_newline (line_body pfx nm' t v') = true.
Proof.
  intros Hn Hv.
  pose proof (all_word_no_newline _ (rt_prefix _ _ _ Hok)) as Hp.
  fold pfx in Hp.
  pose proof (all_word_no_newline _ Hn) as Hn'.
  assert (no_newline (pfx ++ nm' ++ "=" ++ v') = true) as H1
    by (rewrite !no_newline_app, Hp, Hn', Hv; done).
  assert (no_newline ("# " ++ pfx ++ nm' ++ " is not set") = true) as H2
    by (rewrite !no_newline_app, Hp, Hn'; done).
  assert (no_newline
            (pfx ++ nm' ++ "=" ++ String dquote (escape v' ++ String dquote ""))
          = true) as H3.
  { rewrite !no_newline_app, Hp, Hn'. simpl.
    change (String dquote (escape v' ++ String dquote ""))
      with (String dquote "" ++ escape v' ++ String dquote "").
    rewrite !no_newline_app. unfold no_newline at 2.
    rewrite escape_esc, contains_esc by done.
    unfold no_newline in Hv. rewrite Hv. done. }
  unfold line_body. destruct t; try done; by destruct (negb _).
Qed.

Lemma line_target_line_body nm' v' t :
  all_word nm' = true -> nm' <> "" ->
  line_target pfx (with_newline (line_body pfx nm' t v')) = Some nm'.
Proof.
  intros Hn Hne. pose proof (rt_prefix _ _ _ Hok) as Hp. fold pfx in Hp.
  assert (forall val,
            line_target pfx (with_newline (pfx ++ nm' ++ "=" ++ val))
            = Some nm') as H1.
  { intros val. unfold with_newline. rewrite !append_assoc.
    change (("=" ++ val) ++ newline) with ("=" ++ val ++ newline).
    by apply line_target_assign. }
  assert (line_target pfx
            (with_newline ("# " ++ pfx ++ nm' ++ " is not set"))
          = Some nm') as H2.
  { unfold with_newline. rewrite !append_assoc.
    by apply line_target_unset. }
  unfold line_body. destruct t; try done; by destruct (negb _).
Qed.

(** Every string that is written is made of lines that are the line of
    the symbol or have another target, or none. *)
Lemma written_string_bodies s :
  written_string c value (all_nodes c) s ->
  exists bs,
    s = concat_strings (with_newline <$> bs)
    /\ Forall (fun b => no_newline b = true
                        /\ (with_newline b = L
                            \/ line_target pfx (with_newline b) <> Some nm))
         bs
    /\ (s = L -> In L (with_newline <$> bs)).
Proof.
  intros [(nd & nm' & v' & Hin & Hi & Hv' & Hty & ->)
         | (nd & title & cond & Hin & Hi & Hp & ->)].
  - destruct (rt_symbols _ _ _ Hok nd nm' Hin Hi)
      as (Hw & Hne & s' & Hs' & Hname).
    assert (sym_of c nm' = s') as Hsym
      by (unfold sym_of; by rewrite Hs').
    rewrite Hsym, Hname in *. rewrite <- Hsym in *. fold pfx.
    exists [line_body pfx nm' (_type (sym_of c nm')) v'].
    split; [simpl; by rewrite append_nil_r|]. split.
    + constructor; [|done]. split.
      * apply no_newline_line_body; [done|].
        by eapply (rt_values _ _ _ Hok).
      * destruct (decide (nm' = nm)) as [-> | Hneq].
        -- left. rewrite Hval in Hv'. by simplify_eq.
        -- right. rewrite line_target_line_body by done. congruence.
    + intros <-. by left.
  - destruct (rt_titles _ _ _ Hok nd title cond Hin Hi Hp) as [Ht Htt].
    fold pfx in Htt.
    destruct (line_target_blank pfx (rt_prefix _ _ _ Hok)) as [Hb1 Hb2].
    exists [""; "#"; "# " ++ title; "#"].
    split; [apply menu_header_bodies|]. split.
    + assert (line_target pfx (with_newline ("# " ++ title)) = None) as Hb3.
      { unfold with_newline. by rewrite append_assoc. }
      apply Forall_cons. split; [split; [done|right; by rewrite Hb1]|].
      apply Forall_cons. split; [split; [done|right; by rewrite Hb2]|].
      apply Forall_cons. split.
      { split; [|right; by rewrite Hb3].
        by rewrite no_newline_app, Ht. }
      apply Forall_cons. split; [split; [done|right; by rewrite Hb2]|].
      done.
    + intros H. exfalso. unfold L in H.
      destruct (rt_symbols _ _ _ Hok node0 nm Hnode Hitem)
        as (Hw & Hne & s' & Hs' & Hname).
      apply (menu_header_not_line title
               (line_body pfx nm (_type (sym_of c nm)) v)); [|exact H].
      apply no_newline_line_body; [exact Hw|].
      exact (rt_values _ _ _ Hok node0 nm v Hnode Hitem Hval).
Qed.

End RoundTripMain.


Import Examples.

Lemma bool_default_y_round_trip_ok :
  round_trip_ok bool_default_y (value_of 3 bool_default_y)
    ("# header" ++ newline).
Proof.
  split.
  - reflexivity.
  - right. reflexivity.
  - vm_compute. repeat constructor.
  - intros node nm [<- | []] [= <-]. split; [reflexivity|].
    split; [done|]. eexists. split; reflexivity.
  - intros node title cond [<- | []] [H | H]; discriminate H.
  - intros node nm v [<- | []] [= <-] H.
    vm_compute in H. by injection H as <-.
Qed.




(** * Further properties of the expression and value engine *)

Section ExprFacts.

Variable c : Config.
Variable value : oracle.

Lemma is_str_eq s e : is_str s e = true -> e = EStr s.
Proof.
  destruct e; simpl; try discriminate.
  intros H. apply String.eqb_eq in H. by subst.
Qed.

Lemma eval_EStr_y : eval_expr c value (Some (EStr "y")) = Some Y.
Proof. reflexivity. Qed.

Lemma eval_EAnd_min e1 e2 a b :
  eval_expr c value (Some e1) = Some a ->
  eval_expr c value (Some e2) = Some b ->
  eval_expr c value (Some (EAnd e1 e2)) = Some (Tri.min a b).
Proof.
  unfold eval_expr. simpl. intros -> ->. by destruct a, b.
Qed.

Lemma eval_EOr_max e1 e2 a b :
  eval_expr c value (Some e1) = Some a ->
  eval_expr c value (Some e2) = Some b ->
  eval_expr c value (Some (EOr e1 e2)) = Some (Tri.max a b).
Proof.
  unfold eval_expr. simpl. intros -> ->. by destruct a, b.
Qed.

End ExprFacts.

(** [_make_and] and [_make_or] keep the meaning of the expression they
    simplify: the result of [_make_and] evaluates to the minimum of the
    two conditions, and the result of [_make_or] to their maximum, a
    missing condition counting as "y". *)
Theorem _make_and_or_sound (c : Config) (value : oracle)
  (e1 e2 : option expr) (a b : tri) :
  eval_expr c value e1 = Some a ->
  eval_expr c value e2 = Some b ->
  eval_expr c value (_make_and e1 e2) = Some (Tri.min a b)
  /\ eval_expr c value (Some (_make_or e1 e2)) = Some (Tri.max a b).
Proof.
  intros H1 H2. split.
  - unfold _make_and. destruct e1 as [x1|].
    + destruct (is_str "y" x1) eqn:E1.
      { apply is_str_eq in E1. subst x1. rewrite eval_EStr_y in H1.
        injection H1 as <-. rewrite H2. by destruct b. }
      destruct e2 as [x2|].
      * destruct (is_str "y" x2) eqn:E2.
        { apply is_str_eq in E2. subst x2. rewrite eval_EStr_y in H2.
          injection H2 as <-. rewrite H1. by destruct a. }
        by apply eval_EAnd_min.
      * simpl in H2. injection H2 as <-. rewrite H1. by destruct a.
    + simpl in H1. injection H1 as <-. rewrite H2. by destruct b.
  - unfold _make_or. destruct e1 as [x1|], e2 as [x2|].
    + destruct (is_str "y" x1) eqn:E1.
      { apply is_str_eq in E1. subst x1. rewrite eval_EStr_y in H1.
        injection H1 as <-. simpl. by destruct b. }
      destruct (is_str "y" x2) eqn:E2.
      { apply is_str_eq in E2. subst x2. rewrite eval_EStr_y in H2.
        injection H2 as <-. simpl. by destruct a. }
      simpl. destruct (is_str "n" x1) eqn:E3.
      { apply is_str_eq in E3. subst x1. simpl in H1.
        injection H1 as <-. rewrite H2. by destruct b. }
      by apply eval_EOr_max.
    + simpl in H2. injection H2 as <-. by destruct a.
    + simpl in H1. injection H1 as <-. by destruct b.
    + simpl in H1. injection H1 as <-. by destruct b.
Qed.

Lemma _make_and_or_sound_witness :
  eval_expr Examples.visible_tristate (fun _ => Some "m")
    (_make_and (Some (ESym "S")) (Some (EStr "y"))) = Some (Tri.min M Y)
  /\ eval_expr Examples.visible_tristate (fun _ => Some "m")
       (Some (_make_or (Some (ESym "S")) (Some (EStr "y"))))
     = Some (Tri.max M Y).
Proof.
  apply (_make_and_or_sound Examples.visible_tristate (fun _ => Some "m")
           (Some (ESym "S")) (Some (EStr "y")) M Y); reflexivity.
Defined.

(** ** The symbols of an expression *)

Section ExprSyms.

Variable c : Config.

Lemma _expr_syms_rec_app e res :
  _expr_syms_rec e res = (res ++ _expr_syms_rec e [])%list.
Proof.
  revert res. induction e as [nm|s|e1 IH1 e2 IH2|e1 IH1 e2 IH2|e1 IH1
                              |rel e1 _ e2 _]; intros res; simpl.
  - done.
  - by rewrite app_nil_r.
  - rewrite (IH2 (_expr_syms_rec e1 res)), (IH2 (_expr_syms_rec e1 [])).
    rewrite (IH1 res). by rewrite app_assoc.
  - rewrite (IH2 (_expr_syms_rec e1 res)), (IH2 (_expr_syms_rec e1 [])).
    rewrite (IH1 res). by rewrite app_assoc.
  - apply IH1.
  - destruct e1, e2; simpl; rewrite ?app_nil_r, <- ?app_assoc; done.
Qed.

Lemma _type_and_val_reads (o1 o2 : oracle) e :
  (forall nm, e = ESym nm -> o1 nm = o2 nm) ->
  _type_and_val c o1 e = _type_and_val c o2 e.
Proof.
  intros H. destruct e; simpl; try done. by rewrite (H _ eq_refl).
Qed.

Lemma _eval_expr_rec_reads (o1 o2 : oracle) e :
  (forall nm, nm ∈ _expr_syms_rec e [] -> o1 nm = o2 nm) ->
  _eval_expr_rec c o1 e = _eval_expr_rec c o2 e.
Proof.
  induction e as [nm|s|e1 IH1 e2 IH2|e1 IH1 e2 IH2|e1 IH1
                  |rel e1 _ e2 _]; intros H; simpl.
  - rewrite (H nm); [done|]. simpl. set_solver.
  - done.
  - simpl in H. rewrite _expr_syms_rec_app in H.
    rewrite IH1, IH2; [done| |]; intros nm Hnm; apply H; set_solver.
  - simpl in H. rewrite _expr_syms_rec_app in H.
    rewrite IH1, IH2; [done| |]; intros nm Hnm; apply H; set_solver.
  - by rewrite IH1.
  - unfold eval_relation.
    rewrite (_type_and_val_reads o1 o2 e1), (_type_and_val_reads o1 o2 e2);
      [done| |]; intros nm ->; apply H; simpl.
    + destruct e1; set_solver.
    + destruct e2; set_solver.
Qed.

End ExprSyms.

(** [_expr_syms] lists every symbol that the evaluation of an expression
    reads: two assignments of values that agree on the symbols listed give
    the same result (or both give none). *)
Theorem eval_expr_reads_expr_syms (c : Config) (o1 o2 : oracle)
  (e : option expr) :
  (forall nm, In nm (_expr_syms e []) -> o1 nm = o2 nm) ->
  eval_expr c o1 e = eval_expr c o2 e.
Proof.
  destruct e as [e|]; [|done]. simpl. intros H.
  apply _eval_expr_rec_reads. intros nm Hnm. apply H.
  by apply list_elem_of_In.
Qed.

Lemma eval_expr_reads_expr_syms_witness :
  eval_expr Examples.visible_tristate
    (fun nm => if String.eqb nm "S" then Some "m" else Some "y")
    (Some (EAnd (ESym "S") (ENot (ESym "S"))))
  = eval_expr Examples.visible_tristate
      (fun nm => if String.eqb nm "S" then Some "m" else None)
      (Some (EAnd (ESym "S") (ENot (ESym "S")))).
Proof.
  apply (eval_expr_reads_expr_syms Examples.visible_tristate
           (fun nm => if String.eqb nm "S" then Some "m" else Some "y")
           (fun nm => if String.eqb nm "S" then Some "m" else None)).
  simpl. intros nm [<- | [<- | []]]; reflexivity.
Defined.

(** ** Dependence *)

Section DependsOn.

Variable c : Config.
Variable value : oracle.
Variable sym : string.
Hypothesis Hn : value sym = Some "n".

Lemma eval_sym_n : _eval_expr_rec c value (ESym sym) = Some N.
Proof.
  simpl. rewrite Hn. by destruct (is_tri_type _).
Qed.

Lemma int_n base : (base = 0 \/ base = 10 \/ base = 16)%Z -> Py.int "n" base = None.
Proof. intros [-> | [-> | ->]]; reflexivity. Qed.

Lemma _TYPE_TO_BASE_cases t :
  (_TYPE_TO_BASE t = 0 \/ _TYPE_TO_BASE t = 10 \/ _TYPE_TO_BASE t = 16)%Z.
Proof. destruct t; simpl; auto. Qed.

Lemma eval_relation_sym_n rel op1 op2 :
  (rel = _EQUAL \/ rel = _UNEQUAL) ->
  _eq_to_sym rel op1 op2 = Some sym ->
  eval_relation c value rel op1 op2 = Some N.
Proof.
  intros Hrel H. unfold _eq_to_sym in H.
  assert (forall t s, (s = "m" \/ s = "y") ->
            (if sym_type_eqb t STRING && true
             then Some (if apply_relation _EQUAL (_strcmp "n" s) then Y else N)
             else match Py.int "n" (_TYPE_TO_BASE t), Py.int s 0 with
                  | Some n1, Some n2 =>
                      Some (if apply_relation _EQUAL (n1 - n2) then Y else N)
                  | _, _ =>
                      Some (if apply_relation _EQUAL (_strcmp "n" s)
                            then Y else N)
                  end) = Some N) as Heq1.
  { intros t s Hs. destruct (sym_type_eqb t STRING); simpl.
    - by destruct Hs as [-> | ->].
    - rewrite (int_n _ (_TYPE_TO_BASE_cases t)).
      by destruct Hs as [-> | ->]. }
  assert (forall t s, (s = "m" \/ s = "y") ->
            (if true && sym_type_eqb t STRING
             then Some (if apply_relation _EQUAL (_strcmp s "n") then Y else N)
             else match Py.int s 0, Py.int "n" (_TYPE_TO_BASE t) with
                  | Some n1, Some n2 =>
                      Some (if apply_relation _EQUAL (n1 - n2) then Y else N)
                  | _, _ =>
                      Some (if apply_relation _EQUAL (_strcmp s "n")
                            then Y else N)
                  end) = Some N) as Heq2.
  { intros t s Hs. destruct (sym_type_eqb t STRING); simpl.
    - by destruct Hs as [-> | ->].
    - rewrite (int_n _ (_TYPE_TO_BASE_cases t)).
      by destruct Hs as [-> | ->]. }
  assert (forall t,
            (if sym_type_eqb t STRING && true
             then Some (if apply_relation _UNEQUAL (_strcmp "n" "n")
                        then Y else N)
             else match Py.int "n" (_TYPE_TO_BASE t), Py.int "n" 0 with
                  | Some n1, Some n2 =>
                      Some (if apply_relation _UNEQUAL (n1 - n2) then Y else N)
                  | _, _ =>
                      Some (if apply_relation _UNEQUAL (_strcmp "n" "n")
                            then Y else N)
                  end) = Some N) as Hne1.
  { intros t. destruct (sym_type_eqb t STRING); simpl; [done|].
    by rewrite (int_n _ (_TYPE_TO_BASE_cases t)). }
  assert (forall t,
            (if true && sym_type_eqb t STRING
             then Some (if apply_relation _UNEQUAL (_strcmp "n" "n")
                        then Y else N)
             else match Py.int "n" 0, Py.int "n" (_TYPE_TO_BASE t) with
                  | Some n1, Some n2 =>
                      Some (if apply_relation _UNEQUAL (n1 - n2) then Y else N)
                  | _, _ =>
                      Some (if apply_relation _UNEQUAL (_strcmp "n" "n")
                            then Y else N)
                  end) = Some N) as Hne2.
  { intros t. destruct (sym_type_eqb t STRING); simpl; [done|]. done. }
  assert (forall s, (is_str "m" (EStr s) || is_str "y" (EStr s)) = true ->
                    s = "m" \/ s = "y") as Hmy.
  { intros s Hs. apply orb_true_iff in Hs as [Hs | Hs];
      apply is_str_eq in Hs; injection Hs as ->; auto. }
  unfold eval_relation.
  destruct op1 as [n1| | | | |]; simpl in H.
  - (* the symbol is the left operand *)
    destruct Hrel as [-> | ->].
    + destruct (is_str "m" op2 || is_str "y" op2) eqn:E; [|done].
      injection H as ->.
      destruct op2 as [|s| | | |]; try done.
      simpl. rewrite Hn. simpl. apply Heq1. by apply Hmy.
    + destruct (is_str "n" op2) eqn:E; [|done]. injection H as ->.
      apply is_str_eq in E. subst op2. simpl. rewrite Hn. simpl. apply Hne1.
  - destruct op2 as [n2| | | | |]; try done.
    destruct Hrel as [-> | ->].
    + destruct (String.eqb s "m" || String.eqb s "y") eqn:E; [|done].
      injection H as ->. simpl. rewrite Hn. simpl. apply Heq2. by apply Hmy.
    + destruct (String.eqb s "n") eqn:E; [|done]. injection H as ->.
      apply String.eqb_eq in E. subst s. simpl. rewrite Hn. simpl.
      apply Hne2.
  - destruct op2; destruct Hrel as [-> | ->]; done.
  - destruct op2; destruct Hrel as [-> | ->]; done.
  - destruct op2; destruct Hrel as [-> | ->]; done.
  - destruct op2; destruct Hrel as [-> | ->]; done.
Qed.

Lemma _expr_depends_on_rec_n e r :
  _expr_depends_on_rec e sym = true ->
  _eval_expr_rec c value e = Some r -> r = N.
Proof.
  revert r. induction e as [nm|s|e1 IH1 e2 IH2|e1 IH1 e2 IH2|e1 IH1
                            |rel e1 _ e2 _]; intros r Hd He; simpl in Hd;
    try done.
  - apply String.eqb_eq in Hd. subst nm. rewrite eval_sym_n in He. congruence.
  - simpl in He.
    destruct (_eval_expr_rec c value e1) as [ev1|] eqn:E1; [|done].
    simpl in He. destruct ev1; [congruence| |].
    + destruct (_eval_expr_rec c value e2) as [ev2|] eqn:E2; [|done].
      simpl in He. injection He as <-.
      apply orb_true_iff in Hd as [Hd | Hd].
      * by specialize (IH1 _ Hd eq_refl).
      * by rewrite (IH2 _ Hd eq_refl).
    + destruct (_eval_expr_rec c value e2) as [ev2|] eqn:E2; [|done].
      simpl in He. injection He as <-.
      apply orb_true_iff in Hd as [Hd | Hd].
      * by specialize (IH1 _ Hd eq_refl).
      * by rewrite (IH2 _ Hd eq_refl).
  - simpl in He.
    assert (exists nm, _eq_to_sym rel e1 e2 = Some nm
                       /\ String.eqb nm sym = true
                       /\ (rel = _EQUAL \/ rel = _UNEQUAL)) as (nm & Hq & Hs & Hr).
    { destruct rel; try done;
        (destruct (_eq_to_sym _ e1 e2) as [nm|]; [|done]; eauto). }
    apply String.eqb_eq in Hs. subst nm.
    rewrite (eval_relation_sym_n _ _ _ Hr Hq) in He. congruence.
Qed.

End DependsOn.

(** [_expr_depends_on] is sound: an expression that it says depends on a
    symbol does not evaluate to "m" or "y" while the value of the symbol
    is "n". *)
Theorem _expr_depends_on_sound (c : Config) (value : oracle)
  (e : option expr) (sym : string) :
  _expr_depends_on e sym = true ->
  value sym = Some "n" ->
  eval_expr c value e = None \/ eval_expr c value e = Some N.
Proof.
  destruct e as [e|]; [|done]. unfold eval_expr. simpl. intros Hd Hn.
  destruct (_eval_expr_rec c value e) as [r|] eqn:He; [|by left].
  right. f_equal. by apply (_expr_depends_on_rec_n c value sym Hn e).
Qed.

Lemma _expr_depends_on_sound_witness :
  eval_expr Examples.visible_tristate (fun _ => Some "n")
    (Some (EAnd (EStr "y") (ERel _EQUAL (EStr "y") (ESym "S")))) = None
  \/ eval_expr Examples.visible_tristate (fun _ => Some "n")
       (Some (EAnd (EStr "y") (ERel _EQUAL (EStr "y") (ESym "S")))) = Some N.
Proof.
  apply (_expr_depends_on_sound Examples.visible_tristate (fun _ => Some "n")
           (Some (EAnd (EStr "y") (ERel _EQUAL (EStr "y") (ESym "S")))) "S");
    reflexivity.
Defined.

(** ** Relations *)

Section Relations.

Variable c : Config.
Variable value : oracle.

Lemma _strcmp_refl s : _strcmp s s = 0%Z.
Proof.
  unfold _strcmp. pose proof (String.compare_antisym s s) as H.
  by destruct (String.compare s s).
Qed.

Lemma _strcmp_opp s1 s2 : _strcmp s2 s1 = (- _strcmp s1 s2)%Z.
Proof.
  unfold _strcmp. rewrite (String.compare_antisym s1 s2).
  by destruct (String.compare s2 s1).
Qed.

Lemma apply_relation_opp comp :
  apply_relation _EQUAL (- comp) = apply_relation _EQUAL comp
  /\ apply_relation _GREATER (- comp) = apply_relation _LESS comp
  /\ apply_relation _GREATER_EQUAL (- comp) = apply_relation _LESS_EQUAL comp.
Proof.
  unfold apply_relation. rewrite Z.gtb_ltb, Z.geb_leb.
  repeat split.
  - destruct (Z.eqb_spec (- comp) 0), (Z.eqb_spec comp 0); lia.
  - destruct (Z.ltb_spec 0 (- comp)), (Z.ltb_spec comp 0); lia.
  - destruct (Z.leb_spec 0 (- comp)), (Z.leb_spec comp 0); lia.
Qed.

Lemma eval_relation_comparison rel op1 op2 t1 s1 t2 s2 :
  _type_and_val c value op1 = Some (t1, s1) ->
  _type_and_val c value op2 = Some (t2, s2) ->
  eval_relation c value rel op1 op2
  = Some (match comparison_of t1 s1 t2 s2 with
          | Some comp => if apply_relation rel comp then Y else N
          | None =>
              match rel with
              | _EQUAL | _UNEQUAL =>
                  if apply_relation rel (_strcmp s1 s2) then Y else N
              | _ => N
              end
          end).
Proof.
  intros H1 H2. unfold eval_relation, comparison_of. rewrite H1, H2. simpl.
  destruct (sym_type_eqb t1 STRING && sym_type_eqb t2 STRING); [done|].
  destruct (Py.int s1 (_TYPE_TO_BASE t1)), (Py.int s2 (_TYPE_TO_BASE t2));
    by destruct rel.
Qed.

Lemma comparison_of_opp t1 s1 t2 s2 :
  comparison_of t2 s2 t1 s1 = Z.opp <$> comparison_of t1 s1 t2 s2.
Proof.
  unfold comparison_of. rewrite (andb_comm (sym_type_eqb t2 STRING)).
  destruct (sym_type_eqb t1 STRING && sym_type_eqb t2 STRING); simpl.
  - by rewrite _strcmp_opp.
  - destruct (Py.int s1 (_TYPE_TO_BASE t1)), (Py.int s2 (_TYPE_TO_BASE t2));
      simpl; try done. f_equal. lia.
Qed.

End Relations.

(** Relations between two operands that have a value: a relation gives
    "n" or "y"; an operand is equal to itself; [!=] is the negation of
    [=]; [=] does not depend on the order of its operands, and [<] and
    [<=] are [>] and [>=] with the operands exchanged. *)
Theorem eval_relation_order (c : Config) (value : oracle) (op1 op2 : expr)
  (t1 t2 : sym_type) (s1 s2 : string) :
  _type_and_val c value op1 = Some (t1, s1) ->
  _type_and_val c value op2 = Some (t2, s2) ->
  (forall rel, eval_expr c value (Some (ERel rel op1 op2)) = Some N
               \/ eval_expr c value (Some (ERel rel op1 op2)) = Some Y)
  /\ eval_expr c value (Some (ERel _EQUAL op1 op1)) = Some Y
  /\ eval_expr c value (Some (ERel _UNEQUAL op1 op2))
     = eval_expr c value (Some (ENot (ERel _EQUAL op1 op2)))
  /\ eval_expr c value (Some (ERel _EQUAL op2 op1))
     = eval_expr c value (Some (ERel _EQUAL op1 op2))
  /\ eval_expr c value (Some (ERel _GREATER op2 op1))
     = eval_expr c value (Some (ERel _LESS op1 op2))
  /\ eval_expr c value (Some (ERel _GREATER_EQUAL op2 op1))
     = eval_expr c value (Some (ERel _LESS_EQUAL op1 op2)).
Proof.
  intros H1 H2. unfold eval_expr. simpl.
  pose proof (fun rel => eval_relation_comparison c value rel op1 op2
                           t1 s1 t2 s2 H1 H2) as E12.
  pose proof (fun rel => eval_relation_comparison c value rel op2 op1
                           t2 s2 t1 s1 H2 H1) as E21.
  rewrite (comparison_of_opp t1 s1 t2 s2) in E21.
  repeat split.
  - intros rel. rewrite E12. destruct (comparison_of t1 s1 t2 s2) as [comp|].
    + destruct (apply_relation rel comp); auto.
    + destruct rel; auto; destruct (apply_relation _ _); auto.
  - rewrite (eval_relation_comparison c value _ op1 op1 t1 s1 t1 s1 H1 H1).
    unfold comparison_of.
    destruct (sym_type_eqb t1 STRING && sym_type_eqb t1 STRING).
    + by rewrite _strcmp_refl.
    + destruct (Py.int s1 (_TYPE_TO_BASE t1)); [by rewrite Z.sub_diag|].
      by rewrite _strcmp_refl.
  - rewrite !E12. destruct (comparison_of t1 s1 t2 s2) as [comp|]; simpl.
    + by destruct (comp =? 0)%Z.
    + by destruct (_strcmp s1 s2 =? 0)%Z.
  - rewrite E12, E21. destruct (comparison_of t1 s1 t2 s2) as [comp|]; simpl.
    + pose proof (apply_relation_opp comp) as (Ha & _). simpl in Ha.
      by rewrite Ha.
    + rewrite _strcmp_opp.
      pose proof (apply_relation_opp (_strcmp s1 s2)) as (Ha & _).
      simpl in Ha. by rewrite Ha.
  - rewrite E12, E21.
    destruct (comparison_of t1 s1 t2 s2) as [comp|]; simpl; [|done].
    pose proof (apply_relation_opp comp) as (_ & Ha & _). simpl in Ha.
    by rewrite Ha.
  - rewrite E12, E21.
    destruct (comparison_of t1 s1 t2 s2) as [comp|]; simpl; [|done].
    pose proof (apply_relation_opp comp) as (_ & _ & Ha). simpl in Ha.
    by rewrite Ha.
Qed.

Lemma eval_relation_order_witness :
  eval_expr (Examples.int_N None None) (fun nm => Some nm)
    (Some (ERel _GREATER (ESym "10") (EStr "0x9")))
  = eval_expr (Examples.int_N None None) (fun nm => Some nm)
      (Some (ERel _LESS (EStr "0x9") (ESym "10"))).
Proof.
  apply (eval_relation_order (Examples.int_N None None) (fun nm => Some nm)
           (EStr "0x9") (ESym "10") STRING UNKNOWN "0x9" "10");
    reflexivity.
Defined.

(** ** The values of bool and tristate symbols *)

Section TriValues.

Variable c : Config.
Variable value : oracle.

Lemma promote_val_M s val :
  promote_val c value s val = Some M ->
  val = M
  /\ (exists t, Symbol_type c value s = Some t /\ t <> BOOL)
  /\ (exists wk, eval_expr c value (Some (weak_rev_dep s)) = Some wk
                 /\ wk <> Y).
Proof.
  unfold promote_val. destruct val; try done. intros H.
  apply bind_Some in H as (t & Ht & H).
  destruct (sym_type_eqb t BOOL) eqn:Eb; [done|].
  apply bind_Some in H as (wk & Hw & H).
  destruct (Tri.eqb wk Y) eqn:Ey; [done|].
  split; [done|]. split.
  - exists t. split; [done|]. intros ->. done.
  - exists wk. split; [done|]. intros ->. done.
Qed.

Lemma Symbol_type_not_BOOL s t :
  is_tri_type (_type s) = true ->
  Symbol_type c value s = Some t -> t <> BOOL ->
  t = TRISTATE /\ _type s = TRISTATE /\ modules_is_n value = Some false
  /\ match choice s with
     | Some ci => exists ch mode, _choices c !! ci = Some ch
                    /\ Choice_value c value ch = Some mode /\ mode <> Y
     | None => True
     end.
Proof.
  unfold Symbol_type. intros Hty H Hb.
  destruct (_type s) eqn:E; try done; simpl in H; [by simplify_eq|].
  apply bind_Some in H as (in_y & Hy & H).
  destruct in_y; [by simplify_eq|].
  apply bind_Some in H as (mn & Hmn & H).
  destruct mn; [by simplify_eq|]. simplify_eq.
  repeat split; try done.
  destruct (choice s) as [ci|]; [|done].
  apply bind_Some in Hy as (ch & Hch & Hy).
  apply bind_Some in Hy as (mode & Hmode & Hy).
  exists ch, mode. repeat split; try done. intros ->. by simplify_eq.
Qed.

End TriValues.



(** ** Symbols that are not visible *)

Section Invisible.

Variable c : Config.
Variable value : oracle.

Lemma prompts_vis_promptless vis nds :
  has_prompt nds = false -> prompts_vis c value vis nds = Some vis.
Proof.
  induction nds as [|node nds IH]; [done|]. simpl. intros H.
  apply orb_false_iff in H as [H1 H2].
  destruct (prompt node); [by rewrite bool_decide_eq_false in H1; destruct H1|].
  by apply IH.
Qed.

Lemma Symbol_visibility_set_user_value uv s :
  Symbol_visibility c value (set_user_value uv s) = Symbol_visibility c value s.
Proof. reflexivity. Qed.

Lemma promote_val_set_user_value uv s val :
  promote_val c value (set_user_value uv s) val = promote_val c value s val.
Proof. reflexivity. Qed.

Lemma Symbol_value_invisible uv s :
  Symbol_visibility c value s = Some N ->
  Symbol_value c value (set_user_value uv s) = Symbol_value c value s.
Proof.
  intros Hvis. unfold Symbol_value.
  rewrite Symbol_visibility_set_user_value, Hvis.
  change (_type (set_user_value uv s)) with (_type s).
  change (choice (set_user_value uv s)) with (choice s).
  destruct (_type s); try done; rewrite !bind_Some_l;
    unfold value_int; simpl; by destruct (user_value s), uv.
Qed.

End Invisible.

(** A symbol without a prompt that is in no choice has the visibility
    "n".  While the visibility of a symbol is "n", no value can be
    assigned to it, and its value does not depend on its user value. *)
Theorem invisible_ignores_user_value (c : Config) (value : oracle)
  (s : Symbol) (uv : option string) :
  (has_prompt (nodes s) = false -> choice s = None ->
   Symbol_visibility c value s = Some N)
  /\ (Symbol_visibility c value s = Some N ->
      _get_assignable c value s = Some ""
      /\ Symbol_value c value (set_user_value uv s) = Symbol_value c value s).
Proof.
  split.
  - intros Hp Hch. unfold Symbol_visibility.
    by rewrite (prompts_vis_promptless c value N _ Hp), Hch.
  - intros Hvis. split; [|by apply Symbol_value_invisible].
    unfold _get_assignable. rewrite Hvis.
    by destruct (negb (is_tri_type (_type s))).
Qed.

Lemma invisible_ignores_user_value_witness :
  Symbol_value (Examples.int_N None None)
    (value_of 2 (Examples.int_N None None))
    (set_user_value (Some "15") (sym_of (Examples.int_N None None) "N"))
  = Symbol_value (Examples.int_N None None)
      (value_of 2 (Examples.int_N None None))
      (sym_of (Examples.int_N None None) "N").
Proof.
  apply (invisible_ignores_user_value (Examples.int_N None None)
           (value_of 2 (Examples.int_N None None))
           (sym_of (Examples.int_N None None) "N") (Some "15")).
  apply (invisible_ignores_user_value (Examples.int_N None None)
           (value_of 2 (Examples.int_N None None))
           (sym_of (Examples.int_N None None) "N") None); reflexivity.
Defined.

(** ** Assignable values *)

Section Assignable.

Variable c : Config.
Variable value : oracle.

Lemma tri_max_N a : Tri.max a N = a.
Proof. by destruct a. Qed.

(** The value of a visible symbol outside a choice that has a user
    value: the user value, capped by the visibility, raised to the value
    of [rev_dep], and promoted. *)
Lemma Symbol_value_user s vis t r :
  is_tri_type (_type s) = true -> choice s = None ->
  Symbol_visibility c value s = Some vis -> vis <> N ->
  eval_expr c value (Some (rev_dep s)) = Some r ->
  Symbol_value c value (set_user_value (Some (Tri.to_str t)) s)
  = val' ← promote_val c value s (Tri.max (Tri.min t vis) r);
    Some (Tri.to_str val', true).
Proof.
  intros Hty Hch Hvis Hn Hr. unfold Symbol_value.
  rewrite Symbol_visibility_set_user_value, Hvis.
  change (_type (set_user_value (Some (Tri.to_str t)) s)) with (_type s).
  change (choice (set_user_value (Some (Tri.to_str t)) s)) with (choice s).
  rewrite Hch.
  assert (value_tri_plain c value (set_user_value (Some (Tri.to_str t)) s) vis
          = Some (Tri.max (Tri.min t vis) r, true)) as Hplain.
  { unfold value_tri_plain.
    change (user_value (set_user_value (Some (Tri.to_str t)) s))
      with (Some (Tri.to_str t)).
    change (rev_dep (set_user_value (Some (Tri.to_str t)) s)) with (rev_dep s).
    assert (eval_expr c value (Some (EStr (Tri.to_str t))) = Some t) as Ht
      by by destruct t.
    destruct vis; [done| |];
      rewrite (_eval_min_tri c value _ _ _ Ht);
      rewrite !bind_Some_l; rewrite Hr, bind_Some_l;
      (destruct r; [by rewrite tri_max_N| |]; by rewrite _eval_max_tri). }
  destruct (_type s); try done; by rewrite bind_Some_l, Hplain, bind_Some_l.
Qed.

Lemma Symbol_type_vis_M s :
  choice s = None -> Symbol_visibility c value s = Some M ->
  Symbol_type c value s = Some TRISTATE.
Proof.
  intros Hch Hvis. unfold Symbol_visibility in Hvis. rewrite Hch in Hvis.
  apply bind_Some in Hvis as (vis & _ & Hvis).
  apply promote_vis_M in Hvis as (_ & Hty & Hmod).
  unfold Symbol_type. rewrite Hty, Hch. simpl. by rewrite Hmod.
Qed.

Lemma contains_cases x a :
  contains x a = true ->
  match a with
  | String a1 EmptyString => x = a1
  | String a1 (String a2 EmptyString) => x = a1 \/ x = a2
  | String a1 (String a2 (String a3 EmptyString)) => x = a1 \/ x = a2 \/ x = a3
  | _ => True
  end.
Proof.
  destruct a as [|a1 [|a2 [|a3 [|]]]]; simpl; try done;
    rewrite ?orb_false_r; intros H;
    repeat (apply orb_true_iff in H as [H | H]);
    apply Ascii.eqb_eq in H; auto.
Qed.

End Assignable.

(** For a bool or tristate symbol outside a choice, with the visibility
    [vis], and [r] and [wk] the values of its [rev_dep] and
    [weak_rev_dep]: with one of the values that [_get_assignable] lists as
    its user value, the value of the symbol is that value, but for
    [vis] = [r] = "m" with [wk] = "y", where "m" is listed and the value
    is "y". *)
Lemma assignable_value_at (c : Config) (value : oracle) (s : Symbol)
  (vis r wk : tri) (a : string) (x : ascii) :
  is_tri_type (_type s) = true -> choice s = None ->
  Symbol_visibility c value s = Some vis ->
  eval_expr c value (Some (rev_dep s)) = Some r ->
  eval_expr c value (Some (weak_rev_dep s)) = Some wk ->
  _get_assignable c value s = Some a ->
  contains x a = true ->
  Symbol_value c value (set_user_value (Some (String x "")) s)
  = Some (if Tri.eqb vis M && Tri.eqb r M && Tri.eqb wk Y
          then "y" else String x "", true).
Proof.
  intros Hty Hch Hvis Hr Hw Ha Hx.
  unfold _get_assignable in Ha. rewrite Hty, Hvis in Ha. simpl in Ha.
  rewrite Hr, Hw in Ha. simpl in Ha.
  assert (forall t, vis <> N ->
            (val' ← promote_val c value s (Tri.max (Tri.min t vis) r);
             Some (Tri.to_str val', true))
            = Some (if Tri.eqb vis M && Tri.eqb r M && Tri.eqb wk Y
                    then "y" else Tri.to_str t, true) ->
            Symbol_value c value (set_user_value (Some (Tri.to_str t)) s)
            = Some (if Tri.eqb vis M && Tri.eqb r M && Tri.eqb wk Y
                    then "y" else Tri.to_str t, true)) as Hgo.
  { intros t Hn H. by rewrite (Symbol_value_user c value s vis t r). }
  destruct vis.
  - by simplify_eq.
  - (* visibility m: the effective type is tristate *)
    pose proof (Symbol_type_vis_M c value s Hch Hvis) as Ht0.
    destruct r; simpl in Ha.
    + destruct wk; simpl in Ha; simplify_eq;
        apply contains_cases in Hx; subst x.
      * apply (Hgo M); [done|]. unfold promote_val. simpl.
        by rewrite Ht0, Hw.
      * apply (Hgo M); [done|]. unfold promote_val. simpl.
        by rewrite Ht0, Hw.
      * apply (Hgo Y); [done|]. unfold promote_val. simpl.
        by rewrite Ht0, Hw.
    + simplify_eq. apply contains_cases in Hx; subst x.
      apply (Hgo M); [done|]. unfold promote_val. simpl.
      rewrite Ht0, Hw. by destruct wk.
    + simplify_eq. apply contains_cases in Hx; subst x.
      by apply (Hgo Y).
  - (* visibility y *)
    destruct r; simpl in Ha.
    + apply bind_Some in Ha as (b & Hb & Ha).
      apply bind_Some in Hb as (t0 & Ht0 & Hb).
      destruct (sym_type_eqb t0 BOOL) eqn:Eb.
      * simplify_eq. apply contains_cases in Hx as [-> | ->].
        -- by apply (Hgo N).
        -- by apply (Hgo Y).
      * simpl in Hb. simplify_eq.
        destruct (Tri.eqb wk Y) eqn:Ew; simplify_eq;
          apply contains_cases in Hx.
        -- destruct Hx as [-> | ->]; [by apply (Hgo N)|by apply (Hgo Y)].
        -- destruct Hx as [-> | [-> | ->]];
             [by apply (Hgo N)| |by apply (Hgo Y)].
           apply (Hgo M); [done|]. unfold promote_val. simpl.
           rewrite Ht0. simpl. rewrite Eb, Hw. simpl. by rewrite Ew.
    + apply bind_Some in Ha as (b & Hb & Ha).
      apply bind_Some in Hb as (t0 & Ht0 & Hb).
      destruct (sym_type_eqb t0 BOOL) eqn:Eb.
      * simplify_eq. apply contains_cases in Hx as ->. by apply (Hgo Y).
      * simpl in Hb. simplify_eq.
        destruct (Tri.eqb wk Y) eqn:Ew; simplify_eq;
          apply contains_cases in Hx.
        -- subst x. by apply (Hgo Y).
        -- destruct Hx as [-> | ->]; [|by apply (Hgo Y)].
           apply (Hgo M); [done|]. unfold promote_val. simpl.
           rewrite Ht0. simpl. rewrite Eb, Hw. simpl. by rewrite Ew.
    + simplify_eq. apply contains_cases in Hx as ->. by apply (Hgo Y).
Qed.

(** The values that [_get_assignable] lists are valid for the type of
    the symbol. *)
Lemma assignable_valid (c : Config) (value : oracle) (s : Symbol)
  (a : string) (x : ascii) :
  is_tri_type (_type s) = true -> choice s = None ->
  _get_assignable c value s = Some a ->
  contains x a = true ->
  valid_for_type (_type s) (String x "") = true.
Proof.
  intros Hty Hch Ha Hx.
  assert (x = "n"%char \/ x = "m"%char \/ x = "y"%char) as Hnmy.
  { unfold _get_assignable in Ha. rewrite Hty in Ha. simpl in Ha.
    apply bind_Some in Ha as (vis & _ & Ha).
    destruct vis; [by simplify_eq| |];
      apply bind_Some in Ha as (r & _ & Ha); destruct r;
      try (apply bind_Some in Ha as (b & _ & Ha); destruct b);
      try (apply bind_Some in Ha as (w & _ & Ha); destruct (negb _));
      simplify_eq; apply contains_cases in Hx; intuition. }
  destruct (_type s) eqn:E; try done.
  - (* a symbol declared bool *)
    unfold _get_assignable in Ha. rewrite E in Ha. simpl in Ha.
    apply bind_Some in Ha as (vis & Hvis & Ha).
    assert (Symbol_type c value s = Some BOOL) as Ht
      by (unfold Symbol_type; by rewrite E).
    rewrite Ht in Ha. simpl in Ha.
    destruct vis; [by simplify_eq| |].
    + by pose proof (Symbol_visibility_M_type c value s BOOL Hvis Ht).
    + apply bind_Some in Ha as (r & _ & Ha).
      destruct r; simplify_eq; apply contains_cases in Hx;
        try destruct Hx as [-> | ->]; by subst.
  - destruct Hnmy as [-> | [-> | ->]]; done.
Qed.

(** ** The mode of a choice *)

Section ChoiceMode.

Variable c : Config.
Variable value : oracle.

Lemma Choice_type_vis_M ch :
  Choice_visibility c value ch = Some M ->
  Choice_type value ch = Some TRISTATE.
Proof.
  unfold Choice_visibility. intros H.
  apply bind_Some in H as (vis & _ & H).
  apply promote_vis_M in H as (_ & Hty & Hmod).
  unfold Choice_type. rewrite Hty. simpl. by rewrite Hmod.
Qed.

Lemma Choice_value_user ch vis t sel :
  Choice_visibility c value ch = Some vis ->
  Choice_value c value (set_choice_user (Some (Tri.to_str t)) sel ch)
  = match (match Tri.min t vis with
           | N => if negb (is_optional ch) then M else N
           | val => val
           end) with
    | M => ty ← Choice_type value ch;
           Some (if sym_type_eqb ty BOOL then Y else M)
    | val => Some val
    end.
Proof.
  intros Hvis. unfold Choice_value.
  change (ch_user_value (set_choice_user (Some (Tri.to_str t)) sel ch))
    with (Some (Tri.to_str t)).
  change (Choice_visibility c value
            (set_choice_user (Some (Tri.to_str t)) sel ch))
    with (Choice_visibility c value ch).
  change (is_optional (set_choice_user (Some (Tri.to_str t)) sel ch))
    with (is_optional ch).
  rewrite Hvis, bind_Some_l.
  assert (eval_expr c value (Some (EStr (Tri.to_str t))) = Some t) as Ht
    by by destruct t.
  rewrite (_eval_min_tri c value _ _ vis Ht), bind_Some_l.
  destruct (Tri.min t vis); [destruct (negb (is_optional ch))| |]; done.
Qed.

End ChoiceMode.



From Stdlib Require DecimalPos HexadecimalPos.

(** * Numbers and ranges *)

(** ** [int] reads back what [str] and [hex] write *)

Section Digits.

Lemma uint_val_acc d p :
  uint_val d (Zpos p) = Zpos (Pos.of_uint_acc d p).
Proof.
  revert p. induction d; intros p; simpl; try done;
    match goal with
    | |- uint_val _ ?a = Z.pos (Pos.of_uint_acc _ ?q) =>
        replace a with (Zpos q) by lia; apply IHd
    end.
Qed.

Lemma uint_val_0 d : uint_val d 0 = Z.of_N (Pos.of_uint d).
Proof.
  induction d; simpl; try done; apply (uint_val_acc d).
Qed.

Lemma hex_val_acc d p :
  hex_val d (Zpos p) = Zpos (Pos.of_hex_uint_acc d p).
Proof.
  revert p. induction d; intros p; simpl; try done;
    match goal with
    | |- hex_val _ ?a = Z.pos (Pos.of_hex_uint_acc _ ?q) =>
        replace a with (Zpos q) by lia; apply IHd
    end.
Qed.

Lemma hex_val_0 d : hex_val d 0 = Z.of_N (Pos.of_hex_uint d).
Proof.
  induction d; simpl; try done; apply (hex_val_acc d).
Qed.

Lemma digits_uint started acc d :
  started = true \/ d <> Decimal.Nil ->
  Py.digits 10 started false acc (DecimalString.NilEmpty.string_of_uint d)
  = Some (uint_val d acc, "").
Proof.
  revert started acc. induction d; intros started acc H;
    try (simpl; apply IHd; by left).
  destruct H as [-> | H]; done.
Qed.

Lemma digits_hex started acc d :
  started = true \/ d <> Hexadecimal.Nil ->
  Py.digits 16 started false acc (HexadecimalString.NilEmpty.string_of_uint d)
  = Some (hex_val d acc, "").
Proof.
  revert started acc. induction d; intros started acc H;
    try (simpl; apply IHd; by left).
  destruct H as [-> | H]; done.
Qed.

End Digits.

Section IntOfStr.

Lemma prefix_10 s : Py.prefix 10 s = (10%Z, false, s).
Proof.
  destruct s as [|z [|p r]]; simpl; try done.
  by destruct (Py.code z =? 48)%nat.
Qed.

(** The first character of the digits of a number is a digit. *)
Lemma string_of_uint_head d :
  d <> Decimal.Nil ->
  exists a r, DecimalString.NilEmpty.string_of_uint d = String a r
              /\ Py.in_range 48 57 a = true.
Proof. destruct d; try done; intros _; simpl; eauto. Qed.

Lemma string_of_hex_uint_head d :
  d <> Hexadecimal.Nil ->
  exists a r, HexadecimalString.NilEmpty.string_of_uint d = String a r
              /\ Py.isspace a = false /\ (Py.code a =? 95)%nat = false.
Proof. destruct d; try done; intros _; simpl; eauto. Qed.

Lemma int_digits_10 a r v :
  Py.in_range 48 57 a = true ->
  Py.digits 10 false false 0 (String a r) = Some (v, "") ->
  Py.int (String a r) 10 = Some v
  /\ Py.int (String "-" (String a r)) 10 = Some (- v)%Z.
Proof.
  intros Ha Hd.
  assert (Py.isspace a = false /\ (Py.code a =? 45)%nat = false
          /\ (Py.code a =? 43)%nat = false) as (Hs & Hm & Hp).
  { revert Ha. unfold Py.in_range, Py.isspace, Py.in_range.
    intros Ha. apply andb_true_iff in Ha as [H1 H2].
    apply Nat.leb_le in H1. apply Nat.leb_le in H2.
    repeat split.
    - apply orb_false_iff. split; apply andb_false_iff; right;
        apply Nat.leb_gt; lia.
    - apply Nat.eqb_neq. lia.
    - apply Nat.eqb_neq. lia. }
  split.
  - unfold Py.int. cbn [Py.lstrip]. rewrite Hs. cbn beta iota.
    rewrite Hm, Hp, prefix_10, Hd. done.
  - unfold Py.int. change (Py.lstrip (String "-" (String a r)))
      with (String "-" (String a r)). cbn beta iota.
    change (Py.code "-" =? 45)%nat with true. cbn beta iota.
    rewrite prefix_10, Hd. done.
Qed.

Lemma int_str n : Py.int (Py.str n) 10 = Some n.
Proof.
  unfold Py.str. destruct n as [|p|p]; [reflexivity| |].
  - simpl.
    pose proof (DecimalPos.Unsigned.to_uint_nonnil p) as Hn.
    destruct (string_of_uint_head _ Hn) as (a & r & Hs & Ha).
    assert (DecimalString.NilZero.string_of_uint (Pos.to_uint p) = String a r)
      as -> by (destruct (Pos.to_uint p); done).
    apply int_digits_10; [done|]. rewrite <- Hs.
    rewrite digits_uint by by right.
    by rewrite uint_val_0, DecimalPos.Unsigned.of_to.
  - simpl.
    pose proof (DecimalPos.Unsigned.to_uint_nonnil p) as Hn.
    destruct (string_of_uint_head _ Hn) as (a & r & Hs & Ha).
    assert (DecimalString.NilZero.string_of_uint (Pos.to_uint p) = String a r)
      as -> by (destruct (Pos.to_uint p); done).
    change (Z.neg p) with (- Z.pos p)%Z.
    apply int_digits_10; [done|]. rewrite <- Hs.
    rewrite digits_uint by by right.
    by rewrite uint_val_0, DecimalPos.Unsigned.of_to.
Qed.

Lemma int_0x s v :
  (exists a r, s = String a r /\ Py.isspace a = false
               /\ (Py.code a =? 95)%nat = false) ->
  Py.digits 16 false false 0 s = Some (v, "") ->
  Py.int ("0x" ++ s) 16 = Some v /\ Py.int ("-0x" ++ s) 16 = Some (- v)%Z.
Proof.
  intros (a & r & -> & Hs & Hu) Hd. split.
  - unfold Py.int. simpl. rewrite Hu, Hd. done.
  - unfold Py.int. simpl. rewrite Hu, Hd. done.
Qed.

Lemma int_hex n : Py.int (Py.hex n) 16 = Some n.
Proof.
  unfold Py.hex. destruct n as [|p|p]; [reflexivity| |].
  - change (Z.pos p <? 0)%Z with false. cbv iota.
    change (Z.to_N (Z.pos p)) with (N.pos p). simpl N.to_hex_uint.
    pose proof (HexadecimalPos.Unsigned.to_uint_nonnil p) as Hn.
    assert (HexadecimalString.NilZero.string_of_uint (Pos.to_hex_uint p)
            = HexadecimalString.NilEmpty.string_of_uint (Pos.to_hex_uint p))
      as -> by (destruct (Pos.to_hex_uint p); done).
    apply int_0x; [by apply string_of_hex_uint_head|].
    rewrite digits_hex by by right.
    by rewrite hex_val_0, HexadecimalPos.Unsigned.of_to.
  - change (Z.neg p <? 0)%Z with true. cbv iota.
    change (Z.to_N (- Z.neg p)) with (N.pos p). simpl N.to_hex_uint.
    pose proof (HexadecimalPos.Unsigned.to_uint_nonnil p) as Hn.
    assert (HexadecimalString.NilZero.string_of_uint (Pos.to_hex_uint p)
            = HexadecimalString.NilEmpty.string_of_uint (Pos.to_hex_uint p))
      as -> by (destruct (Pos.to_hex_uint p); done).
    change (Z.neg p) with (- Z.pos p)%Z.
    apply int_0x; [by apply string_of_hex_uint_head|].
    rewrite digits_hex by by right.
    by rewrite hex_val_0, HexadecimalPos.Unsigned.of_to.
Qed.

End IntOfStr.

(** ** Ranges *)

Section Ranges.

Variable c : Config.
Variable value : oracle.

Lemma int_canonical t n :
  t = INT \/ t = HEX ->
  Py.int (canonical t n) (_TYPE_TO_BASE t) = Some n.
Proof.
  intros [-> | ->]; unfold canonical; simpl; [apply int_str|apply int_hex].
Qed.

Lemma int_defaults_in_range t low high val w ds v w' n :
  t = INT \/ t = HEX -> (low <= high)%Z ->
  Py.int val (_TYPE_TO_BASE t) = None ->
  int_defaults c value t (_TYPE_TO_BASE t) (Some (low, high)) val w ds
  = Some (v, w') ->
  Py.int v (_TYPE_TO_BASE t) = Some n ->
  (low <= n <= high)%Z.
Proof.
  intros Ht Hle. revert val w.
  induction ds as [|[val_expr cond_expr] ds IH]; intros val w Hval H Hn.
  - simpl in H. injection H as H _. subst v.
    destruct (Z.gtb_spec low 0).
    + rewrite (int_canonical t low Ht) in Hn. injection Hn as <-. lia.
    + congruence.
  - simpl in H. apply bind_Some in H as (cv & _ & H).
    assert (forall v0,
              match Py.int v0 (_TYPE_TO_BASE t) with
              | Some val_num =>
                  Some (clamp t (Some (low, high)) v0 val_num, true)
              | None =>
                  int_defaults c value t (_TYPE_TO_BASE t) (Some (low, high))
                    v0 true ds
              end = Some (v, w') -> (low <= n <= high)%Z) as Hgo.
    { intros v0 H0.
      destruct (Py.int v0 (_TYPE_TO_BASE t)) as [val_num|] eqn:E.
      - injection H0 as H0 _. subst v. unfold clamp in Hn.
        destruct (Z.ltb_spec val_num low).
        + rewrite (int_canonical t low Ht) in Hn. injection Hn as <-. lia.
        + destruct (Z.gtb_spec val_num high).
          * rewrite (int_canonical t high Ht) in Hn. injection Hn as <-. lia.
          * rewrite E in Hn. injection Hn as <-. lia.
      - by apply (IH v0 true). }
    destruct cv.
    + by apply (IH val w).
    + apply bind_Some in H as (v0 & _ & H). by apply (Hgo v0).
    + apply bind_Some in H as (v0 & _ & H). by apply (Hgo v0).
Qed.

End Ranges.

(** The range of an int or hex symbol is kept.  When a range [low],
    [high] with [low <= high] is active, the value of the symbol, if it
    is a number in the base of its type, lies in the range: a user value
    outside the range is not used, and a default outside it is replaced
    by the bound that it passes. *)
Theorem int_value_in_range (c : Config) (value : oracle) (s : Symbol)
  (v : string) (w : bool) (low high n : Z) :
  _type s = INT \/ _type s = HEX ->
  active_range c value (_TYPE_TO_BASE (_type s)) (ranges s)
  = Some (Some (low, high)) ->
  (low <= high)%Z ->
  Symbol_value c value s = Some (v, w) ->
  Py.int v (_TYPE_TO_BASE (_type s)) = Some n ->
  (low <= n <= high)%Z.
Proof.
  intros Hty Hr Hle Hv Hn.
  assert (exists vis, value_int c value s vis = Some (v, w)) as (vis & H).
  { unfold Symbol_value in Hv.
    destruct Hty as [Hty | Hty]; rewrite Hty in Hv;
      apply bind_Some in Hv as (vis & _ & Hv); eauto. }
  unfold value_int in H. rewrite Hr in H. simpl in H.
  assert (int_defaults c value (_type s) (_TYPE_TO_BASE (_type s))
            (Some (low, high)) "" (negb (Tri.eqb vis N)) (defaults s)
          = Some (v, w) -> (low <= n <= high)%Z) as Hd.
  { intros H0.
    apply (int_defaults_in_range c value (_type s) low high ""
             (negb (Tri.eqb vis N)) (defaults s) v w n Hty Hle); try done. }
  destruct (user_value s) as [uv|]; [|by apply Hd].
  destruct (negb (Tri.eqb vis N) && user_value_ok _ _ uv) eqn:E;
    [|by apply Hd].
  injection H as -> _. apply andb_true_iff in E as [_ E].
  unfold user_value_ok in E. rewrite Hn in E.
  apply andb_true_iff in E as [E1 E2]. lia.
Qed.

Lemma int_value_in_range_witness : (10 <= 10 <= 20)%Z.
Proof.
  apply (int_value_in_range (Examples.int_N (Some ("n", None)) (Some "25"))
           (value_of 2 (Examples.int_N (Some ("n", None)) (Some "25")))
           (sym_of (Examples.int_N (Some ("n", None)) (Some "25")) "N")
           "10" true 10 20 10); try (vm_compute; reflexivity).
  - by left.
  - lia.
Defined.


(** * Assignments *)

(** ** Values do not depend on the user values of other symbols but
       through the values they are given *)

Lemma bind_ext2 {A B} (m m' : option A) (f g : A -> option B) :
  m = m' -> (forall x, f x = g x) -> m ≫= f = m' ≫= g.
Proof. intros -> H. destruct m'; [apply H|done]. Qed.

Create Rewrite HintDb static.

(** Both sides are the same computation but for the configuration. *)
Ltac static_go :=
  repeat first
    [ done
    | progress autorewrite with static
    | apply bind_ext2; [|intros ?]
    | match goal with
      | |- (if ?b then _ else _) = _ => destruct b
      | |- match ?x with _ => _ end = _ => destruct x
      | |- (let '(_, _) := ?x in _) = _ => destruct x
      end ].

Section Static.

Variables c c' : Config.
Variable value : oracle.
Hypothesis Hst : static_eq c c'.

Lemma static_type nm : _type (sym_of c' nm) = _type (sym_of c nm).
Proof.
  destruct Hst as [H _]. specialize (H nm). unfold same_decl in H.
  by apply (f_equal _type) in H.
Qed.

Lemma static_choices : _choices c' = _choices c.
Proof. apply Hst. Qed.

Hint Rewrite static_type static_choices : static.

Lemma Symbol_visibility_decl (c0 : Config) s s' :
  same_decl s s' ->
  Symbol_visibility c0 value s = Symbol_visibility c0 value s'.
Proof.
  intros H.
  change (Symbol_visibility c0 value (set_user_value None s)
          = Symbol_visibility c0 value (set_user_value None s')).
  by rewrite H.
Qed.

Lemma _type_and_val_static e :
  _type_and_val c' value e = _type_and_val c value e.
Proof. destruct e; simpl; static_go. Qed.

Hint Rewrite _type_and_val_static : static.

Lemma _eval_expr_rec_static e :
  _eval_expr_rec c' value e = _eval_expr_rec c value e.
Proof.
  induction e as [nm|s|e1 IH1 e2 IH2|e1 IH1 e2 IH2|e1 IH1|rel e1 _ e2 _];
    simpl; rewrite ?IH1, ?IH2; unfold eval_relation; static_go.
Qed.

Hint Rewrite _eval_expr_rec_static : static.

Lemma eval_expr_static e : eval_expr c' value e = eval_expr c value e.
Proof. unfold eval_expr. static_go. Qed.

Hint Rewrite eval_expr_static : static.

Lemma _eval_min_static e1 e2 :
  _eval_min c' value e1 e2 = _eval_min c value e1 e2.
Proof. unfold _eval_min. static_go. Qed.

Lemma _eval_max_static e1 e2 :
  _eval_max c' value e1 e2 = _eval_max c value e1 e2.
Proof. unfold _eval_max. static_go. Qed.

Hint Rewrite _eval_min_static _eval_max_static : static.

Lemma prompts_vis_static vis nds :
  prompts_vis c' value vis nds = prompts_vis c value vis nds.
Proof.
  revert vis. induction nds as [|node nds IH]; intros vis; [done|].
  cbn [prompts_vis]. destruct (prompt node); [|apply IH].
  apply bind_ext2; [static_go|intros ?; apply IH].
Qed.

Hint Rewrite prompts_vis_static : static.

Lemma Choice_visibility_static ch :
  Choice_visibility c' value ch = Choice_visibility c value ch.
Proof. unfold Choice_visibility. static_go. Qed.

Hint Rewrite Choice_visibility_static : static.

Lemma Choice_value_static ch :
  Choice_value c' value ch = Choice_value c value ch.
Proof. unfold Choice_value. static_go. Qed.

Hint Rewrite Choice_value_static : static.

Lemma Symbol_visibility_static s :
  Symbol_visibility c' value s = Symbol_visibility c value s.
Proof. unfold Symbol_visibility. static_go. Qed.

Lemma Symbol_type_static s : Symbol_type c' value s = Symbol_type c value s.
Proof. unfold Symbol_type. static_go. Qed.

Hint Rewrite Symbol_visibility_static Symbol_type_static : static.

Lemma Symbol_visibility_sym_of nm :
  Symbol_visibility c value (sym_of c' nm)
  = Symbol_visibility c value (sym_of c nm).
Proof. symmetry. apply Symbol_visibility_decl. apply Hst. Qed.

Hint Rewrite Symbol_visibility_sym_of : static.

Lemma default_from_defaults_static ds :
  default_from_defaults c' value ds = default_from_defaults c value ds.
Proof.
  induction ds as [|[nm cond] ds IH]; [done|]. cbn [default_from_defaults].
  rewrite IH. static_go.
Qed.

Lemma first_visible_static ss :
  first_visible c' value ss = first_visible c value ss.
Proof.
  induction ss as [|nm ss IH]; [done|]. cbn [first_visible].
  rewrite IH. static_go.
Qed.

Hint Rewrite default_from_defaults_static first_visible_static : static.

Lemma selection_static ch : selection c' value ch = selection c value ch.
Proof. unfold selection, default_selection. static_go. Qed.

Lemma promote_val_static s val :
  promote_val c' value s val = promote_val c value s val.
Proof. unfold promote_val. static_go. Qed.

Lemma tri_defaults_static ds :
  tri_defaults c' value ds = tri_defaults c value ds.
Proof.
  induction ds as [|[d cond] ds IH]; [done|]. cbn [tri_defaults].
  rewrite IH. static_go.
Qed.

Hint Rewrite selection_static promote_val_static tri_defaults_static : static.

Lemma value_tri_plain_static s vis :
  value_tri_plain c' value s vis = value_tri_plain c value s vis.
Proof. unfold value_tri_plain. static_go. Qed.

Lemma value_tri_choice_static s ch vis :
  value_tri_choice c' value s ch vis = value_tri_choice c value s ch vis.
Proof. unfold value_tri_choice. static_go. Qed.

Lemma active_range_static base rs :
  active_range c' value base rs = active_range c value base rs.
Proof.
  induction rs as [|[[lo hi] cond] rs IH]; [done|]. cbn [active_range].
  rewrite IH. static_go.
Qed.

Lemma int_defaults_static t base range val w ds :
  int_defaults c' value t base range val w ds
  = int_defaults c value t base range val w ds.
Proof.
  revert val w. induction ds as [|[v cond] ds IH]; intros val w; [done|].
  cbn [int_defaults]. rewrite IH.
  apply bind_ext2; [static_go|]. intros [].
  - done.
  - apply bind_ext2; [done|]. intros ?. by rewrite IH.
  - apply bind_ext2; [done|]. intros ?. by rewrite IH.
Qed.

Lemma string_defaults_static val w ds :
  string_defaults c' value val w ds = string_defaults c value val w ds.
Proof.
  induction ds as [|[v cond] ds IH]; [done|]. cbn [string_defaults].
  rewrite IH. static_go.
Qed.

Hint Rewrite value_tri_plain_static value_tri_choice_static
  active_range_static int_defaults_static string_defaults_static : static.

Lemma Symbol_value_static s :
  Symbol_value c' value s = Symbol_value c value s.
Proof. unfold Symbol_value, value_int, value_string. static_go. Qed.

End Static.

(** ** [Symbol.set_value] *)

Section SetValue.

Lemma same_decl_set_user_value uv s : same_decl s (set_user_value uv s).
Proof. done. Qed.

Lemma sym_of_alter_eq c f nm s :
  syms c !! nm = Some s ->
  sym_of (with_syms c (alter f nm (syms c))) nm = f s.
Proof. intros H. unfold sym_of. simpl. by rewrite lookup_alter_eq, H. Qed.

(** An assignment to a symbol that is in no choice. *)
Lemma Symbol_set_value_plain c nm v :
  choice (sym_of c nm) = None ->
  valid_for_type (_type (sym_of c nm)) v = true ->
  fst (Symbol_set_value c nm v)
  = with_syms c (alter (set_user_value (Some v)) nm (syms c)).
Proof.
  intros Hch Hok. unfold Symbol_set_value, _set_value_no_invalidate.
  by rewrite Hok, Hch.
Qed.

Lemma static_eq_alter c uv nm :
  static_eq c (with_syms c (alter (set_user_value uv) nm (syms c))).
Proof.
  split; [|done]. intros k. destruct (decide (nm = k)) as [<- | Hne].
  - unfold sym_of. simpl. rewrite lookup_alter_eq.
    by destruct (syms c !! nm).
  - by rewrite sym_of_alter_ne.
Qed.

Lemma Symbol_set_value_static c nm v :
  choice (sym_of c nm) = None ->
  static_eq c (fst (Symbol_set_value c nm v)).
Proof.
  intros Hch.
  destruct (valid_for_type (_type (sym_of c nm)) v) eqn:Hok.
  - rewrite Symbol_set_value_plain by done. apply static_eq_alter.
  - unfold Symbol_set_value, _set_value_no_invalidate. rewrite Hok. done.
Qed.

End SetValue.



(** Assigning a value that is assignable gives the symbol that value.
    For a bool or tristate symbol of the configuration that is in no
    choice, with the visibility [vis], and [r] and [wk] the values of its
    [rev_dep] and [weak_rev_dep]: a value that [_get_assignable] lists is
    valid for the type of the symbol, and after [set_value] of it the
    value of the symbol is that value, and it is written out; the one
    exception is [vis] = [r] = "m" with [wk] = "y", where "m" is listed
    and the value is "y". *)
Theorem set_value_assignable (c : Config) (value : oracle) (nm : string)
  (s : Symbol) (vis r wk : tri) (a : string) (x : ascii) :
  syms c !! nm = Some s ->
  is_tri_type (_type s) = true -> choice s = None ->
  Symbol_visibility c value s = Some vis ->
  eval_expr c value (Some (rev_dep s)) = Some r ->
  eval_expr c value (Some (weak_rev_dep s)) = Some wk ->
  _get_assignable c value s = Some a ->
  contains x a = true ->
  let c' := fst (Symbol_set_value c nm (String x "")) in
  user_value (sym_of c' nm) = Some (String x "")
  /\ Symbol_value c' value (sym_of c' nm)
     = Some (if Tri.eqb vis M && Tri.eqb r M && Tri.eqb wk Y
             then "y" else String x "", true).
Proof.
  intros Hnm Hty Hch Hvis Hr Hw Ha Hx c'.
  assert (sym_of c nm = s) as Hs by (unfold sym_of; by rewrite Hnm).
  pose proof (assignable_valid c value s a x Hty Hch Ha Hx) as Hok.
  assert (sym_of c' nm = set_user_value (Some (String x "")) s) as Hs'.
  { unfold c'. rewrite Symbol_set_value_plain by by rewrite Hs.
    by apply sym_of_alter_eq. }
  rewrite Hs'. split; [done|].
  unfold c'. rewrite (Symbol_value_static c); [|apply Symbol_set_value_static;
                                                 by rewrite Hs].
  by apply (assignable_value_at c value s vis r wk a x).
Qed.

Lemma set_value_assignable_witness :
  Symbol_value (fst (Symbol_set_value Examples.visible_tristate "S" "m"))
    (value_of 2 Examples.visible_tristate)
    (sym_of (fst (Symbol_set_value Examples.visible_tristate "S" "m")) "S")
  = Some ("m", true).
Proof.
  apply (set_value_assignable Examples.visible_tristate
           (value_of 2 Examples.visible_tristate) "S"
           (Examples.defined "S" TRISTATE (Some ("s", None)) [])
           Y N N "nmy" "m"); vm_compute; reflexivity.
Defined.

(** ** Selecting a symbol of a choice *)

(** [set_value("y")] on a bool or tristate symbol of a choice makes the
    symbol the user selection of the choice and sets the user value of
    the choice to "y".  When, with that, the choice is in mode "y" and
    the visibility of the symbol is "y", the symbol is the selection of
    the choice and its value is "y". *)
Theorem set_value_selects (c : Config) (nm : string) (s : Symbol) (ci : nat)
  (ch : Choice) :
  syms c !! nm = Some s -> name s = nm ->
  is_tri_type (_type s) = true ->
  choice s = Some ci -> _choices c !! ci = Some ch ->
  let c' := fst (Symbol_set_value c nm "y") in
  let ch' := set_choice_user (Some "y") (Some nm) ch in
  _choices c' !! ci = Some ch'
  /\ sym_of c' nm = set_user_value (Some "y") s
  /\ forall value,
       Choice_value c' value ch' = Some Y ->
       Symbol_visibility c' value (sym_of c' nm) = Some Y ->
       selection c' value ch' = Some (Some nm)
       /\ Symbol_value c' value (sym_of c' nm) = Some ("y", true).
Proof.
  intros Hnm Hname Hty Hch Hci c' ch'.
  assert (sym_of c nm = s) as Hs by (unfold sym_of; by rewrite Hnm).
  assert (valid_for_type (_type s) "y" = true) as Hok
    by (destruct (_type s); done).
  assert (c' = with_choices
                 (with_syms c (alter (set_user_value (Some "y")) nm (syms c)))
                 (alter (set_choice_user (Some "y") (Some nm)) ci (_choices c)))
    as Hc'.
  { unfold c', Symbol_set_value, _set_value_no_invalidate.
    by rewrite Hs, Hok, Hch, Hty. }
  assert (_choices c' !! ci = Some ch') as Hci'.
  { rewrite Hc'. simpl. by rewrite list_lookup_alter_eq, Hci. }
  assert (sym_of c' nm = set_user_value (Some "y") s) as Hs'.
  { rewrite Hc'. unfold sym_of. simpl. by rewrite lookup_alter_eq, Hnm. }
  split; [done|]. split; [done|].
  intros value Hmode Hvis.
  assert (selection c' value ch' = Some (Some nm)) as Hsel.
  { unfold selection. rewrite Hmode, bind_Some_l.
    change (ch_user_selection ch') with (Some nm). cbv beta iota.
    rewrite Hvis, bind_Some_l. done. }
  split; [done|].
  rewrite Hs' in Hvis |- *. unfold Symbol_value.
  change (_type (set_user_value (Some "y") s)) with (_type s).
  change (choice (set_user_value (Some "y") s)) with (choice s).
  rewrite Hvis, Hch, Hci'.
  assert (value_tri_choice c' value (set_user_value (Some "y") s) ch' Y
          = Some (Y, true)) as Hv.
  { unfold value_tri_choice. rewrite Hmode, bind_Some_l, Hsel, bind_Some_l.
    change (name (set_user_value (Some "y") s)) with (name s).
    by rewrite Hname, String.eqb_refl. }
  destruct (_type s); try done;
    by rewrite !bind_Some_l, Hv, bind_Some_l.
Qed.

Lemma set_value_selects_witness :
  selection (fst (Symbol_set_value Examples.selected_member "B" "y"))
    (value_of 3 (fst (Symbol_set_value Examples.selected_member "B" "y")))
    (set_choice_user (Some "y") (Some "B")
       (Examples.bool_choice "pick" ["A"; "B"]))
  = Some (Some "B")
  /\ Symbol_value (fst (Symbol_set_value Examples.selected_member "B" "y"))
       (value_of 3 (fst (Symbol_set_value Examples.selected_member "B" "y")))
       (sym_of (fst (Symbol_set_value Examples.selected_member "B" "y")) "B")
     = Some ("y", true).
Proof.
  apply (set_value_selects Examples.selected_member "B"
           (Examples.selected_by (ESym "S")
              (Examples.member_of 0
                 (Examples.defined "B" BOOL (Some ("b", None)) [])))
           0 (Examples.bool_choice "pick" ["A"; "B"]));
    vm_compute; reflexivity.
Defined.

(** ** [Config.unset_values], [Symbol.unset_value] *)

Section Unset.

Lemma set_user_value_idemp uv uv' s :
  set_user_value uv (set_user_value uv' s) = set_user_value uv s.
Proof. done. Qed.

Lemma lookup_foldr_alter (f : Symbol -> Symbol) (l : list string)
  (m : gmap string Symbol) k :
  (forall s, f (f s) = f s) ->
  foldr (fun nm m => alter f nm m) m l !! k
  = if decide (k ∈ l) then f <$> m !! k else m !! k.
Proof.
  intros Hf. induction l as [|a l IH]; cbn [foldr].
  - destruct (decide (k ∈ [])) as [H|_]; [by apply elem_of_nil in H|done].
  - destruct (decide (a = k)) as [-> | Hne].
    + rewrite lookup_alter_eq, IH.
      destruct (decide (k ∈ k :: l)) as [_|H2];
        [|destruct H2; apply elem_of_cons; by left].
      destruct (decide (k ∈ l)); [|done].
      destruct (m !! k); simpl; [by rewrite Hf|done].
    + rewrite lookup_alter_ne by done. rewrite IH.
      destruct (decide (k ∈ l)) as [H1|H1],
               (decide (k ∈ a :: l)) as [H2|H2]; try done.
      * destruct H2. apply elem_of_cons. by right.
      * apply elem_of_cons in H2 as [-> | H2]; done.
Qed.

Lemma sym_of_unset_values c nm :
  sym_of (unset_values c) nm
  = if decide (nm ∈ defined_syms c)
    then set_user_value None (sym_of c nm) else sym_of c nm.
Proof.
  unfold sym_of, unset_values. simpl.
  rewrite lookup_foldr_alter by done.
  destruct (decide (nm ∈ defined_syms c)); [|done].
  by destruct (syms c !! nm).
Qed.

End Unset.

(** [unset_values] clears the user value of every defined symbol and the
    user value and user selection of every choice; it changes nothing
    else, and doing it twice is the same as doing it once. *)
Theorem unset_values_clears (c : Config) :
  (forall nm, In nm (defined_syms c) ->
     user_value (sym_of (unset_values c) nm) = None)
  /\ (forall nm, ~ In nm (defined_syms c) ->
        sym_of (unset_values c) nm = sym_of c nm)
  /\ (forall nm, same_decl (sym_of c nm) (sym_of (unset_values c) nm))
  /\ (forall i ch', _choices (unset_values c) !! i = Some ch' ->
        exists ch, _choices c !! i = Some ch
                   /\ ch' = set_choice_user None None ch)
  /\ unset_values (unset_values c) = unset_values c.
Proof.
  repeat split.
  - intros nm H. apply list_elem_of_In in H.
    rewrite sym_of_unset_values. by rewrite decide_True.
  - intros nm H. rewrite sym_of_unset_values.
    rewrite decide_False; [done|]. intros H'. by apply list_elem_of_In in H'.
  - intros nm. rewrite sym_of_unset_values.
    by destruct (decide (nm ∈ defined_syms c)).
  - intros i ch' H. unfold unset_values in H. simpl in H.
    rewrite list_lookup_fmap in H.
    destruct (_choices c !! i) as [ch|]; [|done].
    simpl in H. injection H as <-. eauto.
  - unfold unset_values at 1 3. unfold with_choices, with_syms. simpl. f_equal.
    + apply map_eq. intros k. rewrite !lookup_foldr_alter by done.
      destruct (decide (k ∈ defined_syms c)); [|done].
      by destruct (syms c !! k).
    + rewrite <- list_fmap_compose. by apply list_fmap_ext.
Qed.

Lemma unset_values_clears_witness :
  user_value (sym_of (unset_values (Examples.int_N None (Some "15"))) "N")
  = None.
Proof.
  apply (proj1 (unset_values_clears (Examples.int_N None (Some "15")))).
  simpl. by left.
Defined.

(** [set_value] and then [unset_value] on a symbol of no choice that had
    no user value give back the configuration, whether the value was
    valid or not. *)
Theorem set_unset_value (c : Config) (nm v : string) (s : Symbol) :
  syms c !! nm = Some s -> user_value s = None -> choice s = None ->
  Symbol_unset_value (fst (Symbol_set_value c nm v)) nm = c.
Proof.
  intros Hnm Huv Hch.
  assert (sym_of c nm = s) as Hs by (unfold sym_of; by rewrite Hnm).
  assert (set_user_value None s = s) as Hid.
  { destruct s. simpl in Huv. by subst. }
  unfold Symbol_set_value, _set_value_no_invalidate. rewrite Hs, Hch.
  destruct (negb (valid_for_type (_type s) v)); simpl;
    unfold Symbol_unset_value, with_syms; destruct c; simpl in *; f_equal.
  - apply map_eq. intros k. destruct (decide (nm = k)) as [<- | Hne].
    + by rewrite lookup_alter_eq, Hnm; simpl; rewrite Hid.
    + by rewrite lookup_alter_ne.
  - apply map_eq. intros k. destruct (decide (nm = k)) as [<- | Hne].
    + rewrite !lookup_alter_eq, Hnm. simpl. by rewrite <- Hid at 2.
    + by rewrite !lookup_alter_ne.
Qed.

Lemma set_unset_value_witness :
  Symbol_unset_value
    (fst (Symbol_set_value Examples.bool_default_y "FOO" "n")) "FOO"
  = Examples.bool_default_y.
Proof.
  apply (set_unset_value Examples.bool_default_y "FOO" "n"
           (Examples.defined "FOO" BOOL (Some ("foo", None))
              [(EStr "y", None)])); reflexivity.
Defined.


(** * Reading and writing files *)

(** ** What [load_config] changes *)

Section LoadFacts.

(** An assignment keeps the configuration, or stores a value that is
    valid for the type of the symbol it is made to. *)
Lemma _set_value_no_invalidate_shape c nm v b :
  fst (_set_value_no_invalidate c nm v b) = c
  \/ (valid_for_type (_type (sym_of c nm)) v = true
      /\ syms (fst (_set_value_no_invalidate c nm v b))
         = alter (set_user_value (Some v)) nm (syms c)).
Proof.
  unfold _set_value_no_invalidate.
  destruct (valid_for_type (_type (sym_of c nm)) v) eqn:Hok; [|by left].
  right. split; [done|]. simpl.
  destruct (choice (sym_of c nm)); [|done].
  destruct (is_tri_type _); [|done].
  destruct (v =? "y"); [done|]. by destruct (v =? "m").
Qed.

(** A line keeps the configuration, or is an assignment to its target. *)
Lemma load_line_cases filename c log i line :
  fst (load_line filename (c, log) (i, line)) = c
  \/ exists nm val,
       line_target (config_prefix c) line = Some nm
       /\ fst (load_line filename (c, log) (i, line))
          = fst (_set_value_no_invalidate c nm val true).
Proof.
  unfold load_line, line_target.
  assert (forall nm val log',
            fst (let '(c', ws) := _set_value_no_invalidate c nm val true in
                 (c', (log' ++ ws)%list))
            = fst (_set_value_no_invalidate c nm val true)) as Hset
    by (intros nm val log'; by destruct (_set_value_no_invalidate _ _ _ _)).
  destruct (_set_re_match _ _) as [[nm val]|].
  - destruct (syms c !! nm); [|by left].
    destruct (_ && (_ || _)); [by left|]. right. eauto.
  - destruct (_unset_re_match _ _) as [nm|]; [|by left].
    destruct (syms c !! nm); [|by left]. right. eauto.
Qed.

Lemma foldl_load_line_inv (P : Config -> Prop) filename :
  (forall c nm v, P c -> P (fst (_set_value_no_invalidate c nm v true))) ->
  forall lines st, P (fst st) -> P (fst (foldl (load_line filename) st lines)).
Proof.
  intros Hset. induction lines as [|[i line] lines IH]; intros [c log] H;
    [done|].
  cbn [foldl]. apply IH.
  destruct (load_line_cases filename c log i line) as [-> | (nm & v & _ & ->)];
    [done|]. by apply Hset.
Qed.

Lemma same_decl_trans s1 s2 s3 :
  same_decl s1 s2 -> same_decl s2 s3 -> same_decl s1 s3.
Proof. unfold same_decl. congruence. Qed.

Lemma _set_value_no_invalidate_decl c nm v b k :
  same_decl (sym_of c k) (sym_of (fst (_set_value_no_invalidate c nm v b)) k).
Proof.
  destruct (_set_value_no_invalidate_shape c nm v b) as [-> | [_ H]]; [done|].
  unfold sym_of. rewrite H. destruct (decide (nm = k)) as [<- | Hne].
  - rewrite lookup_alter_eq. by destruct (syms c !! nm).
  - by rewrite lookup_alter_ne.
Qed.

Lemma _set_value_no_invalidate_dom c nm v b :
  dom (syms (fst (_set_value_no_invalidate c nm v b))) = dom (syms c).
Proof.
  destruct (_set_value_no_invalidate_shape c nm v b) as [-> | [_ H]]; [done|].
  rewrite H. apply dom_alter_L.
Qed.

Lemma _set_value_no_invalidate_valid c nm v b :
  user_values_valid c ->
  user_values_valid (fst (_set_value_no_invalidate c nm v b)).
Proof.
  intros Hc.
  destruct (_set_value_no_invalidate_shape c nm v b) as [-> | [Hok H]];
    [done|].
  intros k s v' Hk Hv. rewrite H in Hk.
  destruct (decide (nm = k)) as [<- | Hne].
  - rewrite lookup_alter_eq in Hk.
    destruct (syms c !! nm) as [s0|] eqn:E; [|done].
    simpl in Hk. injection Hk as <-. simpl in *. injection Hv as <-.
    unfold sym_of in Hok. by rewrite E in Hok.
  - rewrite lookup_alter_ne in Hk by done. by apply (Hc k).
Qed.

Lemma unset_values_valid c :
  user_values_valid c -> user_values_valid (unset_values c).
Proof.
  intros Hc k s v Hk Hv. unfold unset_values in Hk. simpl in Hk.
  rewrite lookup_foldr_alter in Hk by done.
  destruct (decide (k ∈ defined_syms c)).
  - destruct (syms c !! k); [|done]. simpl in Hk. injection Hk as <-. done.
  - by apply (Hc k).
Qed.

Lemma enumerate1_snd {A} (l : list A) : snd <$> enumerate1 l = l.
Proof. unfold enumerate1. apply snd_zip. by rewrite length_seq. Qed.

(** Lines with other targets keep the user value of a symbol. *)
Lemma foldl_load_line_other filename pfx nm lines :
  Forall (fun p => line_target pfx (snd p) <> Some nm) lines ->
  forall st, config_prefix (fst st) = pfx ->
    user_value (sym_of (fst (foldl (load_line filename) st lines)) nm)
    = user_value (sym_of (fst st) nm).
Proof.
  induction 1 as [|[i line] lines Hl _ IH]; intros [c log] Hp; [done|].
  cbn [foldl]. cbn [fst snd] in Hp, Hl. rewrite IH.
  - apply load_line_other. cbn [fst]. by rewrite Hp.
  - rewrite (proj1 (load_line_captured filename (c, log) (i, line))). done.
Qed.

End LoadFacts.





(** ** String literals *)

(** What [config_string] writes for the value of a string symbol is read
    back by [load_config] as that value: the literal starts and ends
    with a double quote, so it passes the check of [load_config], and
    un-escaping what is between the quotes gives the value, whatever
    backslashes and double quotes it holds. *)
Theorem escape_unescape_round_trip (v : string) :
  let literal := String dquote (escape v ++ String dquote "") in
  Py.startswith (String dquote "") literal = true
  /\ (2 <= String.length literal)%nat
  /\ last_char literal = Some dquote
  /\ unescape literal = v.
Proof.
  cbv zeta. repeat split.
  - apply startswith_dquote.
  - cbn [String.length]. rewrite length_app_char. lia.
  - rewrite last_char_cons by (by destruct (escape v)).
    apply last_char_app_char.
  - apply unescape_escape.
Qed.

(** ** [defconfig_filename] *)

Section Defconfig.

Lemma _open_exists c w filename path text :
  _open c w filename = Some (path, text) -> files w !! path = Some text.
Proof.
  unfold _open. destruct (files w !! filename) eqn:E.
  - intros [= <- <-]. done.
  - destruct (srctree c); [|done]. destruct (negb (isabs filename)); [|done].
    intros H. apply bind_Some in H as (t & Ht & H). by simplify_eq.
Qed.

Lemma defconfig_loop_exists fuel c value w ds path :
  defconfig_loop fuel c value w ds = Some (Some path) ->
  is_Some (files w !! path).
Proof.
  induction ds as [|[filename cond] ds IH]; [done|]. simpl. intros H.
  apply bind_Some in H as (cv & _ & H).
  assert (match filename with
          | EStr f =>
              f' ← _expand_sym_refs fuel c value f;
              match _open c w f' with
              | Some (path, _) => Some (Some path)
              | None => defconfig_loop fuel c value w ds
              end
          | _ => None
          end = Some (Some path) -> is_Some (files w !! path)) as Hgo.
  { destruct filename; try done. intros H0.
    apply bind_Some in H0 as (f' & _ & H0).
    destruct (_open c w f') as [[p t]|] eqn:E; [|by apply IH].
    injection H0 as <-. apply _open_exists in E. by rewrite E. }
  destruct cv; [by apply IH| |]; by apply Hgo.
Qed.

End Defconfig.



(** ** What [write_config] writes *)

(** The strings of [_get_config_strings] are the lines of the symbols of
    the menu tree, and the headers of its menus and comments: every
    string is the line of a symbol of the tree whose value is written out,
    or a header; and the line of every symbol of the tree that has one is
    among the strings. *)
Theorem _get_config_strings_spec (c : Config) (value : oracle)
  (strings : list string) :
  _get_config_strings c value = Some strings ->
  (forall s, In s strings -> written_string c value (all_nodes c) s)
  /\ (forall node nm line,
        In node (all_nodes c) -> item node = ItemSymbol nm ->
        config_string c value (sym_of c nm) = Some (Some line) ->
        In line strings).
Proof.
  unfold _get_config_strings. intros H.
  apply fmap_Some in H as ([written out] & H & ->).
  rewrite walk_forest_nodes in H. fold (all_nodes c) in H.
  destruct (visit_all_spec c value _ _ _ _ _ H) as (H1 & _ & _ & H4 & H5).
  split.
  - intros s Hs. by destruct (H1 s Hs).
  - intros node nm line Hin Hi Hcs. simpl.
    apply (H5 nm); [by eapply H4| |done]. set_solver.
Qed.

Lemma _get_config_strings_spec_witness :
  In ("CONFIG_FOO=y" ++ newline) ["CONFIG_FOO=y" ++ newline].
Proof.
  assert (_get_config_strings Examples.bool_default_y
            (value_of 3 Examples.bool_default_y)
          = Some ["CONFIG_FOO=y" ++ newline]) as H
    by (vm_compute; reflexivity).
  apply (proj2 (_get_config_strings_spec Examples.bool_default_y
                  (value_of 3 Examples.bool_default_y)
                  ["CONFIG_FOO=y" ++ newline] H)
           (mkMenuNode (ItemSymbol "FOO") (Some ("foo", None)) None None)
           "FOO"); [by left|reflexivity|vm_compute; reflexivity].
Defined.

(** ** [_lookup_sym] *)

(** [_lookup_sym] returns the symbol of the name.  Without [for_eval] a
    name that the symbol table does not hold is registered with a new
    Symbol, every other entry is kept and nothing is printed, and a second
    lookup changes nothing.  With [for_eval] the configuration is kept,
    and a name that is not known is warned about. *)
Theorem _lookup_sym_spec (c : Config) (log : list warning) (nm : string) :
  (let r := _lookup_sym nm false (c, log) in
   fst r = inl nm
   /\ syms (fst (snd r)) !! nm
      = Some (default (new_Symbol nm) (syms c !! nm))
   /\ (forall k, k <> nm -> syms (fst (snd r)) !! k = syms c !! k)
   /\ snd (snd r) = log
   /\ _lookup_sym nm false (snd r) = r)
  /\ (let r := _lookup_sym nm true (c, log) in
      fst r = inl nm
      /\ fst (snd r) = c
      /\ snd (snd r)
         = (log ++ match syms c !! nm with
                   | Some _ => []
                   | None => _warn c (W_no_symbol nm)
                   end)%list).
Proof.
  unfold _lookup_sym, bind, get_config, put_config, ret, warn. simpl.
  destruct (syms c !! nm) as [s|] eqn:E; simpl.
  - rewrite E. simpl. rewrite app_nil_r. repeat split; try done.
  - rewrite lookup_insert_eq. simpl. repeat split; try done.
    intros k Hk. by rewrite lookup_insert_ne.
Qed.

Lemma _lookup_sym_spec_witness :
  syms (fst (snd (_lookup_sym "NEW" false (Examples.visible_tristate, []))))
    !! "S"
  = syms Examples.visible_tristate !! "S".
Proof.
  apply (proj1 (proj2 (proj2 (proj1
           (_lookup_sym_spec Examples.visible_tristate [] "NEW"))))).
  done.
Defined.


(** * The tokenizer and the parser end *)

Section TokenizerEnds.

Lemma lstrip_length s : (String.length (Py.lstrip s) <= String.length s)%nat.
Proof.
  induction s as [|a s IH]; simpl; [done|].
  destruct (Py.isspace a); simpl; lia.
Qed.

Lemma span_id_length s nm rest :
  span_id s = (nm, rest) ->
  String.length s = (String.length nm + String.length rest)%nat.
Proof.
  revert nm rest. induction s as [|a s IH]; intros nm rest; simpl.
  - by intros [= <- <-].
  - destruct (is_id_char a).
    + destruct (span_id s) as [n t]. intros [= <- <-]. simpl.
      by rewrite (IH n t).
    + by intros [= <- <-].
Qed.

Lemma span_word_length s nm rest :
  span_word s = (nm, rest) ->
  String.length s = (String.length nm + String.length rest)%nat.
Proof.
  revert nm rest. induction s as [|a s IH]; intros nm rest; simpl.
  - by intros [= <- <-].
  - destruct (Py.is_word a).
    + destruct (span_word s) as [n t]. intros [= <- <-]. simpl.
      by rewrite (IH n t).
    + by intros [= <- <-].
Qed.

Lemma _id_keyword_re_match_length s nm rest :
  _id_keyword_re_match s = Some (nm, rest) ->
  (String.length rest < String.length s)%nat.
Proof.
  unfold _id_keyword_re_match. destruct (span_id s) as [n t] eqn:E.
  destruct (String.eqb_spec n ""); [done|]. intros [= <- <-].
  apply span_id_length in E. pose proof (lstrip_length t).
  destruct n; [done|]. simpl in E. lia.
Qed.

Lemma split_at_char_length a s val rest :
  split_at_char a s = Some (val, rest) ->
  (String.length rest < String.length s)%nat.
Proof.
  revert val. induction s as [|b s IH]; intros val; simpl; [done|].
  destruct (Ascii.eqb a b).
  - intros [= <- <-]. lia.
  - intros H. apply bind_Some in H as ([pre post] & Hs & H).
    injection H as <- <-. specialize (IH _ Hs). lia.
Qed.

Lemma quoted_slow_length quote val s v rest :
  quoted_slow quote val s = Some (v, rest) ->
  (String.length rest < String.length s)%nat.
Proof.
  assert (forall n s val, (String.length s <= n)%nat ->
            quoted_slow quote val s = Some (v, rest) ->
            (String.length rest < String.length s)%nat) as H.
  { induction n as [|n IH]; intros s0 val0 Hn; destruct s0 as [|a r];
      simpl in *; try done; try lia.
    destruct (Ascii.eqb a quote).
    - intros [= <- <-]. lia.
    - destruct (Ascii.eqb a backslash).
      + destruct r as [|b r']; [done|]. intros H.
        apply IH in H; simpl in *; lia.
      + intros H. apply IH in H; simpl in *; lia. }
  by apply (H (String.length s)).
Qed.

Lemma _lookup_sym_returns nm for_eval st :
  fst (_lookup_sym nm for_eval st) = inl nm.
Proof.
  unfold _lookup_sym, bind, get_config. simpl.
  destruct (syms (fst st) !! nm); [done|]. by destruct for_eval.
Qed.

(** Every round of the loop of the tokenizer leaves less text than it
    was given. *)
Lemma tokenize_step_length for_eval has_backslash prev s st t rest st' :
  s <> "" ->
  tokenize_step for_eval has_backslash prev s st = (inl (t, Some rest), st') ->
  (String.length rest < String.length s)%nat.
Proof.
  intros Hs. unfold tokenize_step.
  destruct (_id_keyword_re_match s) as [[nm r0]|] eqn:E.
  - apply _id_keyword_re_match_length in E.
    destruct (_get_keyword nm); [by intros [= _ <- _]|].
    destruct (negb (in_STRING_LEX prev)); [|by intros [= _ <- _]].
    destruct (_ || _); [by intros [= _ <- _]|].
    unfold bind. destruct (_lookup_sym nm for_eval st) as [[sym|e] st1];
      [|done]. by intros [= _ <- _].
  - destruct s as [|a r]; [done|]. simpl.
    pose proof (lstrip_length r) as Hl.
    assert (forall (b : ascii) (t2 t1 : option tok),
      match r with
      | String b' r' =>
          if Ascii.eqb b b'
          then match t2 with
               | Some t0 => ret (Some (T t0), Some (Py.lstrip r'))
               | None => ret (None, Some r)
               end
          else match t1 with
               | Some t0 => ret (Some (T t0), Some (Py.lstrip r))
               | None => ret (None, Some r)
               end
      | EmptyString =>
          match t1 with
          | Some t0 => ret (Some (T t0), Some (Py.lstrip r))
          | None => ret (None, Some r)
          end
      end st = (inl (t, Some rest), st') ->
      (String.length rest < S (String.length r))%nat) as Htwo.
    { intros b t2 t1. destruct r as [|b' r'].
      - destruct t1; intros [= _ <- _]; simpl; lia.
      - pose proof (lstrip_length r').
        destruct (Ascii.eqb b b'); [destruct t2|destruct t1];
          intros [= _ <- _]; simpl in *; lia. }
    destruct (Ascii.eqb a dquote || Ascii.eqb a "'").
    { destruct (if negb has_backslash then split_at_char a r
                else quoted_slow a "" r) as [[val r1]|] eqn:Eq; [|done].
      intros [= _ <- _]. pose proof (lstrip_length r1).
      assert (String.length r1 < String.length r)%nat; [|lia].
      destruct (negb has_backslash);
        [by eapply split_at_char_length|by eapply quoted_slow_length]. }
    repeat (match goal with
            | |- (if ?b then _ else _) _ = _ -> _ => destruct b
            end;
            try (intros [= _ <- _]; simpl; lia); try done).
    + apply (Htwo "&"%char (Some _T_AND) None).
    + apply (Htwo "|"%char (Some _T_OR) None).
    + apply (Htwo "="%char (Some _T_UNEQUAL) (Some _T_NOT)).
    + apply (Htwo "="%char (Some _T_LESS_EQUAL) (Some _T_LESS)).
    + apply (Htwo "="%char (Some _T_GREATER_EQUAL) (Some _T_GREATER)).
Qed.

Lemma tokenize_loop_ends fuel for_eval has_backslash prev tokens s st :
  (String.length s <= fuel)%nat ->
  fst (tokenize_loop fuel for_eval has_backslash prev tokens s st)
  <> inr RecursionError.
Proof.
  revert prev tokens s st.
  induction fuel as [|fuel IH]; intros prev tokens s st Hlen.
  - destruct s; [done|]. simpl in Hlen. lia.
  - destruct s as [|a r]; [done|]. cbn [tokenize_loop]. unfold bind.
    destruct (tokenize_step for_eval has_backslash prev (String a r) st)
      as [[[t rest]|e] st1] eqn:E.
    + destruct rest as [rest|].
      * apply tokenize_step_length in E; [|done].
        destruct t; apply IH; simpl in *; lia.
      * by destruct t.
    + simpl. intros [= ->]. clear IH. revert E. unfold tokenize_step.
      destruct (_id_keyword_re_match _) as [[nm r0]|].
      * destruct (_get_keyword nm); [done|].
        destruct (negb _); [|done]. destruct (_ || _); [done|].
        unfold bind. pose proof (_lookup_sym_returns nm for_eval st) as Hr.
        destruct (_lookup_sym nm for_eval st) as [[x|e] st2];
          simpl in Hr; [done|congruence].
      * simpl.
        destruct (Ascii.eqb a dquote || Ascii.eqb a "'").
        { by destruct (if negb has_backslash then _ else _) as [[? ?]|]. }
        repeat (match goal with
                | |- (if ?b then _ else _) _ = _ -> _ => destruct b
                | |- match ?r with _ => _ end _ = _ -> _ => destruct r
                end; try done).
Qed.

Lemma _initial_token_re_match_length s w rest :
  _initial_token_re_match s = Some (w, rest) ->
  (String.length rest <= String.length s)%nat.
Proof.
  induction s as [|a s IH]; [done|]. cbn [_initial_token_re_match].
  destruct (Py.is_word a).
  - destruct (span_word (String a s)) as [n t] eqn:E. intros [= <- <-].
    apply span_word_length in E. pose proof (lstrip_length t). lia.
  - destruct (Ascii.eqb a "#"); [done|]. intros H. apply IH in H.
    simpl. lia.
Qed.

Lemma _tokenize_ends_at s for_eval st :
  fst (_tokenize s for_eval st) <> inr RecursionError
  /\ forall fuel has_backslash prev tokens s',
       (String.length s' <= fuel)%nat ->
       fst (tokenize_loop fuel for_eval has_backslash prev tokens s' st)
       <> inr RecursionError.
Proof.
  split; [|intros; by apply tokenize_loop_ends].
  unfold _tokenize. destruct for_eval.
  - unfold bind.
    pose proof (tokenize_loop_ends (String.length s) true
                  (contains backslash s) None [] s st (le_n _)) as H.
    destruct (tokenize_loop _ _ _ _ _ _ _) as [[ts|e] st1]; simpl in *;
      unfold ret; simpl; [discriminate|intros [= ->]; by apply H].
  - destruct (_initial_token_re_match s) as [[w rest]|] eqn:E; [|done].
    apply _initial_token_re_match_length in E.
    destruct (_get_keyword w) as [k|]; [|done].
    assert (fst ((let* ts := tokenize_loop (String.length s) false
                               (contains backslash s) (Some (T k)) [T k] rest
                  in ret (Some ts)) st) <> inr RecursionError) as Hk.
    { unfold bind.
      pose proof (tokenize_loop_ends (String.length s) false
                    (contains backslash s) (Some (T k)) [T k] rest st E) as H.
      destruct (tokenize_loop _ _ _ _ _ _ _) as [[ts|e] st1]; simpl in *;
        unfold ret; simpl; [discriminate|intros [= ->]; by apply H]. }
    by destruct k.
Qed.

End TokenizerEnds.

(** The tokenizer ends: every round of its loop takes at least one
    character of the line, so the loop ends within as many rounds as the
    line has characters, with the tokens or with a syntax error. *)
Theorem _tokenize_ends (s : string) (for_eval : bool)
  (st : Config * list warning) :
  fst (_tokenize s for_eval st) <> inr RecursionError
  /\ forall fuel has_backslash prev tokens s',
       (String.length s' <= fuel)%nat ->
       fst (tokenize_loop fuel for_eval has_backslash prev tokens s' st)
       <> inr RecursionError.
Proof. apply _tokenize_ends_at. Qed.

Lemma _tokenize_ends_witness :
  fst (tokenize_loop 9 true false None [] "A && !B" (Examples.hidden_choice, []))
  <> inr RecursionError.
Proof.
  apply (_tokenize_ends "A && !B" true (Examples.hidden_choice, [])).
  simpl. lia.
Defined.

Section ParserEnds.

Lemma parse_ok_operand feed t rest (k : expr -> expr) :
  (length rest < length feed)%nat ->
  parse_ok feed (rbind (operand t) (fun e => inl (k e, rest))).
Proof.
  intros H. destruct t as [[| |]|]; simpl; split; try done;
    by intros e r [= <- <-].
Qed.

Lemma parser_ends fuel transform_m :
  forall feed,
    ((3 * length feed + 3 <= fuel)%nat ->
     parse_ok feed (_parse_expr fuel transform_m feed))
    /\ ((3 * length feed + 2 <= fuel)%nat ->
        parse_ok feed (_parse_and_expr fuel transform_m feed))
    /\ ((3 * length feed + 1 <= fuel)%nat ->
        parse_ok feed (_parse_factor fuel transform_m feed)).
Proof.
  induction fuel as [|fuel IH]; intros feed; [repeat split; lia|].
  split; [|split]; intros Hf.
  - (* an expression *)
    destruct (proj1 (proj2 (IH feed))) as [Hr Hl]; [lia|].
    cbn [_parse_expr].
    destruct (_parse_and_expr fuel transform_m feed) as [[e1 feed1]|err];
      [|by split].
    specialize (Hl _ _ eq_refl). simpl.
    assert (parse_ok feed (inl (e1, feed1))) as Hsame
      by (split; [done|]; intros e r [= <- <-]; done).
    destruct feed1 as [|[k| |] rest]; try done.
    destruct k; try done.
    destruct (proj1 (IH rest)) as [Hr2 Hl2]; [simpl in Hl; lia|].
    destruct (_parse_expr fuel transform_m rest) as [[e2 feed2]|err2];
      simpl; split; try done.
    intros e r [= <- <-]. specialize (Hl2 _ _ eq_refl). simpl in Hl. lia.
  - (* a conjunction *)
    destruct (proj2 (proj2 (IH feed))) as [Hr Hl]; [lia|].
    cbn [_parse_and_expr].
    destruct (_parse_factor fuel transform_m feed) as [[e1 feed1]|err];
      [|by split].
    specialize (Hl _ _ eq_refl). simpl.
    assert (parse_ok feed (inl (e1, feed1))) as Hsame
      by (split; [done|]; intros e r [= <- <-]; done).
    destruct feed1 as [|[k| |] rest]; try done.
    destruct k; try done.
    destruct (proj1 (proj2 (IH rest))) as [Hr2 Hl2]; [simpl in Hl; lia|].
    destruct (_parse_and_expr fuel transform_m rest) as [[e2 feed2]|err2];
      simpl; split; try done.
    intros e r [= <- <-]. specialize (Hl2 _ _ eq_refl). simpl in Hl. lia.
  - (* a factor *)
    cbn [_parse_factor].
    destruct feed as [|tk rest]; [by split|].
    assert (parse_ok (tk :: rest)
              (if transform_m && is_m tk
               then inl (EAnd (EStr "m") (ESym "MODULES"), rest)
               else rbind (operand (Some tk)) (fun e => inl (e, rest))))
      as Hplain.
    { destruct (transform_m && is_m tk).
      - split; [done|]. intros e r [= <- <-]. simpl. lia.
      - apply (parse_ok_operand _ _ _ (fun e => e)). simpl. lia. }
    assert (forall rel, parse_ok (tk :: rest)
              (rbind (operand (Some tk)) (fun e1 =>
               rbind (operand (head (tail rest))) (fun e2 =>
               inl (ERel rel e1 e2, tail (tail rest)))))) as Hrel.
    { intros rel. destruct tk as [k|nm|s]; simpl; [by split| |].
      - apply (parse_ok_operand _ _ _ (fun e => ERel rel (ESym nm) e)).
        destruct rest as [|? [|? ?]]; simpl; lia.
      - apply (parse_ok_operand _ _ _ (fun e => ERel rel (EStr s) e)).
        destruct rest as [|? [|? ?]]; simpl; lia. }
    destruct tk as [k|nm|s].
    + destruct k; try (by split).
      * destruct (proj2 (proj2 (IH rest))) as [Hr Hl]; [simpl in Hf; lia|].
        destruct (_parse_factor fuel transform_m rest) as [[e1 feed1]|err];
          simpl; [|by split].
        specialize (Hl _ _ eq_refl).
        split; [done|]. intros e r [= <- <-]. simpl. lia.
      * destruct (proj1 (IH rest)) as [Hr Hl]; [simpl in Hf; lia|].
        destruct (_parse_expr fuel transform_m rest) as [[e1 feed1]|err];
          simpl; [|by split].
        specialize (Hl _ _ eq_refl).
        destruct feed1 as [|[k| |] feed2]; try (by split).
        destruct k; try (by split).
        split; [done|]. intros e r [= <- <-]. simpl in *. lia.
    + destruct rest as [|next rest']; [apply Hplain|].
      destruct (_TOKEN_TO_REL next); [apply (Hrel r)|apply Hplain].
    + destruct rest as [|next rest']; [apply Hplain|].
      destruct (_TOKEN_TO_REL next); [apply (Hrel r)|apply Hplain].
Qed.

End ParserEnds.




(** * Dependency tracking *)

Section Agree.

Variable c : Config.
Variables o1 o2 : oracle.

Lemma agree_app es es' :
  agree o1 o2 (es ++ es') <-> agree o1 o2 es /\ agree o1 o2 es'.
Proof.
  unfold agree. split.
  - intros H. split; intros e k He Hk; apply (H e k); try done;
      apply elem_of_app; auto.
  - intros [H1 H2] e k [He|He]%elem_of_app Hk; eauto.
Qed.

Lemma agree_cons e es :
  agree o1 o2 (e :: es) <-> agree o1 o2 [e] /\ agree o1 o2 es.
Proof. apply (agree_app [e] es). Qed.

Lemma eval_expr_agree e :
  agree o1 o2 [e] -> eval_expr c o1 e = eval_expr c o2 e.
Proof.
  intros H. destruct e as [e|]; [|done]. unfold eval_expr.
  apply _eval_expr_rec_reads. intros k Hk. apply (H (Some e) k); [|done].
  apply list_elem_of_here.
Qed.

Lemma _str_val_agree e :
  agree o1 o2 [Some e] -> _str_val o1 e = _str_val o2 e.
Proof.
  intros H. destruct e as [k| | | | |]; try done. simpl.
  apply (H (Some (ESym k)) k); [apply list_elem_of_here|].
  simpl. apply list_elem_of_here.
Qed.

Lemma _eval_max_agree v e :
  agree o1 o2 [e] ->
  _eval_max c o1 (tri_expr v) e = _eval_max c o2 (tri_expr v) e.
Proof. intros H. unfold _eval_max. by rewrite (eval_expr_agree e H). Qed.

Lemma _eval_min_agree v e :
  agree o1 o2 [e] ->
  _eval_min c o1 e (tri_expr v) = _eval_min c o2 e (tri_expr v).
Proof.
  intros H. unfold _eval_min. rewrite (eval_expr_agree e H).
  by rewrite !eval_tri_expr.
Qed.

Lemma _eval_max_const v w :
  _eval_max c o1 (tri_expr v) (tri_expr w)
  = _eval_max c o2 (tri_expr v) (tri_expr w).
Proof. unfold _eval_max. by rewrite !eval_tri_expr. Qed.

Lemma _eval_min_const s w :
  _eval_min c o1 (Some (EStr s)) (tri_expr w)
  = _eval_min c o2 (Some (EStr s)) (tri_expr w).
Proof. unfold _eval_min. by rewrite !eval_tri_expr. Qed.

Lemma prompts_vis_agree vis nds :
  agree o1 o2 (prompt_exprs nds) ->
  prompts_vis c o1 vis nds = prompts_vis c o2 vis nds.
Proof.
  revert vis. induction nds as [|node nds IH]; intros vis H; [done|].
  cbn [prompts_vis]. unfold prompt_exprs in H. cbn [omap list_omap] in H.
  fold (prompt_exprs nds) in H.
  destruct (prompt node) as [p|]; [|by apply IH].
  cbn [fmap option_fmap option_map] in H. apply agree_cons in H as [H1 H2].
  apply bind_ext2; [by apply _eval_max_agree|]. intros vis'. by apply IH.
Qed.

Lemma tri_defaults_agree (ds : list (expr * option expr)) :
  agree o1 o2 (concat ((fun d => [Some (fst d); snd d]) <$> ds)) ->
  tri_defaults c o1 ds = tri_defaults c o2 ds.
Proof.
  induction ds as [|[d cond] ds IH]; intros H; [done|].
  cbn [tri_defaults]. cbn [fmap list_fmap concat fst snd app] in H.
  apply agree_cons in H as [Hd H]. apply agree_cons in H as [Hc H].
  apply bind_ext2; [by apply eval_expr_agree|]. intros cv.
  destruct cv; [by apply IH| |]; by rewrite (_eval_min_agree _ _ Hd).
Qed.

Lemma string_defaults_agree val w (ds : list (expr * option expr)) :
  agree o1 o2 (concat ((fun d => [Some (fst d); snd d]) <$> ds)) ->
  string_defaults c o1 val w ds = string_defaults c o2 val w ds.
Proof.
  induction ds as [|[d cond] ds IH]; intros H; [done|].
  cbn [string_defaults]. cbn [fmap list_fmap concat fst snd app] in H.
  apply agree_cons in H as [Hd H]. apply agree_cons in H as [Hc H].
  apply bind_ext2; [by apply eval_expr_agree|]. intros cv.
  destruct cv; [by apply IH| |]; by rewrite (_str_val_agree _ Hd).
Qed.

Lemma int_defaults_agree t base range val w
  (ds : list (expr * option expr)) :
  agree o1 o2 (concat ((fun d => [Some (fst d); snd d]) <$> ds)) ->
  int_defaults c o1 t base range val w ds
  = int_defaults c o2 t base range val w ds.
Proof.
  revert val w. induction ds as [|[d cond] ds IH]; intros val w H; [done|].
  cbn [int_defaults]. cbn [fmap list_fmap concat fst snd app] in H.
  apply agree_cons in H as [Hd H]. apply agree_cons in H as [Hc H].
  apply bind_ext2; [by apply eval_expr_agree|]. intros cv.
  destruct cv; [by apply IH| |]; rewrite (_str_val_agree _ Hd);
    (apply bind_ext2; [done|]); intros v; destruct (Py.int v base);
    try done; by apply IH.
Qed.

Lemma active_range_agree base (rs : list (expr * expr * option expr)) :
  agree o1 o2
    (concat ((fun r => [Some (fst (fst r)); Some (snd (fst r)); snd r])
               <$> rs)) ->
  active_range c o1 base rs = active_range c o2 base rs.
Proof.
  induction rs as [|[[l h] cond] rs IH]; intros H; [done|].
  cbn [active_range]. cbn [fmap list_fmap concat fst snd app] in H.
  apply agree_cons in H as [Hl H]. apply agree_cons in H as [Hh H].
  apply agree_cons in H as [Hc H].
  apply bind_ext2; [by apply eval_expr_agree|]. intros cv.
  destruct cv; [by apply IH| |];
    by rewrite (_str_val_agree _ Hl), (_str_val_agree _ Hh).
Qed.

Hypothesis modules_agree : o1 "MODULES" = o2 "MODULES".

Lemma modules_is_n_agree : modules_is_n o1 = modules_is_n o2.
Proof. unfold modules_is_n. by rewrite modules_agree. Qed.

Lemma promote_vis_agree t vis : promote_vis o1 t vis = promote_vis o2 t vis.
Proof. unfold promote_vis. by rewrite modules_is_n_agree. Qed.

Variable s : Symbol.
Hypothesis no_choice : choice s = None.
Hypothesis exprs_agree : agree o1 o2 (dep_exprs c s).

Lemma dep_exprs_agree :
  agree o1 o2 (prompt_exprs (nodes s))
  /\ agree o1 o2 (concat ((fun d => [Some (fst d); snd d]) <$> defaults s))
  /\ agree o1 o2 [Some (rev_dep s)]
  /\ agree o1 o2 [Some (weak_rev_dep s)]
  /\ agree o1 o2
       (concat ((fun r => [Some (fst (fst r)); Some (snd (fst r)); snd r])
                  <$> ranges s))
  /\ agree o1 o2 [Some (direct_deps s)].
Proof.
  pose proof exprs_agree as H. unfold dep_exprs in H.
  rewrite no_choice, app_nil_r in H.
  apply agree_app in H as [H1 H]. apply agree_app in H as [H2 H].
  apply agree_app in H as [H3 H]. apply agree_app in H as [H4 H5].
  apply agree_cons in H3 as [H3 H3']. done.
Qed.

Lemma Symbol_visibility_agree :
  Symbol_visibility c o1 s = Symbol_visibility c o2 s.
Proof.
  destruct dep_exprs_agree as (Hp & _). unfold Symbol_visibility.
  rewrite no_choice. apply bind_ext2; [by apply prompts_vis_agree|].
  intros vis. apply promote_vis_agree.
Qed.

Lemma Symbol_type_agree : Symbol_type c o1 s = Symbol_type c o2 s.
Proof.
  unfold Symbol_type. rewrite no_choice. by rewrite modules_is_n_agree.
Qed.

Lemma promote_val_agree val : promote_val c o1 s val = promote_val c o2 s val.
Proof.
  destruct dep_exprs_agree as (_ & _ & _ & Hw & _). unfold promote_val.
  by rewrite Symbol_type_agree, (eval_expr_agree _ Hw).
Qed.

Lemma value_tri_plain_agree vis :
  value_tri_plain c o1 s vis = value_tri_plain c o2 s vis.
Proof.
  destruct dep_exprs_agree as (_ & Hd & Hr & Hw & _ & Hdd).
  unfold value_tri_plain.
  rewrite (tri_defaults_agree _ Hd), (eval_expr_agree _ Hr),
    (eval_expr_agree _ Hw), (eval_expr_agree _ Hdd).
  apply bind_ext2.
  - destruct vis, (user_value s); try done;
      try (by rewrite _eval_min_const);
      (apply bind_ext2; [done|]); intros d;
      destruct d; cbv beta iota; (apply bind_ext2; [done|]); intros dd;
      destruct dd; try done; (apply bind_ext2; [done|]); intros wv;
      destruct wv; try done; by rewrite _eval_max_const.
  - intros [val w]. apply bind_ext2; [done|]. intros rv.
    destruct rv; try done; by rewrite _eval_max_const.
Qed.

Lemma value_int_agree vis : value_int c o1 s vis = value_int c o2 s vis.
Proof.
  destruct dep_exprs_agree as (_ & Hd & _ & _ & Hrg & _).
  unfold value_int. rewrite (active_range_agree _ _ Hrg).
  apply bind_ext2; [done|]. intros range.
  by rewrite !(int_defaults_agree _ _ _ _ _ _ Hd).
Qed.

Lemma value_string_agree vis :
  value_string c o1 s vis = value_string c o2 s vis.
Proof.
  destruct dep_exprs_agree as (_ & Hd & _). unfold value_string.
  by rewrite !(string_defaults_agree _ _ _ Hd).
Qed.

Lemma Symbol_value_agree : Symbol_value c o1 s = Symbol_value c o2 s.
Proof.
  unfold Symbol_value. rewrite Symbol_visibility_agree, no_choice.
  destruct (_type s); try done; (apply bind_ext2; [done|]); intros vis.
  - rewrite value_tri_plain_agree. apply bind_ext2; [done|].
    intros [val w]. by rewrite promote_val_agree.
  - apply value_int_agree.
  - apply value_int_agree.
  - apply value_string_agree.
  - rewrite value_tri_plain_agree. apply bind_ext2; [done|].
    intros [val w]. by rewrite promote_val_agree.
Qed.

Lemma _get_assignable_agree :
  _get_assignable c o1 s = _get_assignable c o2 s.
Proof.
  destruct dep_exprs_agree as (_ & _ & Hr & Hw & _).
  unfold _get_assignable.
  by rewrite Symbol_visibility_agree, Symbol_type_agree,
    (eval_expr_agree _ Hr), (eval_expr_agree _ Hw).
Qed.

End Agree.

Section BuildDep.

Lemma foldl_keeps {A B} (f : A -> B -> A) (P : A -> Prop) (l : list B) a :
  (forall a y, P a -> P (f a y)) -> P a -> P (foldl f a l).
Proof.
  intros Hf. revert a. induction l as [|y l IH]; intros a Ha; [done|].
  simpl. apply IH. by apply Hf.
Qed.

Lemma foldl_reaches {A B} (f : A -> B -> A) (P : A -> Prop) (l : list B)
  x a :
  (forall a y, P a -> P (f a y)) -> (forall a, P (f a x)) -> x ∈ l ->
  P (foldl f a l).
Proof.
  intros Hf Hx. revert a. induction l as [|y l IH]; intros a Hin.
  - by apply elem_of_nil in Hin.
  - simpl. apply elem_of_cons in Hin as [<-|Hin].
    + by apply foldl_keeps.
    + by apply IH.
Qed.

Lemma add_dep_keeps sym deps k' nm k :
  nm ∈ dependents_of deps k -> nm ∈ dependents_of (add_dep sym deps k') k.
Proof.
  intros H. unfold add_dep, dependents_of in *.
  destruct (decide (k' = k)) as [->|Hne].
  - rewrite lookup_insert_eq. simpl. apply elem_of_union. by right.
  - by rewrite lookup_insert_ne.
Qed.

Lemma add_dep_here sym deps k : sym ∈ dependents_of (add_dep sym deps k) k.
Proof.
  unfold add_dep, dependents_of. rewrite lookup_insert_eq. simpl.
  apply elem_of_union. left. by apply elem_of_singleton.
Qed.

Lemma add_expr_deps_keeps sym deps e nm k :
  nm ∈ dependents_of deps k ->
  nm ∈ dependents_of (add_expr_deps sym deps e) k.
Proof.
  unfold add_expr_deps.
  apply (foldl_keeps _ (fun d => nm ∈ dependents_of d k)).
  intros a y. apply add_dep_keeps.
Qed.

Lemma add_expr_deps_here sym deps e k :
  k ∈ _expr_syms e [] -> sym ∈ dependents_of (add_expr_deps sym deps e) k.
Proof.
  unfold add_expr_deps.
  apply (foldl_reaches _ (fun d => sym ∈ dependents_of d k)).
  - intros a y. apply add_dep_keeps.
  - intros a. apply add_dep_here.
Qed.

Lemma _build_dep_here (c : Config) nm e k :
  nm ∈ defined_syms c -> e ∈ dep_exprs c (sym_of c nm) ->
  k ∈ _expr_syms e [] -> nm ∈ dependents_of (_build_dep c) k.
Proof.
  intros Hnm He Hk. unfold _build_dep.
  apply (foldl_reaches _ (fun d => nm ∈ dependents_of d k) _ nm);
    [| |done].
  - intros a y. apply (foldl_keeps _ (fun d => nm ∈ dependents_of d k)).
    intros a' y'. apply add_expr_deps_keeps.
  - intros a. apply (foldl_reaches _ (fun d => nm ∈ dependents_of d k) _ e);
      [| |done].
    + intros a' y'. apply add_expr_deps_keeps.
    + intros a'. by apply add_expr_deps_here.
Qed.

End BuildDep.

(** The sets of [_build_dep] cover what the value of a symbol outside a
    choice reads: when the values of two runs agree on MODULES and on
    every symbol that has the symbol among its direct dependents, the
    symbol has the same visibility, the same value and [_write_to_conf]
    flag, and the same assignable values in both. *)
Theorem _build_dep_covers (c : Config) (o1 o2 : oracle) (nm : string) :
  nm ∈ defined_syms c ->
  choice (sym_of c nm) = None ->
  o1 "MODULES" = o2 "MODULES" ->
  (forall k, nm ∈ dependents_of (_build_dep c) k -> o1 k = o2 k) ->
  Symbol_visibility c o1 (sym_of c nm) = Symbol_visibility c o2 (sym_of c nm)
  /\ Symbol_value c o1 (sym_of c nm) = Symbol_value c o2 (sym_of c nm)
  /\ _get_assignable c o1 (sym_of c nm) = _get_assignable c o2 (sym_of c nm).
Proof.
  intros Hnm Hch Hmod H.
  assert (agree o1 o2 (dep_exprs c (sym_of c nm))) as Ha.
  { intros e k He Hk. apply H. by apply (_build_dep_here c nm e k). }
  split; [|split].
  - by apply Symbol_visibility_agree.
  - by apply Symbol_value_agree.
  - by apply _get_assignable_agree.
Qed.

Lemma _build_dep_covers_witness :
  let c := Examples.int_N (Some ("n", None)) None in
  let o1 : oracle := fun nm => Some nm in
  let o2 : oracle := fun nm => if String.eqb nm "N" then None else Some nm in
  dependents_of (_build_dep c) "10" = {["N"]}
  /\ Symbol_value c o1 (sym_of c "N") = Symbol_value c o2 (sym_of c "N").
Proof.
  intros c o1 o2. split; [by vm_compute|].
  apply (_build_dep_covers c o1 o2 "N").
  - apply list_elem_of_here.
  - reflexivity.
  - reflexivity.
  - intros k Hk. unfold o1, o2. destruct (String.eqb_spec k "N") as [->|_].
    + exfalso. revert Hk.
      replace (dependents_of (_build_dep c) "N") with (∅ : gset string)
        by (by vm_compute).
      apply not_elem_of_empty.
    + reflexivity.
Defined.


(** * Finalizing choices *)

Section FinalizeChoice.

Lemma lookup_foldl_alter (f : Symbol -> Symbol) (l : list string)
  (m : gmap string Symbol) k :
  (forall s, f (f s) = f s) ->
  foldl (fun m nm => alter f nm m) m l !! k
  = if decide (k ∈ l) then f <$> m !! k else m !! k.
Proof.
  intros Hf. revert m. induction l as [|a l IH]; intros m; cbn [foldl].
  - destruct (decide (k ∈ [])) as [H|_]; [by apply elem_of_nil in H|done].
  - rewrite IH. destruct (decide (a = k)) as [-> | Hne].
    + rewrite lookup_alter_eq.
      destruct (decide (k ∈ k :: l)) as [_|H2];
        [|destruct H2; apply elem_of_cons; by left].
      destruct (decide (k ∈ l)); [|done].
      destruct (m !! k); simpl; [by rewrite Hf|done].
    + rewrite lookup_alter_ne by done.
      destruct (decide (k ∈ l)) as [H1|H1],
        (decide (k ∈ a :: l)) as [H2|H2]; try done.
      * destruct H2. apply elem_of_cons. by right.
      * apply elem_of_cons in H2 as [->|H2]; done.
Qed.

Lemma fill_type_idemp t s : fill_type t (fill_type t s) = fill_type t s.
Proof.
  unfold fill_type. destruct (sym_type_eqb (_type s) UNKNOWN) eqn:E.
  - simpl. by destruct (sym_type_eqb t UNKNOWN).
  - by rewrite E.
Qed.

Lemma fill_type_type t s :
  _type (fill_type t s)
  = if sym_type_eqb (_type s) UNKNOWN then t else _type s.
Proof. unfold fill_type. by destruct (sym_type_eqb (_type s) UNKNOWN). Qed.

Lemma fill_type_choice t s : choice (fill_type t s) = choice s.
Proof. unfold fill_type. by destruct (sym_type_eqb (_type s) UNKNOWN). Qed.

Lemma first_type_ext (m m' : gmap string Symbol) l :
  (forall nm, _type (default (new_Symbol nm) (m' !! nm))
              = _type (default (new_Symbol nm) (m !! nm))) ->
  first_type m' l = first_type m l.
Proof.
  intros H. induction l as [|nm l IH]; [done|]. simpl.
  by rewrite H, IH.
Qed.

Lemma first_type_UNKNOWN (m : gmap string Symbol) l :
  first_type m l = UNKNOWN
  <-> forall nm, nm ∈ l -> _type (default (new_Symbol nm) (m !! nm)) = UNKNOWN.
Proof.
  induction l as [|a l IH]; simpl.
  - split; [|done]. intros _ nm H. by apply elem_of_nil in H.
  - destruct (_type (default (new_Symbol a) (m !! a))) eqn:E; simpl;
      try (split; [done|]; intros H; specialize (H a);
           rewrite E in H; apply H; apply elem_of_cons; by left).
    rewrite IH. split.
    + intros H nm [->|Hnm]%elem_of_cons; [done|by apply H].
    + intros H nm Hnm. apply H. apply elem_of_cons. by right.
Qed.

End FinalizeChoice.

(** [_finalize_choice] appends the symbols of the nodes below the choice
    node to the symbols of the choice and makes the choice their choice.
    A choice with a type keeps it, one without gets the type of its first
    symbol that has one; a symbol of the choice with a type keeps it, and
    one without gets the type of the choice.  Other symbols are left as
    they are. *)
Theorem _finalize_choice_spec (c : Config) (node : MenuNode)
  (l : list menu_tree) (ci : nat) (ch : Choice) :
  item node = ItemChoice ci ->
  _choices c !! ci = Some ch ->
  (forall nm, nm ∈ (ch_syms ch ++ node_symbols l)%list ->
              is_Some (syms c !! nm)) ->
  let c' := _finalize_choice c (Menu node l) in
  exists ch',
    _choices c' !! ci = Some ch'
    /\ ch_syms ch' = (ch_syms ch ++ node_symbols l)%list
    /\ ch_type ch' = (if sym_type_eqb (ch_type ch) UNKNOWN
                      then first_type (syms c) (ch_syms ch')
                      else ch_type ch)
    /\ (ch_type ch' = UNKNOWN
        <-> ch_type ch = UNKNOWN
            /\ forall nm, nm ∈ ch_syms ch' -> _type (sym_of c nm) = UNKNOWN)
    /\ (forall nm, nm ∈ node_symbols l -> choice (sym_of c' nm) = Some ci)
    /\ (forall nm, nm ∈ ch_syms ch' ->
          _type (sym_of c' nm)
          = if sym_type_eqb (_type (sym_of c nm)) UNKNOWN
            then ch_type ch' else _type (sym_of c nm))
    /\ (forall nm, nm ∉ ch_syms ch' -> syms c' !! nm = syms c !! nm).
Proof.
  intros Hitem Hch Hin c'.
  set (members := node_symbols l).
  set (syms1 := foldl (fun m nm => alter (set_choice ci) nm m)
                  (syms c) members).
  set (ch_syms1 := (ch_syms ch ++ members)%list).
  set (ty := if sym_type_eqb (ch_type ch) UNKNOWN
             then first_type syms1 ch_syms1 else ch_type ch).
  set (syms2 := foldl (fun m nm => alter (fill_type ty) nm m)
                  syms1 ch_syms1).
  assert (c' = with_choices (with_syms c syms2)
                 (alter (set_choice_syms ch_syms1 ty) ci (_choices c)))
    as Hc'.
  { unfold c', _finalize_choice. by rewrite Hitem, Hch. }
  assert (forall k, syms1 !! k
                    = if decide (k ∈ members)
                      then set_choice ci <$> syms c !! k else syms c !! k)
    as H1 by (intros k; by apply lookup_foldl_alter).
  assert (forall k, syms2 !! k
                    = if decide (k ∈ ch_syms1)
                      then fill_type ty <$> syms1 !! k else syms1 !! k)
    as H2 by (intros k; apply lookup_foldl_alter, fill_type_idemp).
  assert (forall nm, _type (default (new_Symbol nm) (syms1 !! nm))
                     = _type (sym_of c nm)) as Hty1.
  { intros nm. rewrite H1. unfold sym_of.
    destruct (decide (nm ∈ members)); [|done]. by destruct (syms c !! nm). }
  assert (first_type syms1 ch_syms1 = first_type (syms c) ch_syms1) as Hft
    by (by apply first_type_ext).
  exists (set_choice_syms ch_syms1 ty ch). rewrite Hc'. cbn.
  split; [by rewrite list_lookup_alter_eq, Hch|].
  split; [done|]. split; [by unfold ty; rewrite Hft|]. split.
  { unfold ty. rewrite Hft.
    destruct (ch_type ch) eqn:E; simpl; try (split; [done|by intros [? _]]).
    rewrite first_type_UNKNOWN. split; [by intros H|by intros [_ H]]. }
  split.
  { intros nm Hnm. unfold sym_of at 1. cbn. rewrite H2, H1.
    destruct (Hin nm) as [s Hs]; [apply elem_of_app; by right|].
    rewrite Hs. destruct (decide (nm ∈ members)); [|done].
    destruct (decide (nm ∈ ch_syms1)); simpl; [|done].
    by rewrite fill_type_choice. }
  split.
  { intros nm Hnm. unfold sym_of at 1. cbn. rewrite H2.
    destruct (decide (nm ∈ ch_syms1)); [|done].
    destruct (Hin nm) as [s Hs]; [done|].
    pose proof (Hty1 nm) as Ht. destruct (syms1 !! nm) as [s1|] eqn:E1.
    - simpl in *. by rewrite fill_type_type, Ht.
    - rewrite H1, Hs in E1. by destruct (decide (nm ∈ members)). }
  intros nm Hnm. rewrite H2, H1.
  destruct (decide (nm ∈ ch_syms1)); [done|].
  destruct (decide (nm ∈ members)) as [Hm|]; [|done].
  destruct Hnm. apply elem_of_app. by right.
Qed.

Lemma _finalize_choice_spec_witness :
  let ch := {| ch_name := None; ch_type := UNKNOWN; ch_syms := [];
               ch_defaults := [];
               ch_nodes := [mkMenuNode (ItemChoice 0) (Some ("pick", None))
                              None None];
               ch_user_selection := None; ch_user_value := None;
               is_optional := false |} in
  let c := Examples.config
             [new_Symbol "MODULES";
              Examples.defined "A" UNKNOWN (Some ("a", None)) [];
              Examples.defined "B" TRISTATE (Some ("b", None)) []]
             ["A"; "B"] [ch] in
  let node := mkMenuNode (ItemChoice 0) (Some ("pick", None)) None None in
  let l := [Menu (mkMenuNode (ItemSymbol "A") (Some ("a", None)) None None) [];
            Menu (mkMenuNode (ItemSymbol "B") (Some ("b", None)) None None) []]
  in
  let c' := _finalize_choice c (Menu node l) in
  exists ch',
    _choices c' !! 0 = Some ch'
    /\ ch_syms ch' = (ch_syms ch ++ node_symbols l)%list
    /\ ch_type ch' = (if sym_type_eqb (ch_type ch) UNKNOWN
                      then first_type (syms c) (ch_syms ch')
                      else ch_type ch)
    /\ (ch_type ch' = UNKNOWN
        <-> ch_type ch = UNKNOWN
            /\ forall nm, nm ∈ ch_syms ch' -> _type (sym_of c nm) = UNKNOWN)
    /\ (forall nm, nm ∈ node_symbols l -> choice (sym_of c' nm) = Some 0)
    /\ (forall nm, nm ∈ ch_syms ch' ->
          _type (sym_of c' nm)
          = if sym_type_eqb (_type (sym_of c nm)) UNKNOWN
            then ch_type ch' else _type (sym_of c nm))
    /\ (forall nm, nm ∉ ch_syms ch' -> syms c' !! nm = syms c !! nm).
Proof.
  intros ch c node l.
  apply (_finalize_choice_spec c node l 0 ch); [reflexivity|reflexivity|].
  intros nm [->|[->|H]%elem_of_cons]%elem_of_cons.
  - by eexists.
  - by eexists.
  - by apply elem_of_nil in H.
Defined.


(** * Reading lines *)

Section FileFeed.

Lemma endswith_app suffix a b :
  endswith suffix b = true -> endswith suffix (a ++ b) = true.
Proof.
  intros H. induction a as [|x a IH]; [done|].
  simpl. rewrite IH. apply orb_true_r.
Qed.

Lemma join_lines_returns line rest n line' n' :
  join_lines line rest n = Some (line', n') ->
  n <= n' <= n + length rest /\ endswith continuation line' = false.
Proof.
  revert line n. induction rest as [|l rest IH]; intros line n; simpl.
  - destruct (endswith continuation line) eqn:E; [done|].
    intros [= <- <-]. split; [lia|done].
  - destruct (endswith continuation line) eqn:E.
    + intros H. apply IH in H. split; [lia|tauto].
    + intros [= <- <-]. split; [lia|done].
Qed.

Lemma join_lines_trailing line rest n :
  (forall l, last (line :: rest) = Some l ->
             endswith continuation l = true) ->
  join_lines line rest n = None
  \/ exists line' n',
       join_lines line rest n = Some (line', n') /\ n <= n' < n + length rest.
Proof.
  revert line n. induction rest as [|l rest IH]; intros line n H; simpl.
  - rewrite (H line eq_refl). by left.
  - destruct (endswith continuation line) eqn:E.
    + destruct (IH (String.substring 0 (String.length line - 2) line ++ l)
                  (S n)) as [Hn|(line' & n' & Hs & Hb)].
      * intros lst Hlst. destruct rest as [|l' rest].
        -- injection Hlst as <-. apply endswith_app. by apply H.
        -- apply H. by rewrite !last_cons_cons in *.
      * by left.
      * right. exists line', n'. split; [done|lia].
    + right. exists line, n. split; [done|lia].
Qed.

End FileFeed.

(** [_FileFeed.next] at the end of the file returns [None] and leaves
    the feed as it is; a line that it returns does not end in a
    backslash and a newline, and the line number has moved on by at
    least one and at most to the number of lines. *)
Theorem _FileFeed_next_progress (f : _FileFeed) :
  (length (ff_lines f) <= ff_linenr f -> _FileFeed_next f = Returns None f)
  /\ (forall line f',
        _FileFeed_next f = Returns line f' ->
        match line with
        | None => length (ff_lines f) <= ff_linenr f /\ f' = f
        | Some l =>
            endswith continuation l = false
            /\ ff_linenr f < ff_linenr f' <= length (ff_lines f)
            /\ ff_lines f' = ff_lines f /\ ff_filename f' = ff_filename f
        end).
Proof.
  unfold _FileFeed_next. split.
  - intros H. by rewrite drop_ge.
  - intros line f'.
    destruct (drop (ff_linenr f) (ff_lines f)) as [|l0 rest] eqn:E.
    + intros [= <- <-]. split; [|done].
      apply (f_equal length) in E. rewrite length_drop in E. simpl in E. lia.
    + destruct (join_lines l0 rest (S (ff_linenr f))) as [[l n]|] eqn:Ej;
        [|done].
      intros [= <- <-]. apply join_lines_returns in Ej as [Hn He].
      apply (f_equal length) in E. rewrite length_drop in E. simpl in *.
      repeat split; try done; lia.
Qed.

Lemma _FileFeed_next_progress_witness :
  let f := mk_FileFeed "Kconfig"
             ["config A" ++ newline;
              "  bool " ++ continuation; "  prompt" ++ newline] 1 in
  _FileFeed_next f
  = Returns (Some ("  bool   prompt" ++ newline)) (set_linenr f 3)
  /\ endswith continuation ("  bool   prompt" ++ newline) = false
  /\ ff_linenr f < ff_linenr (set_linenr f 3) <= length (ff_lines f)
  /\ ff_lines (set_linenr f 3) = ff_lines f
  /\ ff_filename (set_linenr f 3) = ff_filename f.
Proof.
  intros f. split; [reflexivity|].
  apply (proj2 (_FileFeed_next_progress f)
           (Some ("  bool   prompt" ++ newline)) (set_linenr f 3)).
  reflexivity.
Defined.

(** When the last line of the file ends in a backslash and a newline,
    [_FileFeed.next] never gets to the end of the file: a call before the
    end raises IndexError, or returns a line and is before the end
    again. *)
Theorem _FileFeed_next_trailing_continuation (f : _FileFeed)
  (l0 : string) :
  ff_linenr f < length (ff_lines f) ->
  last (ff_lines f) = Some l0 ->
  endswith continuation l0 = true ->
  _FileFeed_next f = Raises_IndexError
  \/ exists line n,
       _FileFeed_next f = Returns (Some line) (set_linenr f n)
       /\ ff_linenr f < n < length (ff_lines f).
Proof.
  intros Hlt Hlast Hends. unfold _FileFeed_next.
  destruct (drop (ff_linenr f) (ff_lines f)) as [|l rest] eqn:E.
  { apply (f_equal length) in E. rewrite length_drop in E. simpl in E. lia. }
  assert (last (l :: rest) = Some l0) as Hl.
  { rewrite <- Hlast, <- (take_drop (ff_linenr f) (ff_lines f)), E.
    by rewrite last_app_cons. }
  destruct (join_lines_trailing l rest (S (ff_linenr f)))
    as [->|(line' & n' & -> & Hb)]; [|by left|].
  { intros lst Hlst. rewrite Hl in Hlst. by injection Hlst as <-. }
  right. exists line', n'. split; [done|].
  apply (f_equal length) in E. rewrite length_drop in E. simpl in E. lia.
Qed.

Lemma _FileFeed_next_trailing_continuation_witness :
  let f := mk_FileFeed "Kconfig"
             ["config A" ++ newline; "  bool " ++ continuation] 1 in
  _FileFeed_next f = Raises_IndexError
  \/ exists line n,
       _FileFeed_next f = Returns (Some line) (set_linenr f n)
       /\ ff_linenr f < n < length (ff_lines f).
Proof.
  intros f.
  apply (_FileFeed_next_trailing_continuation f ("  bool " ++ continuation));
    simpl.
  - lia.
  - reflexivity.
  - reflexivity.
Defined.

(** * Indentation *)

Section Indentation.

Lemma contains_spaces n : contains "009" (spaces n) = false.
Proof. induction n as [|n IH]; [done|]. apply IH. Qed.

Lemma expandtabs_from_no_tab col s :
  contains "009" (expandtabs_from col s) = false.
Proof.
  revert col. induction s as [|a s IH]; intros col; [done|]. simpl.
  destruct (Ascii.eqb a "009") eqn:E.
  - by rewrite contains_app, contains_spaces, IH.
  - rewrite Ascii.eqb_sym in E.
    destruct (Ascii.eqb a "010" || Ascii.eqb a "013"); simpl;
      by rewrite E, IH.
Qed.

Lemma expandtabs_from_id col s :
  contains "009" s = false -> expandtabs_from col s = s.
Proof.
  revert col. induction s as [|a s IH]; intros col; [done|]. simpl.
  rewrite (Ascii.eqb_sym "009" a).
  destruct (Ascii.eqb a "009"); [done|]. simpl. intros H.
  destruct (Ascii.eqb a "010" || Ascii.eqb a "013"); by rewrite IH.
Qed.

Lemma string_from_no_tab k s :
  contains "009" s = false -> contains "009" (string_from k s) = false.
Proof.
  revert s. induction k as [|k IH]; intros s H; [by destruct s|].
  destruct s as [|a s]; [done|]. simpl in *. apply IH.
  by apply orb_false_iff in H as [_ H].
Qed.

Lemma string_from_length k s :
  String.length (string_from k s) = String.length s - k.
Proof.
  revert s. induction k as [|k IH]; intros s; [destruct s; simpl; lia|].
  destruct s as [|a s]; [done|]. simpl. apply IH.
Qed.

Lemma string_from_leading k s :
  k <= String.length s - String.length (Py.lstrip s) ->
  exists w,
    s = w ++ string_from k s /\ String.length w = k
    /\ Py.all_space w = true
    /\ Py.lstrip (string_from k s) = Py.lstrip s.
Proof.
  revert s. induction k as [|k IH]; intros s H.
  - exists "". by destruct s.
  - destruct s as [|a s]; [simpl in H; lia|].
    pose proof (lstrip_length s) as Hl. simpl in H.
    destruct (Py.isspace a) eqn:Ea; [|simpl in H; lia].
    destruct (IH s) as (w & Hw & Hlen & Hsp & Hls); [lia|].
    exists (String a w). simpl. rewrite Ea, Hlen, Hsp, <- Hw.
    by rewrite Hls.
Qed.

End Indentation.

(** [_deindent] takes the first [indent] columns off a line that is
    indented by [indent] columns or more and is longer than that: what it
    takes off is whitespace, the text of the line is kept, and the
    indentation of the result is that of the line less [indent]. *)
Theorem _deindent_indentation (line : string) (indent : nat) :
  indent <= _indentation line ->
  indent < String.length (expandtabs line) ->
  (exists w, expandtabs line = w ++ _deindent line indent
             /\ String.length w = indent /\ Py.all_space w = true)
  /\ Py.lstrip (_deindent line indent) = Py.lstrip (expandtabs line)
  /\ _indentation (_deindent line indent) = _indentation line - indent.
Proof.
  unfold _indentation, _deindent. intros Hind Hlen.
  destruct (Nat.leb_spec (String.length (expandtabs line)) indent) as [?|_];
    [lia|].
  destruct (string_from_leading indent (expandtabs line) Hind)
    as (w & Hw & Hwl & Hsp & Hls).
  split; [by exists w|]. split; [done|].
  assert (expandtabs (string_from indent (expandtabs line))
          = string_from indent (expandtabs line)) as ->.
  { apply expandtabs_from_id, string_from_no_tab, expandtabs_from_no_tab. }
  rewrite Hls, string_from_length.
  pose proof (lstrip_length (expandtabs line)). lia.
Qed.

Lemma _deindent_indentation_witness :
  let line := String "009" "  help text" in
  (exists w, expandtabs line = w ++ _deindent line 8
             /\ String.length w = 8 /\ Py.all_space w = true)
  /\ Py.lstrip (_deindent line 8) = Py.lstrip (expandtabs line)
  /\ _indentation (_deindent line 8) = _indentation line - 8.
Proof.
  intros line. apply (_deindent_indentation line 8).
  - vm_compute. lia.
  - vm_compute. lia.
Defined.


(** * The mode of a choice *)

Section ChoiceSetValue.

Lemma Choice_value_not_m_y c (value : oracle) ch sel v :
  v <> "m" -> v <> "y" ->
  Choice_value c value (set_choice_user (Some v) sel ch)
  = Choice_value c value (set_choice_user (Some "n") sel ch).
Proof.
  intros Hm Hy. unfold Choice_value. cbn [ch_user_value set_choice_user].
  apply bind_ext2; [|done]. apply bind_ext2; [done|]. intros vis.
  unfold _eval_min, eval_expr. cbn [_eval_expr_rec].
  apply String.eqb_neq in Hm, Hy. by rewrite Hm, Hy.
Qed.

End ChoiceSetValue.

(** [Choice.set_value] stores the value it is given as the user value of
    the choice, whether the value is valid for the type of the choice or
    not, and changes nothing else; it warns when the value is not valid,
    if warnings are enabled.  A stored value other than "m" and "y" gives
    the mode that "n" gives. *)
Theorem Choice_set_value_stores (c : Config) (value : oracle) (ci : nat)
  (ch : Choice) (v : string) :
  _choices c !! ci = Some ch ->
  let c' := fst (Choice_set_value c ci v) in
  let ch' := set_choice_user (Some v) (ch_user_selection ch) ch in
  _choices c' !! ci = Some ch'
  /\ (forall cj, cj <> ci -> _choices c' !! cj = _choices c !! cj)
  /\ syms c' = syms c
  /\ (v <> "m" -> v <> "y" ->
      Choice_value c' value ch'
      = Choice_value c' value
          (set_choice_user (Some "n") (ch_user_selection ch) ch))
  /\ (snd (Choice_set_value c ci v) = []
      <-> _print_warnings c = false
          \/ (ch_type ch = BOOL /\ (v = "n" \/ v = "y"))
          \/ (ch_type ch = TRISTATE /\ (v = "n" \/ v = "m" \/ v = "y"))).
Proof.
  intros Hch c' ch'. unfold c', Choice_set_value. rewrite Hch. cbn.
  split; [by rewrite list_lookup_alter_eq, Hch|].
  split; [intros cj Hne; by rewrite list_lookup_alter_ne|].
  split; [done|]. split; [apply Choice_value_not_m_y|].
  unfold _warn.
  destruct (ch_type ch), (_print_warnings c);
    repeat match goal with
      | |- context [String.eqb ?a ?b] => destruct (String.eqb_spec a b)
      end; simpl; split; try done; try tauto; try (intros _; tauto);
    intros [?|[[? ?]|[? ?]]]; try done; intuition congruence.
Qed.

Lemma Choice_set_value_stores_witness :
  let c := Examples.selected_member in
  let c' := fst (Choice_set_value c 0 "m") in
  exists ch',
    _choices c' !! 0 = Some ch' /\ ch_user_value ch' = Some "m"
    /\ snd (Choice_set_value c 0 "m") <> [].
Proof.
  intros c c'.
  destruct (Choice_set_value_stores c (fun nm => Some nm) 0
              (Examples.bool_choice "pick" ["A"; "B"]) "m" eq_refl)
    as (H1 & _).
  eexists. split; [exact H1|]. split; [reflexivity|]. by vm_compute.
Defined.


(** * Finalizing the menu tree *)

Section Flatten.

Lemma raw_sizes_app (l1 l2 : list raw_tree) :
  raw_sizes (l1 ++ l2)%list = raw_sizes l1 + raw_sizes l2.
Proof. apply sum_list_with_app. Qed.

Lemma raw_walk_app (l1 l2 : list raw_tree) :
  raw_walk (l1 ++ l2)%list = (raw_walk l1 ++ raw_walk l2)%list.
Proof. unfold raw_walk. by rewrite List.map_app, concat_app. Qed.

Lemma raw_walk_cons t l : raw_walk (t :: l) = (raw_nodes t ++ raw_walk l)%list.
Proof. done. Qed.

Lemma _flatten_returns fuel l :
  raw_sizes l < fuel ->
  exists l', _flatten fuel l = Some l'
             /\ raw_walk l' = raw_walk l
             /\ forallb is_flat l' = true.
Proof.
  revert l. induction fuel as [|fuel IH]; intros l Hlt; [lia|].
  destruct l as [|[i p ch] rest]; [by exists []|].
  assert (raw_sizes rest < fuel) as Hrest.
  { unfold raw_sizes in *. simpl in Hlt. lia. }
  assert (forall node, is_flat node = true ->
            raw_sizes (node :: rest) < S fuel ->
            exists l', cons node <$> _flatten fuel rest = Some l'
                       /\ raw_walk l' = raw_walk (node :: rest)
                       /\ forallb is_flat l' = true) as Hkeep.
  { intros node Hflat _. destruct (IH rest Hrest) as (l' & -> & Hw & Hf).
    exists (node :: l'). simpl. rewrite Hflat, Hf.
    by rewrite !raw_walk_cons, Hw. }
  destruct p as [p|]; [by apply Hkeep|].
  destruct ch as [|c ch]; [by apply Hkeep|].
  cbn [_flatten].
  destruct (IH ((c :: ch) ++ rest)%list) as (l' & -> & Hw & Hf).
  { rewrite raw_sizes_app. unfold raw_sizes in *.
    cbn [sum_list_with raw_size] in Hlt. fold (sum_list_with raw_size) in *.
    cbn [sum_list_with]. lia. }
  exists (Raw i None [] :: l'). simpl. rewrite Hf.
  split; [done|]. split; [|done].
  rewrite !raw_walk_cons, Hw, raw_walk_app. done.
Qed.

End Flatten.

(** [_flatten] ends, within as many rounds as the chain has nodes at any
    depth.  A walk of the tree meets the same nodes in the same order
    before and after it, and after it every node of the chain that has
    nodes below it has a prompt. *)
Theorem _flatten_keeps_order (fuel : nat) (l : list raw_tree) :
  raw_sizes l < fuel ->
  exists l', _flatten fuel l = Some l'
             /\ raw_walk l' = raw_walk l
             /\ forallb is_flat l' = true.
Proof. apply _flatten_returns. Qed.

Lemma _flatten_keeps_order_witness :
  let l := [Raw None None
              [Raw (Some (ItemSymbol "A")) (Some ("a", None)) [];
               Raw None None [Raw (Some (ItemSymbol "B")) None []]];
            Raw (Some (ItemSymbol "C")) None []] in
  exists l', _flatten 6 l = Some l'
             /\ raw_walk l' = raw_walk l
             /\ forallb is_flat l' = true.
Proof.
  intros l. apply (_flatten_keeps_order 6 l). vm_compute. lia.
Defined.

Section RemoveIf.

Lemma filter_skip_if l :
  List.filter has_item (skip_if l) = List.filter has_item l.
Proof.
  induction l as [|[[i|] p ch] l IH]; try done.
Qed.

Lemma remove_next_if_bounded n l :
  length l <= n ->
  List.filter has_item (remove_next_if l) = List.filter has_item l
  /\ (match l with
      | t :: _ => has_item t = true
      | [] => True
      end ->
      forallb has_item (remove_next_if l) = negb (adjacent_ifs l)).
Proof.
  revert l. induction n as [|n IH]; intros l Hn.
  { destruct l; [done|simpl in Hn; lia]. }
  destruct l as [|cur rest]; [done|]. simpl in Hn.
  destruct rest as [|nxt rest'].
  { split; [done|]. simpl. intros ->. done. }
  destruct (IH (nxt :: rest')) as [Hf1 Ha1]; [simpl in *; lia|].
  destruct (IH rest') as [Hf2 Ha2]; [simpl in *; lia|].
  destruct nxt as [[i|] p ch].
  - split.
    + change (remove_next_if (cur :: Raw (Some i) p ch :: rest'))
        with (cur :: remove_next_if (Raw (Some i) p ch :: rest')).
      cbn [List.filter]. cbn [List.filter] in Hf1. by rewrite Hf1.
    + intros Hcur.
      change (remove_next_if (cur :: Raw (Some i) p ch :: rest'))
        with (cur :: remove_next_if (Raw (Some i) p ch :: rest')).
      cbn [forallb]. rewrite Hcur, (Ha1 eq_refl).
      cbn [adjacent_ifs]. rewrite Hcur. done.
  - split.
    + change (remove_next_if (cur :: Raw None p ch :: rest'))
        with (cur :: remove_next_if rest').
      cbn [List.filter has_item]. by rewrite Hf2.
    + intros Hcur.
      change (remove_next_if (cur :: Raw None p ch :: rest'))
        with (cur :: remove_next_if rest').
      cbn [forallb]. rewrite Hcur.
      destruct rest' as [|t rest'']; [by cbn; rewrite Hcur|].
      destruct (has_item t) eqn:Ht.
      * rewrite (Ha2 eq_refl). cbn [adjacent_ifs has_item negb andb orb].
        rewrite Hcur, Ht. done.
      * cbn [remove_next_if forallb]. rewrite Ht.
        cbn [adjacent_ifs has_item negb andb orb]. rewrite Hcur, Ht. done.
Qed.

Lemma skip_if_head l :
  match skip_if l with
  | t :: _ => has_item t = true
  | [] => True
  end.
Proof. induction l as [|[[i|] p ch] l IH]; done. Qed.

End RemoveIf.

(** [_remove_if] never takes a node with an item out of the chain, and
    keeps the order of the nodes.  It takes out every [if] node when,
    after the [if] nodes at the head of the chain, no [if] node follows
    another one; otherwise an [if] node is left in the chain. *)
Theorem _remove_if_spec (l : list raw_tree) :
  List.filter has_item (_remove_if l) = List.filter has_item l
  /\ forallb has_item (_remove_if l) = negb (adjacent_ifs (skip_if l)).
Proof.
  unfold _remove_if.
  destruct (remove_next_if_bounded (length (skip_if l)) (skip_if l))
    as [Hf Ha]; [done|].
  split; [by rewrite Hf, filter_skip_if|]. apply Ha, skip_if_head.
Qed.
